(** * TeslaSentry: a shallow embedding of [sentry_stack.py]

    The development follows the source file top-down: the Python builtins
    the program relies on ([str.find], [int], [str], true division and the
    [repr] of a float, [re.match], [datetime], [pathlib.PurePosixPath],
    [sorted], an insertion-ordered [dict]), then [SentryEvent],
    [event_groups], [compose_stack_cmd] and [main]. The proofs come after
    all definitions.

    Conventions of the model:
    - a string is a sequence of 8-bit characters (code points 0..255),
      ordered by code point as Python orders [str]; among these the
      decimal digits of the pattern class for digits and of [int] are [0]
      to [9]. Names with characters beyond code point 255 are outside the
      model, among them the decimal digits of other scripts, which the
      pattern and [int] accept as well; a statement that would fail for
      such names says that its names are ASCII;
    - a Python [int] is a [Z];
    - a call returns a value or raises: [result] is the error monad;
    - a float is an exact binary64 value, true division rounds once to
      nearest-even and [repr] prints the shortest digits that read back;
    - a directory is the list of its entry names; the file system and the
      external program are parameters of [main]. *)

From Stdlib Require Import ZArith List String Ascii Bool Lia.
From Stdlib Require Import Sorting.Sorted Sorting.Permutation.
Import ListNotations.

Local Open Scope string_scope.
Local Open Scope list_scope.
Local Open Scope Z_scope.

#[local] Arguments Ascii.eqb : simpl never.

(* ================================================================== *)
(** * Exceptions *)

(** The exceptions the modelled code can raise. *)
Inductive exn : Type :=
| IndexError
| ValueError
| TypeError
| ZeroDivisionError
| OverflowError
| OSError.

(** A computation either returns or raises. *)
Inductive result (A : Type) : Type :=
| Ok (a : A)
| Raise (e : exn).

Arguments Ok {A} a.
Arguments Raise {A} e.

Definition bind {A B : Type} (m : result A) (f : A -> result B) : result B :=
  match m with
  | Ok a => f a
  | Raise e => Raise e
  end.

Notation "x <- m ;; k" := (bind m (fun x => k))
  (at level 61, m at next level, right associativity).

(** [try: m except IndexError: h] *)
Definition try_except_IndexError {A : Type} (m : result A) (h : result A)
  : result A :=
  match m with
  | Ok a => Ok a
  | Raise IndexError => h
  | Raise e => Raise e
  end.

(** [for x in xs: acc = body(acc, x)], stopping at the first exception. *)
Fixpoint for_each {A S : Type} (xs : list A) (body : S -> A -> result S)
  (acc : S) : result S :=
  match xs with
  | [] => Ok acc
  | x :: xs' => acc' <- body acc x ;; for_each xs' body acc'
  end.

(* ================================================================== *)
(** * Strings *)

Definition is_digit (c : ascii) : bool :=
  ((48 <=? Z.of_N (N_of_ascii c)) && (Z.of_N (N_of_ascii c) <=? 57))%Z.

Definition digit_val (c : ascii) : Z := Z.of_N (N_of_ascii c) - 48.

Definition digit_char (d : Z) : ascii := ascii_of_N (Z.to_N (48 + d)).

Fixpoint forallb_string (f : ascii -> bool) (s : string) : bool :=
  match s with
  | EmptyString => true
  | String c s' => f c && forallb_string f s'
  end.

(** [s.startswith(p)] *)
Fixpoint starts_with (p s : string) : bool :=
  match p, s with
  | EmptyString, _ => true
  | String a p', String b s' => Ascii.eqb a b && starts_with p' s'
  | String _ _, EmptyString => false
  end.

(** [s.find(sub)]: the lowest index where [sub] occurs, or [-1]. *)
Fixpoint str_find_from (i : Z) (sub s : string) : Z :=
  if starts_with sub s then i
  else match s with
       | EmptyString => -1
       | String _ s' => str_find_from (i + 1) sub s'
       end.

Definition str_find (s sub : string) : Z := str_find_from 0 sub s.

(** ["".join(xs)] *)
Definition str_join (xs : list string) : string := String.concat "" xs.

(** [c * n] for a one-character string. *)
Fixpoint str_repeat (c : ascii) (n : nat) : string :=
  match n with
  | O => ""
  | S n' => String c (str_repeat c n')
  end.

(** The decimal digits of a natural number, most significant first; [fuel]
    bounds the number of digits. *)
Fixpoint digits_of (fuel : nat) (n : Z) (acc : string) : string :=
  match fuel with
  | O => acc
  | S fuel' =>
      let acc' := String (digit_char (n mod 10)) acc in
      if n <? 10 then acc' else digits_of fuel' (n / 10) acc'
  end.

Definition str_of_nonneg (n : Z) : string :=
  digits_of (S (Z.to_nat (Z.log2 n))) n "".

(** [str(n)], also [f"{n}"], for an [int]. *)
Definition str_of_int (n : Z) : string :=
  if n <? 0 then String "-" (str_of_nonneg (- n)) else str_of_nonneg n.

(** The value of a string of decimal digits read left to right. *)
Fixpoint digits_value (acc : Z) (s : string) : Z :=
  match s with
  | EmptyString => acc
  | String c s' => digits_value (10 * acc + digit_val c) s'
  end.

(** [int(s)] on the strings the program passes to it: a non-empty run of
    decimal digits. Anything else is a [ValueError] here. *)
Definition int_of_str (s : string) : result Z :=
  match s with
  | EmptyString => Raise ValueError
  | _ => if forallb_string is_digit s then Ok (digits_value 0 s)
         else Raise ValueError
  end.

(** [n] rendered in decimal, left-padded with zeros to [width] characters. *)
Definition zero_pad (width : nat) (n : Z) : string :=
  let s := str_of_nonneg n in
  str_repeat "0" (width - String.length s) ++ s.

(* ================================================================== *)
(** * True division and the [repr] of a float *)

(** A finite IEEE 754 binary64 value [(-1)^neg * mant * 2^exp] with
    [0 <= mant < 2^53] and [-1074 <= exp]; it is normal when
    [2^52 <= mant], subnormal or zero when [exp = -1074]. *)
Record float64 : Type := mkFloat {
  f_neg : bool;
  f_mant : Z;
  f_exp : Z
}.

(** [n / (d * 2^e)] as a fraction of two integers. *)
Definition scaled_fraction (n d e : Z) : Z * Z :=
  if e <? 0 then (n * 2 ^ (- e), d) else (n, d * 2 ^ e).

(** Round to nearest integer, ties to even. *)
Definition round_half_even (num den : Z) : Z :=
  let q := num / den in
  let r := num mod den in
  if (den <? 2 * r) || ((2 * r =? den) && Z.odd q) then q + 1 else q.

(** The binary64 nearest to [n / d] for [0 < n] and [0 < d]: the exponent
    is chosen so that the quotient has 53 bits, clamped to the subnormal
    exponent, and the quotient is rounded once. *)
Definition round_to_float (neg : bool) (n d : Z) : result float64 :=
  let e1 := Z.log2 n - Z.log2 d - 52 in
  let '(n1, d1) := scaled_fraction n d e1 in
  let e2 := if n1 / d1 <? 2 ^ 52 then e1 - 1 else e1 in
  let e := Z.max e2 (-1074) in
  let '(num, den) := scaled_fraction n d e in
  let m := round_half_even num den in
  let '(m, e) := if m =? 2 ^ 53 then (2 ^ 52, e + 1) else (m, e) in
  if 1024 <=? e + 52 then Raise OverflowError
  else Ok (mkFloat neg m e).

(** [a / b] for two [int]s: correctly rounded, [ZeroDivisionError] when
    [b] is zero, [OverflowError] when the quotient is too large. *)
Definition int_truediv (a b : Z) : result float64 :=
  if b =? 0 then Raise ZeroDivisionError
  else
    let neg := xorb (a <? 0) (b <? 0) in
    if a =? 0 then Ok (mkFloat neg 0 (-1074))
    else round_to_float neg (Z.abs a) (Z.abs b).

(** Compare [k * 10^t] with [x * 2^g]. *)
Definition cmp_dec_bin (k t x g : Z) : comparison :=
  (k * 10 ^ Z.max t 0 * 2 ^ Z.max (- g) 0
   ?= x * 2 ^ Z.max g 0 * 10 ^ Z.max (- t) 0).

(** The decimal point position of [x * 2^g > 0]: the least [D] with
    [x * 2^g < 10^D], searched downwards from [D]. *)
Fixpoint decpt_search (fuel : nat) (D x g : Z) : Z :=
  match fuel with
  | O => D
  | S fuel' =>
      match cmp_dec_bin 1 (D - 1) x g with
      | Gt => decpt_search fuel' (D - 1) x g
      | _ => D
      end
  end.

(** The shortest decimal digit string that reads back as the float
    [m * 2^e] (with [0 < m]), the closest one when there are several, and
    its decimal point position: the value is [0.d1d2...dn * 10^decpt].
    All quantities are counted in units of [2^(e-2)]: the float is [4m],
    the upper rounding boundary [4m + 2], the lower one [4m - 2], or
    [4m - 1] when [m] is the least mantissa of its binade. The boundaries
    read back as the float when [m] is even. *)
Fixpoint shortest_digits (fuel : nat) (n : Z) (m e D : Z) : string * Z :=
  let g := e - 2 in
  let t := D - n in
  let lo := if (m =? 2 ^ 52) && (-1074 <? e) then 4 * m - 1 else 4 * m - 2 in
  let hi := 4 * m + 2 in
  let inside (k : Z) : bool :=
    match cmp_dec_bin k t lo g with
    | Gt => true
    | Eq => Z.even m
    | Lt => false
    end &&
    match cmp_dec_bin k t hi g with
    | Lt => true
    | Eq => Z.even m
    | Gt => false
    end in
  let k := (4 * m * 2 ^ Z.max g 0 * 10 ^ Z.max (- t) 0)
           / (2 ^ Z.max (- g) 0 * 10 ^ Z.max t 0) in
  let pick (c : Z) : string * Z :=
    if c =? 10 ^ n then ("1", D + 1) else (str_of_nonneg c, D) in
  match fuel with
  | O => pick k
  | S fuel' =>
      match inside k, inside (k + 1) with
      | true, false => pick k
      | false, true => pick (k + 1)
      | true, true =>
          match cmp_dec_bin (2 * k + 1) t (8 * m) g with
          | Gt => pick k
          | Lt => pick (k + 1)
          | Eq => if Z.even k then pick k else pick (k + 1)
          end
      | false, false => shortest_digits fuel' (n + 1) m e D
      end
  end.

(** [repr(x)], also [str(x)] and [f"{x}"], for a float: the shortest
    digits, in positional notation when [-4 < decpt <= 16] and in exponent
    notation otherwise. *)
Definition float_repr (x : float64) : string :=
  let sign := if f_neg x then "-" else "" in
  if f_mant x =? 0 then sign ++ "0.0"
  else
    let D := decpt_search 700 310 (4 * f_mant x) (f_exp x - 2) in
    let '(ds, decpt) := shortest_digits 17 1 (f_mant x) (f_exp x) D in
    let nd := Z.of_nat (String.length ds) in
    if (decpt <=? -4) || (16 <? decpt) then
      let ex := decpt - 1 in
      let frac := String.substring 1 (String.length ds - 1) ds in
      sign ++ String.substring 0 1 ds
           ++ (if 1 <? nd then "." ++ frac else "")
           ++ "e" ++ (if ex <? 0 then "-" else "+")
           ++ zero_pad 2 (Z.abs ex)
    else if decpt <=? 0 then
      sign ++ "0." ++ str_repeat "0" (Z.to_nat (- decpt)) ++ ds
    else if nd <=? decpt then
      sign ++ ds ++ str_repeat "0" (Z.to_nat (decpt - nd)) ++ ".0"
    else
      sign ++ String.substring 0 (Z.to_nat decpt) ds ++ "."
           ++ String.substring (Z.to_nat decpt)
                (String.length ds - Z.to_nat decpt) ds.

(* ================================================================== *)
(** * Regular expressions: the fragment [re_vid] is written in *)

Inductive charclass : Type :=
| CDigit                 (* \d *)
| CAny                   (* .  : any character but a line feed *)
| CLit (c : ascii).      (* a literal character, escaped or not *)

Definition newline : ascii := ascii_of_N 10.

Definition class_mem (cl : charclass) (c : ascii) : bool :=
  match cl with
  | CDigit => is_digit c
  | CAny => negb (Ascii.eqb c newline)
  | CLit c' => Ascii.eqb c c'
  end.

Inductive regex : Type :=
| Chr (cl : charclass)                 (* one character *)
| Rep (cl : charclass) (n : nat)       (* cl{n} *)
| Star (cl : charclass)                (* cl*, greedy *)
| Group (name : string) (r : regex)    (* (?P<name>r) *)
| Seq (r1 r2 : regex).                 (* r1 r2 *)

Infix ";;;" := Seq (at level 65, right associativity).

(** The text captured by each named group, in the order the groups closed. *)
Definition captures : Type := list (string * string).

(** The part of [s] in front of its suffix [rest]. *)
Definition consumed (s rest : string) : string :=
  String.substring 0 (String.length s - String.length rest) s.

Fixpoint rep_match {R : Type} (cl : charclass) (n : nat) (s : string)
  (k : string -> option R) : option R :=
  match n with
  | O => k s
  | S n' =>
      match s with
      | String c s' => if class_mem cl c then rep_match cl n' s' k else None
      | EmptyString => None
      end
  end.

(** Greedy repetition: take as many characters as the class allows, then
    give them back one at a time until the rest of the pattern matches. *)
Fixpoint star_match {R : Type} (cl : charclass) (s : string)
  (k : string -> option R) : option R :=
  match s with
  | String c s' =>
      if class_mem cl c then
        match star_match cl s' k with
        | Some res => Some res
        | None => k s
        end
      else k s
  | EmptyString => k s
  end.

(** Backtracking matcher in continuation-passing style: [k] is the rest of
    the pattern, applied to what is left of the subject. *)
Fixpoint rmatch {R : Type} (r : regex) (s : string) (caps : captures)
  (k : string -> captures -> option R) : option R :=
  match r with
  | Chr cl =>
      match s with
      | String c s' => if class_mem cl c then k s' caps else None
      | EmptyString => None
      end
  | Rep cl n => rep_match cl n s (fun s' => k s' caps)
  | Star cl => star_match cl s (fun s' => k s' caps)
  | Group name r' =>
      rmatch r' s caps (fun s' caps' => k s' (caps' ++ [(name, consumed s s')]))
  | Seq r1 r2 =>
      rmatch r1 s caps (fun s' caps' => rmatch r2 s' caps' k)
  end.

(** The names of the groups of a pattern, in the order they open. *)
Fixpoint group_names (r : regex) : list string :=
  match r with
  | Group name r' => name :: group_names r'
  | Seq r1 r2 => group_names r1 ++ group_names r2
  | _ => []
  end.

Fixpoint lookup_capture (name : string) (caps : captures) : string :=
  match caps with
  | [] => ""
  | (n, v) :: caps' =>
      if String.eqb n name then v else lookup_capture name caps'
  end.

(** [pattern.match(s)]: anchored at the start of [s], not at its end. *)
Definition re_match (r : regex) (s : string) : option captures :=
  rmatch r s [] (fun _ caps => Some caps).

(** [m.groups()] *)
Definition groups (r : regex) (m : captures) : list string :=
  map (fun name => lookup_capture name m) (group_names r).

(** The pattern [re_vid]: four digits (group year), a hyphen, two digits
    (month), a hyphen, two digits (day), an underscore, two digits (hour),
    a hyphen, two digits (min), a hyphen, two digits (sec), a hyphen, any
    run of characters without a line feed (group view, greedy), and the
    literal text .mp4 *)
Definition re_vid : regex :=
  Group "year" (Rep CDigit 4) ;;; Chr (CLit "-") ;;;
  Group "month" (Rep CDigit 2) ;;; Chr (CLit "-") ;;;
  Group "day" (Rep CDigit 2) ;;; Chr (CLit "_") ;;;
  Group "hour" (Rep CDigit 2) ;;; Chr (CLit "-") ;;;
  Group "min" (Rep CDigit 2) ;;; Chr (CLit "-") ;;;
  Group "sec" (Rep CDigit 2) ;;; Chr (CLit "-") ;;;
  Group "view" (Star CAny) ;;;
  Chr (CLit ".") ;;; Chr (CLit "m") ;;; Chr (CLit "p") ;;; Chr (CLit "4").

(* ================================================================== *)
(** * [datetime] *)

Record datetime : Type := mkDatetime {
  year : Z; month : Z; day : Z; hour : Z; minute : Z; second : Z
}.

Definition datetime_eqb (a b : datetime) : bool :=
  (year a =? year b) && (month a =? month b) && (day a =? day b) &&
  (hour a =? hour b) && (minute a =? minute b) && (second a =? second b).

Definition is_leap (y : Z) : bool :=
  (y mod 4 =? 0) && (negb (y mod 100 =? 0) || (y mod 400 =? 0)).

Definition days_in_month (y m : Z) : Z :=
  if m =? 2 then (if is_leap y then 29 else 28)
  else if (m =? 4) || (m =? 6) || (m =? 9) || (m =? 11) then 30
  else 31.

(** The range checks of the [datetime] constructor. *)
Definition valid_datetime (d : datetime) : bool :=
  (1 <=? year d) && (year d <=? 9999) &&
  (1 <=? month d) && (month d <=? 12) &&
  (1 <=? day d) && (day d <=? days_in_month (year d) (month d)) &&
  (0 <=? hour d) && (hour d <=? 23) &&
  (0 <=? minute d) && (minute d <=? 59) &&
  (0 <=? second d) && (second d <=? 59).

(** The [datetime] constructor applied to an unpacked list of six
    integers: a field out of range is a [ValueError], another number of
    arguments a [TypeError]. *)
Definition datetime_new (args : list Z) : result datetime :=
  match args with
  | [y; mo; d; h; mi; s] =>
      let dt := mkDatetime y mo d h mi s in
      if valid_datetime dt then Ok dt else Raise ValueError
  | _ => Raise TypeError
  end.

(** [dt.strftime('%Y-%m-%d-%H-%M-%S')]. The fields are printed by the C
    library. With glibc, the C library of Linux, [%Y] is the year in
    decimal without leading zeros: a year below 1000 has fewer than four
    digits ([999], not [0999]), a year from 1000 on has four. The other
    fields have two digits. *)
Definition strftime (dt : datetime) : string :=
  str_of_nonneg (year dt) ++ "-" ++ zero_pad 2 (month dt) ++ "-" ++
  zero_pad 2 (day dt) ++ "-" ++ zero_pad 2 (hour dt) ++ "-" ++
  zero_pad 2 (minute dt) ++ "-" ++ zero_pad 2 (second dt).

(* ================================================================== *)
(** * [pathlib]: pure POSIX paths *)

(** A path is its root (empty, one slash or two) and its components. *)
Record Path : Type := mkPath {
  p_root : string;
  p_names : list string
}.

Fixpoint split_on (sep : ascii) (s : string) : list string :=
  match s with
  | EmptyString => [""]
  | String c s' =>
      if Ascii.eqb c sep then "" :: split_on sep s'
      else match split_on sep s' with
           | w :: ws => String c w :: ws
           | [] => [String c ""]
           end
  end.

(** [Path(s)]: empty components and single dots are dropped; exactly two
    leading slashes are kept as the root, any other number is one slash. *)
Definition parse_path (s : string) : Path :=
  let root :=
    if starts_with "//" s && negb (starts_with "///" s) then "//"
    else if starts_with "/" s then "/"
    else "" in
  mkPath root
    (filter (fun w => negb (String.eqb w "") && negb (String.eqb w "."))
       (split_on "/" s)).

(** [a / b]: an absolute [b] replaces [a]. *)
Definition path_join (a b : Path) : Path :=
  if String.eqb (p_root b) "" then mkPath (p_root a) (p_names a ++ p_names b)
  else b.

(** [str(p)] *)
Definition path_str (p : Path) : string :=
  match p_root p, p_names p with
  | EmptyString, [] => "."
  | root, names => root ++ String.concat "/" names
  end.

(* ================================================================== *)
(** * [sorted] and [defaultdict(list)] *)

Fixpoint insert_sorted (x : string) (l : list string) : list string :=
  match l with
  | [] => [x]
  | y :: l' => if String.leb x y then x :: l else y :: insert_sorted x l'
  end.

(** [sorted(l)] on names: ascending code point order, stable. *)
Definition sorted (l : list string) : list string :=
  fold_right insert_sorted [] l.

(** A dictionary keeps its keys in insertion order. *)
Definition dict (V : Type) : Type := list (datetime * V).

(** [grps[k].append(v)] on a [defaultdict(list)]: a missing key is added
    at the end with the one-element list. *)
Fixpoint dd_append (k : datetime) (v : string) (grps : dict (list string))
  : dict (list string) :=
  match grps with
  | [] => [(k, [v])]
  | (k', l) :: grps' =>
      if datetime_eqb k' k then (k', l ++ [v]) :: grps'
      else (k', l) :: dd_append k v grps'
  end.

(* ================================================================== *)
(** * [SentryEvent] *)

(** The entries of [video_paths] are the file names [event_groups]
    collected, which are strings. *)
Record SentryEvent : Type := mkSentryEvent {
  sentry_dir : Path;
  date_dir : Path;
  sentry_event_id : datetime;
  video_paths : list string
}.

Definition event_dir (self : SentryEvent) : Path :=
  path_join (sentry_dir self) (date_dir self).

Definition get_view (self : SentryEvent) (view : string) : result string :=
  match filter (fun p => negb (str_find p view =? -1)) (video_paths self) with
  | p :: _ => Ok p
  | [] => Raise IndexError
  end.

Definition front (self : SentryEvent) : result Path :=
  p <- get_view self "front" ;; Ok (path_join (event_dir self) (parse_path p)).

Definition back (self : SentryEvent) : result Path :=
  p <- get_view self "back" ;; Ok (path_join (event_dir self) (parse_path p)).

Definition left (self : SentryEvent) : result Path :=
  p <- get_view self "left_repeater" ;;
  Ok (path_join (event_dir self) (parse_path p)).

Definition right (self : SentryEvent) : result Path :=
  p <- get_view self "right_repeater" ;;
  Ok (path_join (event_dir self) (parse_path p)).

(** The property [views] of [SentryEvent]: the four paths, looked up in
    this order, with no fallback. *)
Definition SentryEvent_views (self : SentryEvent) : result (list Path) :=
  f <- front self ;;
  b <- back self ;;
  l <- left self ;;
  r <- right self ;;
  Ok [f; b; l; r].

Definition output_name (self : SentryEvent) (scale speed quality : Z)
  : string :=
  strftime (sentry_event_id self)
  ++ "_st" ++ str_of_int scale ++ "_sp" ++ str_of_int speed
  ++ "_q" ++ str_of_int quality
  ++ ".mp4".

Definition output_path (self : SentryEvent) (scale speed quality : Z) : Path :=
  path_join (event_dir self)
    (parse_path (output_name self scale speed quality)).

(* ================================================================== *)
(** * [event_groups] *)

(** The integers of all groups of a match but the last. *)
Fixpoint ints_of (cs : list string) : result (list Z) :=
  match cs with
  | [] => Ok []
  | c :: cs' => n <- int_of_str c ;; ns <- ints_of cs' ;; Ok (n :: ns)
  end.

(** The body of the loop of [event_groups] for one entry name. *)
Definition event_groups_step (grps : dict (list string)) (vid : string)
  : result (dict (list string)) :=
  match re_match re_vid vid with
  | Some m =>
      args <- ints_of (removelast (groups re_vid m)) ;;
      grp_id <- datetime_new args ;;
      Ok (dd_append grp_id vid grps)
  | None => Ok grps
  end.

(** [event_groups] on the names of the entries of [events_dir], in the
    order the operating system lists them. Sorting the entries, which are
    paths with one parent, sorts them by name. *)
Definition event_groups (listing : list string) : result (dict (list string)) :=
  for_each (sorted listing) event_groups_step [].

(* ================================================================== *)
(** * [compose_stack_cmd] *)

Definition views : list string := ["front"; "back"; "left"; "right"].

(** [enumerate(l)] *)
Fixpoint enumerate_from {A : Type} (i : Z) (l : list A) : list (Z * A) :=
  match l with
  | [] => []
  | x :: l' => (i, x) :: enumerate_from (i + 1) l'
  end.

Definition input_arg (event : SentryEvent) (name : string) : string :=
  path_str (path_join (event_dir event) (parse_path name)).

Definition compose_stack_cmd (event : SentryEvent) (scale speed quality : Z)
  (global_opts : option (list string)) : result (list string) :=
  let cmd := ["ffmpeg"] in
  let cmd := match global_opts with
             | Some (o :: opts) => cmd ++ o :: opts
             | _ => cmd
             end in
  cmd <- for_each views (fun cmd v =>
           try_except_IndexError
             (p <- get_view event v ;; Ok (cmd ++ ["-i"; input_arg event p]))
             (p <- get_view event "front" ;;
              Ok (cmd ++ ["-i"; input_arg event p]))) cmd ;;
  let cmd := cmd ++ ["-an"; "-filter_complex"] in
  let filter := [] in
  let filter :=
    fold_left (fun filter iv =>
                 filter ++ [("[" ++ str_of_int (fst iv) ++ ":v]")%string;
                            ("scale=iw/" ++ str_of_int scale
                               ++ ":ih/" ++ str_of_int scale)%string;
                            ("[" ++ snd iv ++ "];")%string])
      (enumerate_from 0 views) filter in
  let filter := filter ++ ["[front][back]"; "hstack"; "[long];"] in
  let filter := filter ++ ["[right][left]"; "hstack"; "[lat];"] in
  let filter := filter ++ ["[long][lat]"; "vstack"; "[all];"] in
  ratio <- int_truediv 1 speed ;;
  let filter := filter ++ ["[all]";
                           ("setpts=" ++ float_repr ratio ++ "*PTS")%string;
                           "[res]"] in
  let filter_string := str_join filter in
  let cmd := cmd ++ [filter_string] in
  let cmd := cmd ++ ["-c:v"; "libx264"; "-crf"; str_of_int quality] in
  let output_path := output_path event scale speed quality in
  Ok (cmd ++ ["-map"; "[res]"; path_str output_path]).

(* ================================================================== *)
(** * [main] *)

(** The parsed command line ([opt] in [main]). *)
Record Namespace : Type := mkNamespace {
  opt_sentry_dir : Path;
  opt_speed : Z;
  opt_scale : Z;
  opt_quality : Z;
  opt_overwrite : bool;
  opt_dry_run : bool;
  opt_list_dir : bool
}.

(** What a run writes to its console and log, in order. *)
Inductive output : Type :=
| LogOptions (opt : Namespace) (global_opts : list string)
| LogFound (n : nat)
| LogSkip (op : Path)
| PrintDirs (dirs : list Path)
| PrintEvent (event : SentryEvent)
| PrintPath (p : Path)
| PrintLine (line : string).

Section Main.

(** The file system and the external program are the environment of a
    run: [listdir] gives the entry names of a directory in the order of
    the operating system, [sp_run] is [subprocess.run(cmd)], which
    returns whatever the exit status of the program is and raises
    [OSError] when the program cannot be started. *)
Variable fs : Type.
Variable listdir : fs -> Path -> list string.
Variable is_dir : fs -> Path -> bool.
Variable path_exists : fs -> Path -> bool.
Variable sp_run : list string -> fs -> result fs.

Record run_state : Type := mkRunState {
  files : fs;
  trace : list output
}.

(** A statement of [main]: it changes the state and returns or raises;
    the state reached when an exception is raised is kept. *)
Definition M (A : Type) : Type := run_state -> run_state * result A.

Definition ret {A : Type} (a : A) : M A := fun st => (st, Ok a).

Definition mbind {A B : Type} (m : M A) (f : A -> M B) : M B :=
  fun st =>
    match m st with
    | (st', Ok a) => f a st'
    | (st', Raise e) => (st', Raise e)
    end.

Notation "x <~ m ;; k" := (mbind m (fun x => k))
  (at level 61, m at next level, right associativity).

Definition lift {A : Type} (r : result A) : M A := fun st => (st, r).

Definition emit (o : output) : M unit :=
  fun st => (mkRunState (files st) (trace st ++ [o]), Ok tt).

Definition exists_ (p : Path) : M bool :=
  fun st => (st, Ok (path_exists (files st) p)).

Definition run (cmd : list string) : M unit :=
  fun st =>
    match sp_run cmd (files st) with
    | Ok w => (mkRunState w (trace st), Ok tt)
    | Raise e => (st, Raise e)
    end.

(** [events_dir_iter] *)
Definition events_dir_iter (w : fs) (sentry_dir : Path) : list Path :=
  filter (is_dir w)
    (map (fun name => path_join sentry_dir (parse_path name))
       (listdir w sentry_dir)).

(** The list comprehension that builds [events]. *)
Fixpoint build_events (w : fs) (sentry_dir : Path) (dirs : list Path)
  : result (list SentryEvent) :=
  match dirs with
  | [] => Ok []
  | sentry_date :: dirs' =>
      grps <- event_groups (listdir w sentry_date) ;;
      rest <- build_events w sentry_dir dirs' ;;
      Ok (map (fun item => mkSentryEvent sentry_dir sentry_date
                             (fst item) (snd item)) grps
          ++ rest)
  end.

(** The body of [for event in events]; [true] stands for [continue]
    having ended the iteration early. *)
Definition loop_body (opt : Namespace) (global_opts : list string)
  (event : SentryEvent) : M unit :=
  skip <~ (if negb (opt_overwrite opt) then
             let op := output_path event (opt_scale opt) (opt_speed opt)
                         (opt_quality opt) in
             found <~ exists_ op ;;
             if found then _ <~ emit (LogSkip op) ;; ret true
             else ret false
           else ret false) ;;
  if skip then ret tt
  else
    _ <~ emit (PrintEvent event) ;;
    f <~ lift (front event) ;;
    _ <~ emit (PrintPath f) ;;
    cmd <~ lift (compose_stack_cmd event (opt_scale opt) (opt_speed opt)
                   (opt_quality opt) (Some global_opts)) ;;
    _ <~ emit (PrintLine (String.concat " " cmd)) ;;
    if negb (opt_dry_run opt) then run cmd else ret tt.

(** The output of [event] is not there, or is to be overwritten: the
    event is not skipped. *)
Definition not_skipped (opt : Namespace) (event : SentryEvent) (w : fs)
  : Prop :=
  opt_overwrite opt = true \/
  path_exists w (output_path event (opt_scale opt) (opt_speed opt)
                   (opt_quality opt)) = false.

Fixpoint main_loop (opt : Namespace) (global_opts : list string)
  (events : list SentryEvent) : M unit :=
  match events with
  | [] => ret tt
  | event :: events' =>
      _ <~ loop_body opt global_opts event ;;
      main_loop opt global_opts events'
  end.

Definition main (opt : Namespace) (global_opts : list string) : M unit :=
  _ <~ emit (LogOptions opt global_opts) ;;
  let global_opts :=
    if opt_overwrite opt then global_opts ++ ["-y"] else global_opts in
  _ <~ (if opt_list_dir opt then
          fun st => emit (PrintDirs (events_dir_iter (files st)
                                       (opt_sentry_dir opt))) st
        else ret tt) ;;
  events <~ (fun st =>
               lift (build_events (files st) (opt_sentry_dir opt)
                       (events_dir_iter (files st) (opt_sentry_dir opt)))
                 st) ;;
  _ <~ emit (LogFound (List.length events)) ;;
  main_loop opt global_opts events.

End Main.

Arguments mkRunState {fs} files trace.
Arguments files {fs} r.
Arguments trace {fs} r.

(* ================================================================== *)
(** * The specification's notions *)

(** [sub] occurs in [s]. *)
Definition has_substring (sub s : string) : Prop :=
  exists a b, s = (a ++ sub ++ b)%string.

(** [w] is a run of exactly [n] decimal digits. *)
Definition digit_string (n : nat) (w : string) : Prop :=
  String.length w = n /\ forallb_string is_digit w = true.

(** [s] is made of ASCII characters, code points below 128. *)
Definition ascii_text (s : string) : Prop :=
  forallb_string (fun c => (N_of_ascii c <? 128)%N) s = true.

Definition no_line_feed (v : string) : Prop :=
  forallb_string (fun c => negb (Ascii.eqb c newline)) v = true.

(** [name] is a timestamp [YYYY-MM-DD_HH-MM-SS], a hyphen and [tail];
    [fields] are the numbers the six digit runs denote. *)
Definition timestamp_prefixed (name tail : string) (fields : list Z) : Prop :=
  exists Y Mo D h mi s,
    digit_string 4 Y /\ digit_string 2 Mo /\ digit_string 2 D /\
    digit_string 2 h /\ digit_string 2 mi /\ digit_string 2 s /\
    name = (Y ++ "-" ++ Mo ++ "-" ++ D ++ "_" ++ h ++ "-" ++ mi ++ "-" ++ s
              ++ "-" ++ tail)%string /\
    fields = [digits_value 0 Y; digits_value 0 Mo; digits_value 0 D;
              digits_value 0 h; digits_value 0 mi; digits_value 0 s].

(** The whole of [name] is the pattern [YYYY-MM-DD_HH-MM-SS-<view>.<ext>],
    with a free-form view. *)
Definition fixed_pattern (ext name : string) : Prop :=
  exists fields view,
    timestamp_prefixed name (view ++ "." ++ ext)%string fields.

(** [name] starts with the pattern [YYYY-MM-DD_HH-MM-SS-<view>.mp4], the
    view being free of line feeds; whatever follows is [rest]. *)
Definition pattern_prefix (name : string) (fields : list Z) : Prop :=
  exists view rest,
    no_line_feed view /\
    timestamp_prefixed name (view ++ ".mp4" ++ rest)%string fields.

(** What a pattern matches, without the search order of the matcher:
    [matches r w cs] when [r] matches exactly the text [w], its groups
    capturing [cs]. *)
Inductive matches : regex -> string -> captures -> Prop :=
| M_Chr cl c :
    class_mem cl c = true -> matches (Chr cl) (String c "") []
| M_Rep cl n w :
    String.length w = n -> forallb_string (class_mem cl) w = true ->
    matches (Rep cl n) w []
| M_Star cl w :
    forallb_string (class_mem cl) w = true -> matches (Star cl) w []
| M_Group name r w cs :
    matches r w cs -> matches (Group name r) w (cs ++ [(name, w)])
| M_Seq r1 r2 w1 w2 cs1 cs2 :
    matches r1 w1 cs1 -> matches r2 w2 cs2 ->
    matches (Seq r1 r2) (w1 ++ w2)%string (cs1 ++ cs2).

(** One scaling step of the filter graph, as the specification words it. *)
Definition spec_scale_fragment (i scale : Z) (view : string) : string :=
  "[" ++ str_of_int i ++ ":v]scale=iw/" ++ str_of_int scale
      ++ ":ih/" ++ str_of_int scale ++ "[" ++ view ++ "];".

(** The filter graph of the specification: four scaling steps, the top row
    front next to back, the bottom row right next to left, the rows
    stacked, and the timestamps rescaled by [ratio]. *)
Definition spec_filter_graph (scale : Z) (ratio : string) : string :=
  spec_scale_fragment 0 scale "front" ++ spec_scale_fragment 1 scale "back"
  ++ spec_scale_fragment 2 scale "left" ++ spec_scale_fragment 3 scale "right"
  ++ "[front][back]hstack[long];"
  ++ "[right][left]hstack[lat];"
  ++ "[long][lat]vstack[all];"
  ++ "[all]setpts=" ++ ratio ++ "*PTS[res]".

(** The token layout of a command: the program, the pass-through options,
    four input pairs, the audio switch, the filter graph, the codec and
    quality, and the output. *)
Definition command_layout (opts : list string) (i1 i2 i3 i4 graph : string)
  (quality : Z) (out : string) : list string :=
  ["ffmpeg"] ++ opts
  ++ ["-i"; i1; "-i"; i2; "-i"; i3; "-i"; i4]
  ++ ["-an"; "-filter_complex"; graph]
  ++ ["-c:v"; "libx264"; "-crf"; str_of_int quality]
  ++ ["-map"; "[res]"; out].

(** The options a call passes through: none for [None]. *)
Definition passed_options (global_opts : option (list string)) : list string :=
  match global_opts with
  | Some opts => opts
  | None => []
  end.

(** The file [get_view] picks for [view], or [dflt] when there is none. *)
Definition view_or (event : SentryEvent) (view dflt : string) : string :=
  match get_view event view with
  | Ok p => p
  | Raise _ => dflt
  end.

(** The key [event_groups] files a name under: none when the name does not
    match [re_vid]. *)
Definition group_key (vid : string) : option (result datetime) :=
  match re_match re_vid vid with
  | Some m => Some (args <- ints_of (removelast (groups re_vid m)) ;;
                    datetime_new args)
  | None => None
  end.

(* ================================================================== *)
(** * Notions the proofs use *)

Definition re_vid_captures (Y Mo D h mi s V : string) : captures :=
  [("year", Y); ("month", Mo); ("day", D); ("hour", h); ("min", mi);
   ("sec", s); ("view", V)].

(** [s] ends with [suf]. *)
Definition is_suffix (suf s : string) : Prop :=
  exists x, s = (x ++ suf)%string.

(** The characters of a rendered integer: digits and the minus sign. *)
Definition int_char (c : ascii) : bool := is_digit c || Ascii.eqb c "-".

Definition no_char (c : ascii) (s : string) : Prop :=
  forallb_string (fun x => negb (Ascii.eqb x c)) s = true.

(** [t] is the timestamp [dt] written [YYYY-MM-DD-HH-MM-SS], the year in
    four digits. *)
Definition timestamp_text (dt : datetime) (t : string) : Prop :=
  exists Y Mo D h mi s,
    digit_string 4 Y /\ digit_string 2 Mo /\ digit_string 2 D /\
    digit_string 2 h /\ digit_string 2 mi /\ digit_string 2 s /\
    digits_value 0 Y = year dt /\ digits_value 0 Mo = month dt /\
    digits_value 0 D = day dt /\ digits_value 0 h = hour dt /\
    digits_value 0 mi = minute dt /\ digits_value 0 s = second dt /\
    t = (Y ++ "-" ++ Mo ++ "-" ++ D ++ "-" ++ h ++ "-" ++ mi ++ "-"
           ++ s)%string.

(** [w] is a positive number in decimal, without leading zeros. *)
Definition positive_numeral (w : string) : Prop :=
  forallb_string is_digit w = true /\ starts_with "0" w = false /\ w <> "".

(** [t] is the timestamp [dt] with the year as a positive numeral, of as
    many digits as it needs, and the other fields in two digits. *)
Definition timestamp_printed (dt : datetime) (t : string) : Prop :=
  exists Y Mo D h mi s,
    positive_numeral Y /\ digit_string 2 Mo /\ digit_string 2 D /\
    digit_string 2 h /\ digit_string 2 mi /\ digit_string 2 s /\
    digits_value 0 Y = year dt /\ digits_value 0 Mo = month dt /\
    digits_value 0 D = day dt /\ digits_value 0 h = hour dt /\
    digits_value 0 mi = minute dt /\ digits_value 0 s = second dt /\
    t = (Y ++ "-" ++ Mo ++ "-" ++ D ++ "-" ++ h ++ "-" ++ mi ++ "-"
           ++ s)%string.

(** The name of a directory entry: no slash, not empty, not a dot. *)
Definition plain_name (s : string) : Prop :=
  no_char "/" s /\ s <> "" /\ s <> ".".

(** The text of the entry [name] of the directory [dir]: the root of
    [dir], its components with a slash after each, and the name. *)
Definition entry_text (dir : Path) (name : string) : string :=
  p_root dir
  ++ fold_right (fun n acc => (n ++ "/" ++ acc)%string) name (p_names dir).

(** The timestamp a name is filed under, when it has a valid one. *)
Definition key_of (vid : string) : option datetime :=
  match group_key vid with
  | Some (Ok k) => Some k
  | _ => None
  end.

Definition has_key (k : datetime) (vid : string) : bool :=
  match key_of vid with
  | Some k' => datetime_eqb k' k
  | None => false
  end.

(** The names filed under [k], none when [k] is not a key. *)
Fixpoint dd_get (k : datetime) (grps : dict (list string)) : list string :=
  match grps with
  | [] => []
  | (k', l) :: grps' => if datetime_eqb k' k then l else dd_get k grps'
  end.

(** The pure step of the grouping loop. *)
Definition file_under (grps : dict (list string)) (vid : string)
  : dict (list string) :=
  match key_of vid with
  | Some k => dd_append k vid grps
  | None => grps
  end.

(** No name of [l] matches the pattern with digits that are no date. *)
Definition dates_valid (l : list string) : Prop :=
  forall vid x, In vid l -> group_key vid <> Some (Raise x).

(** What the grouping loop keeps true: keys are distinct, a key is present
    exactly when a name seen so far carries it, and its group lists those
    names in the order seen. *)
Definition groups_of (seen : list string) (grps : dict (list string)) : Prop :=
  NoDup (map fst grps)
  /\ (forall k, In k (map fst grps) <->
                exists v, In v seen /\ key_of v = Some k)
  /\ (forall k, dd_get k grps = filter (has_key k) seen).

Definition name_le (a b : string) : Prop := String.leb a b = true.

(* ================================================================== *)
(** * A session directory with one event *)

Definition front_mp4 : string := "2024-01-02_03-04-05-front.mp4".
Definition back_mp4 : string := "2024-01-02_03-04-05-back.mp4".
Definition left_mp4 : string := "2024-01-02_03-04-05-left_repeater.mp4".
Definition right_mp4 : string := "2024-01-02_03-04-05-right_repeater.mp4".

Definition example_id : datetime := mkDatetime 2024 1 2 3 4 5.

(** The event of the sub-directory [2024-01-02_03-04-05] under the root
    [./events] holding the files [vids], with the fields as the dataclass
    describes them: the top level path and the date directory in it. *)
Definition example_event (vids : list string) : SentryEvent :=
  mkSentryEvent (parse_path "./events") (parse_path "2024-01-02_03-04-05")
    example_id vids.

Definition four_view_event : SentryEvent :=
  example_event [back_mp4; front_mp4; left_mp4; right_mp4].

Definition no_back_event : SentryEvent :=
  example_event [front_mp4; left_mp4; right_mp4].

Definition no_front_event : SentryEvent :=
  example_event [back_mp4; left_mp4; right_mp4].

Definition no_left_event : SentryEvent :=
  example_event [back_mp4; front_mp4; right_mp4].

Definition example_dir : string := "events/2024-01-02_03-04-05/".

(** The command of the four-view event at scale 4, speed 2, quality 20
    with the option [-y] passed through. *)
Definition four_view_cmd : list string :=
  [ "ffmpeg"; "-y";
    "-i"; (example_dir ++ front_mp4)%string;
    "-i"; (example_dir ++ back_mp4)%string;
    "-i"; (example_dir ++ left_mp4)%string;
    "-i"; (example_dir ++ right_mp4)%string;
    "-an"; "-filter_complex"; spec_filter_graph 4 "0.5";
    "-c:v"; "libx264"; "-crf"; "20"; "-map"; "[res]";
    (example_dir ++ "2024-01-02-03-04-05_st4_sp2_q20.mp4")%string ].

(** A file system in which the root [events] holds the one session
    directory and the session directory the four files, listed in no
    particular order. *)
Definition example_listdir (w : unit) (p : Path) : list string :=
  if String.eqb (path_str p) "events" then ["2024-01-02_03-04-05"]
  else if String.eqb (path_str p) "events/2024-01-02_03-04-05"
       then [right_mp4; front_mp4; left_mp4; back_mp4]
       else [].

Definition all_dirs (w : unit) (p : Path) : bool := true.

(** A run that overwrites and only prints, on a machine with no files. *)
Definition example_opt : Namespace :=
  mkNamespace (parse_path "./events") 2 4 20 true true false.

Definition no_files (w : unit) (p : Path) : bool := false.

Definition run_nothing (cmd : list string) (w : unit) : result unit := Ok w.

Definition start_state : run_state unit := mkRunState tt [].

(* ================================================================== *)
(** * Notions of the further properties *)

(** Some file name of the event contains [label]. *)
Definition label_present (label : string) (e : SentryEvent) : Prop :=
  exists name, In name (video_paths e) /\ has_substring label name.

Definition datetime_fields (d : datetime) : list Z :=
  [year d; month d; day d; hour d; minute d; second d].

(** Lexicographic order on lists of integers of one length. *)
Fixpoint lex_lt (a b : list Z) : Prop :=
  match a, b with
  | x :: a', y :: b' => x < y \/ (x = y /\ lex_lt a' b')
  | _, _ => False
  end.

(** [d1] is an earlier instant than [d2]. *)
Definition earlier (d1 d2 : datetime) : Prop :=
  lex_lt (datetime_fields d1) (datetime_fields d2).

(** [name] starts with the timestamp [Y-Mo-D_h-mi-s] of six digit runs. *)
Definition name_timestamp (name Y Mo D h mi s : string) : Prop :=
  digit_string 4 Y /\ digit_string 2 Mo /\ digit_string 2 D /\
  digit_string 2 h /\ digit_string 2 mi /\ digit_string 2 s /\
  exists tail,
    name = (Y ++ "-" ++ Mo ++ "-" ++ D ++ "_" ++ h ++ "-" ++ mi ++ "-" ++ s
              ++ "-" ++ tail)%string.

(** The listing of a directory that holds the four files of the example
    and the output of an earlier run. *)
Definition listing_with_output : list string :=
  [right_mp4; "2024-01-02-03-04-05_st4_sp2_q20.mp4"; front_mp4; left_mp4;
   back_mp4].

(** An event of a later second in the same directory. *)
Definition later_event : SentryEvent :=
  mkSentryEvent (parse_path "./events") (parse_path "2024-01-02_03-04-05")
    (mkDatetime 2024 1 2 3 4 6) ["2024-01-02_03-04-06-front.mp4"].

(** A machine on which every output is already there. *)
Definition all_files (w : unit) (p : Path) : bool := true.

(** A run that neither overwrites nor executes. *)
Definition keep_opt : Namespace :=
  mkNamespace (parse_path "./events") 2 4 20 false true false.

(** A run that overwrites and executes. *)
Definition exec_opt : Namespace :=
  mkNamespace (parse_path "./events") 2 4 20 true false false.

(** A file system whose session directory holds a name with month 13. *)
Definition broken_listdir (w : unit) (p : Path) : list string :=
  if String.eqb (path_str p) "events" then ["2024-01-02_03-04-05"]
  else [front_mp4; "2024-13-01_00-00-00-front.mp4"].

(** The event [main] builds on the example file system. *)
Definition main_example_event : SentryEvent :=
  mkSentryEvent (parse_path "./events")
    (parse_path "events/2024-01-02_03-04-05") example_id
    [back_mp4; front_mp4; left_mp4; right_mp4].

(** A machine on which the external program cannot be started. *)
Definition run_fails (cmd : list string) (w : unit) : result unit :=
  Raise OSError.

(** At most one file name of [vids] contains [label]. *)
Definition unique_label (label : string) (vids : list string) : Prop :=
  forall p q, In p vids -> In q vids ->
              has_substring label p -> has_substring label q -> p = q.

(** The four files of the example in another order. *)
Definition shuffled_event : SentryEvent :=
  example_event [right_mp4; front_mp4; left_mp4; back_mp4].

(** The timestamps of two names are equal or in chronological order. *)
Definition key_le (v1 v2 : string) : Prop :=
  forall k1 k2, key_of v1 = Some k1 -> key_of v2 = Some k2 ->
                k1 = k2 \/ earlier k1 k2.

(** The event [main] builds for the session directory
    [2024-01-02_03-04-05] of the absolute root [/data/events] when the
    directory holds the files [vids]: [iterdir] yields the session
    directory with the root in front. *)
Definition session_event (vids : list string) : SentryEvent :=
  mkSentryEvent (parse_path "/data/events")
    (parse_path "/data/events/2024-01-02_03-04-05") example_id vids.

Definition session_dir : string := "/data/events/2024-01-02_03-04-05/".

(** The text [main] gets for the session directory of the relative root
    [./events]: the root is named twice. *)
Definition doubled_dir : string := "events/events/2024-01-02_03-04-05/".

(** A front file whose name goes on after the label. *)
Definition front_left_mp4 : string := "2024-01-02_03-04-05-front_left.mp4".

(** Four files, one for each view, in sorted order. *)
Definition front_left_event : SentryEvent :=
  session_event [back_mp4; front_left_mp4; left_mp4; right_mp4].

Definition left_pillar_mp4 : string := "2024-01-02_03-04-05-left_pillar.mp4".
Definition right_pillar_mp4 : string := "2024-01-02_03-04-05-right_pillar.mp4".

(** The files of six cameras with one timestamp, in sorted order. *)
Definition six_camera_event : SentryEvent :=
  session_event [back_mp4; front_mp4; left_pillar_mp4; left_mp4;
                 right_pillar_mp4; right_mp4].

(** An event of the year 999. *)
Definition year_999_event : SentryEvent :=
  mkSentryEvent (parse_path "/data/events")
    (parse_path "/data/events/0999-01-02_03-04-05")
    (mkDatetime 999 1 2 3 4 5) ["0999-01-02_03-04-05-front.mp4"].

(* ================================================================== *)
(** * Tactics *)

Ltac invert_matches :=
  repeat match goal with
    | H : matches (Seq _ _) _ _ |- _ => inversion H; subst; clear H
    | H : matches (Group _ _) _ _ |- _ => inversion H; subst; clear H
    | H : matches (Rep _ _) _ _ |- _ => inversion H; subst; clear H
    | H : matches (Star _) _ _ |- _ => inversion H; subst; clear H
    | H : matches (Chr _) _ _ |- _ => inversion H; subst; clear H
    | H : class_mem (CLit _) _ = true |- _ =>
        simpl in H; apply Ascii.eqb_eq in H; subst
    end.

(* ================================================================== *)
(** * The builtins on known values *)

(** Reciprocals as the interpreter prints them. *)
Example float_repr_reciprocals :
  map (fun speed => r <- int_truediv 1 speed ;; Ok (float_repr r))
    [1; 2; 3; 4; 7; 10; 10000; 100000; 3000000; -2; 2 ^ 24]
  = map Ok ["1.0"; "0.5"; "0.3333333333333333"; "0.25";
            "0.14285714285714285"; "0.1"; "0.0001"; "1e-05";
            "3.3333333333333335e-07"; "-0.5"; "5.960464477539063e-08"].
Proof. vm_compute. reflexivity. Qed.

Example float_repr_zero_speed : int_truediv 1 0 = Raise ZeroDivisionError.
Proof. reflexivity. Qed.

(** A path drops a leading dot segment and empty segments; an absolute
    right operand replaces the left one. *)
Example path_str_samples :
  map (fun s => path_str (parse_path s))
    ["./events"; "./"; "a//b/./c/"; "//a"; "///a"; "/"; ""]
  = ["events"; "."; "a/b/c"; "//a"; "/a"; "/"; "."]
  /\ path_str (path_join (parse_path "events") (parse_path "x/y.mp4"))
     = "events/x/y.mp4"
  /\ path_str (path_join (parse_path "/a") (parse_path "/a/b")) = "/a/b".
Proof. vm_compute. auto. Qed.

(** [re_vid] on the names of one directory. *)
Example re_vid_samples :
  map (fun s => option_map (groups re_vid) (re_match re_vid s))
    ["2024-01-02_03-04-05-front.mp4";
     "2024-01-02_03-04-05-a.mp4b.mp4c";
     "2024-13-02_03-04-05-front.mp4";
     "x2024-01-02_03-04-05-front.mp4";
     "2024-1-02_03-04-05-front.mp4";
     "2024-01-02_03-04-05-front.avi"]
  = [Some ["2024"; "01"; "02"; "03"; "04"; "05"; "front"];
     Some ["2024"; "01"; "02"; "03"; "04"; "05"; "a.mp4b"];
     Some ["2024"; "13"; "02"; "03"; "04"; "05"; "front"];
     None; None; None].
Proof. vm_compute. reflexivity. Qed.

Example sorted_sample :
  sorted ["b"; "a"; "B"; "a.b"; "a-b"; "a_b"]
  = ["B"; "a"; "a-b"; "a.b"; "a_b"; "b"].
Proof. vm_compute. reflexivity. Qed.

(* ================================================================== *)
(** * Strings: basic facts *)

Lemma append_nil_r (s : string) : (s ++ "")%string = s.
Proof. induction s as [|c s IH]; simpl; [reflexivity | now rewrite IH]. Qed.

Lemma append_assoc (a b c : string) :
  ((a ++ b) ++ c)%string = (a ++ b ++ c)%string.
Proof. induction a as [|x a IH]; simpl; [reflexivity | now rewrite IH]. Qed.

Lemma length_append (a b : string) :
  String.length (a ++ b)%string = (String.length a + String.length b)%nat.
Proof. induction a as [|x a IH]; simpl; [reflexivity | now rewrite IH]. Qed.

Lemma append_inj_l (a x y : string) :
  (a ++ x)%string = (a ++ y)%string -> x = y.
Proof.
  induction a as [|c a IH]; simpl; intros H; [exact H|].
  injection H as H. now apply IH.
Qed.

Lemma forallb_string_append (f : ascii -> bool) (a b : string) :
  forallb_string f (a ++ b)%string
  = forallb_string f a && forallb_string f b.
Proof.
  induction a as [|c a IH]; simpl; [reflexivity|].
  now rewrite IH, andb_assoc.
Qed.

Lemma substring_zero_length (s : string) : String.substring 0 0 s = "".
Proof. destruct s; reflexivity. Qed.

Lemma substring_append_l (w s : string) :
  String.substring 0 (String.length w) (w ++ s)%string = w.
Proof.
  induction w as [|c w IH]; simpl.
  - apply substring_zero_length.
  - now rewrite IH.
Qed.

Lemma substring_append_r (a b : string) :
  String.substring (String.length a) (String.length b) (a ++ b)%string = b.
Proof.
  induction a as [|c a IH]; simpl; [|exact IH].
  induction b as [|c b IHb]; simpl; [reflexivity | now rewrite IHb].
Qed.

Lemma consumed_append (w s : string) : consumed (w ++ s)%string s = w.
Proof.
  unfold consumed. rewrite length_append.
  replace (String.length w + String.length s - String.length s)%nat
    with (String.length w) by lia.
  apply substring_append_l.
Qed.

(* ================================================================== *)
(** * The matcher finds exactly what the pattern matches *)

Section Matcher.

Context {R : Type}.

Lemma rep_match_sound (cl : charclass) (n : nat) :
  forall (s : string) (k : string -> option R) (res : R),
    rep_match cl n s k = Some res ->
    exists w s', s = (w ++ s')%string /\ String.length w = n /\
                 forallb_string (class_mem cl) w = true /\ k s' = Some res.
Proof.
  induction n as [|n IH]; simpl; intros s k res H.
  - exists "", s. auto.
  - destruct s as [|c s]; [discriminate|].
    destruct (class_mem cl c) eqn:Hc; [|discriminate].
    destruct (IH _ _ _ H) as (w & s' & -> & Hlen & Hall & Hk).
    exists (String c w), s'. simpl. rewrite Hc, Hlen. auto.
Qed.

Lemma rep_match_complete (cl : charclass) (w : string) :
  forall (s' : string) (k : string -> option R),
    forallb_string (class_mem cl) w = true ->
    rep_match cl (String.length w) (w ++ s') k = k s'.
Proof.
  induction w as [|c w IH]; simpl; intros s' k H; [reflexivity|].
  apply andb_prop in H as [Hc Hw]. rewrite Hc. now apply IH.
Qed.

Lemma star_match_sound (cl : charclass) :
  forall (s : string) (k : string -> option R) (res : R),
    star_match cl s k = Some res ->
    exists w s', s = (w ++ s')%string /\
                 forallb_string (class_mem cl) w = true /\ k s' = Some res.
Proof.
  induction s as [|c s IH]; simpl; intros k res H.
  - exists "", "". auto.
  - destruct (class_mem cl c) eqn:Hc.
    + destruct (star_match cl s k) as [res'|] eqn:Hs.
      * injection H as ->.
        destruct (IH _ _ Hs) as (w & s' & -> & Hall & Hk).
        exists (String c w), s'. simpl. rewrite Hc. auto.
      * exists "", (String c s). auto.
    + exists "", (String c s). auto.
Qed.

Lemma star_match_complete (cl : charclass) (w : string) :
  forall (s' : string) (k : string -> option R),
    forallb_string (class_mem cl) w = true ->
    k s' <> None ->
    star_match cl (w ++ s') k <> None.
Proof.
  induction w as [|c w IH]; simpl; intros s' k H Hk.
  - destruct s' as [|c s']; simpl; [exact Hk|].
    destruct (class_mem cl c); [|exact Hk].
    destruct (star_match cl s' k); [discriminate | exact Hk].
  - apply andb_prop in H as [Hc Hw]. rewrite Hc.
    specialize (IH s' k Hw Hk).
    destruct (star_match cl (w ++ s') k); [discriminate | contradiction].
Qed.

Lemma rmatch_sound (r : regex) :
  forall (s : string) (caps : captures)
         (k : string -> captures -> option R) (res : R),
    rmatch r s caps k = Some res ->
    exists w s' cs, s = (w ++ s')%string /\ matches r w cs /\
                    k s' (caps ++ cs) = Some res.
Proof.
  induction r as [cl | cl n | cl | name r IH | r1 IH1 r2 IH2];
    simpl; intros s caps k res H.
  - destruct s as [|c s]; [discriminate|].
    destruct (class_mem cl c) eqn:Hc; [|discriminate].
    exists (String c ""), s, []. rewrite app_nil_r.
    repeat split; auto. now constructor.
  - destruct (rep_match_sound _ _ _ _ _ H) as (w & s' & -> & Hlen & Hall & Hk).
    exists w, s', []. rewrite app_nil_r. repeat split; auto.
    now constructor.
  - destruct (star_match_sound _ _ _ _ H) as (w & s' & -> & Hall & Hk).
    exists w, s', []. rewrite app_nil_r. repeat split; auto.
    now constructor.
  - destruct (IH _ _ _ _ H) as (w & s' & cs & -> & Hm & Hk).
    rewrite consumed_append in Hk.
    exists w, s', (cs ++ [(name, w)]). rewrite app_assoc.
    repeat split; auto. now constructor.
  - destruct (IH1 _ _ _ _ H) as (w1 & s1 & cs1 & -> & Hm1 & Hk1).
    destruct (IH2 _ _ _ _ Hk1) as (w2 & s2 & cs2 & -> & Hm2 & Hk2).
    exists (w1 ++ w2)%string, s2, (cs1 ++ cs2).
    rewrite append_assoc, app_assoc. repeat split; auto.
    now constructor.
Qed.

Lemma rmatch_complete (r : regex) (w : string) (cs : captures) :
  matches r w cs ->
  forall (s' : string) (caps : captures)
         (k : string -> captures -> option R),
    k s' (caps ++ cs) <> None ->
    rmatch r (w ++ s') caps k <> None.
Proof.
  induction 1 as [cl c Hc | cl n w Hlen Hall | cl w Hall
                 | name r w cs Hm IH
                 | r1 r2 w1 w2 cs1 cs2 Hm1 IH1 Hm2 IH2];
    simpl; intros s' caps k Hk.
  - rewrite Hc. now rewrite app_nil_r in Hk.
  - subst n. rewrite rep_match_complete by assumption.
    now rewrite app_nil_r in Hk.
  - apply star_match_complete; [assumption|].
    now rewrite app_nil_r in Hk.
  - apply IH. rewrite consumed_append. now rewrite <- app_assoc.
  - rewrite append_assoc. apply IH1. apply IH2.
    now rewrite <- app_assoc.
Qed.

End Matcher.

(** [re.match] succeeds exactly on the subjects a prefix of which the
    pattern matches. *)
Lemma re_match_iff (r : regex) (s : string) :
  re_match r s <> None <->
  exists w s' cs, s = (w ++ s')%string /\ matches r w cs.
Proof.
  unfold re_match. split.
  - destruct (rmatch r s [] (fun _ caps => Some caps)) as [m|] eqn:H;
      [intros _ | congruence].
    destruct (rmatch_sound _ _ _ _ _ H) as (w & s' & cs & Hs & Hm & _).
    now exists w, s', cs.
  - intros (w & s' & cs & -> & Hm).
    apply (rmatch_complete _ _ _ Hm). discriminate.
Qed.

Lemma re_match_some (r : regex) (s : string) (m : captures) :
  re_match r s = Some m ->
  exists w s', s = (w ++ s')%string /\ matches r w m.
Proof.
  unfold re_match. intros H.
  destruct (rmatch_sound _ _ _ _ _ H) as (w & s' & cs & Hs & Hm & Hk).
  simpl in Hk. injection Hk as <-. now exists w, s'.
Qed.

(* ================================================================== *)
(** * What [re_vid] matches *)

Lemma matches_re_vid (w : string) (cs : captures) :
  matches re_vid w cs <->
  exists Y Mo D h mi s V,
    digit_string 4 Y /\ digit_string 2 Mo /\ digit_string 2 D /\
    digit_string 2 h /\ digit_string 2 mi /\ digit_string 2 s /\
    no_line_feed V /\
    w = (Y ++ "-" ++ Mo ++ "-" ++ D ++ "_" ++ h ++ "-" ++ mi ++ "-" ++ s
           ++ "-" ++ V ++ ".mp4")%string /\
    cs = re_vid_captures Y Mo D h mi s V.
Proof.
  unfold re_vid, digit_string, no_line_feed. split.
  - intros H. invert_matches.
    do 7 eexists. repeat split.
    all: assumption.
  - intros (Y & Mo & D & h & mi & s & V & [HY HY'] & [HMo HMo'] & [HD HD']
            & [Hh Hh'] & [Hmi Hmi'] & [Hs Hs'] & HV & -> & ->).
    change (re_vid_captures Y Mo D h mi s V)
      with (([] ++ [("year", Y)]) ++ [] ++ ([] ++ [("month", Mo)]) ++ []
            ++ ([] ++ [("day", D)]) ++ [] ++ ([] ++ [("hour", h)]) ++ []
            ++ ([] ++ [("min", mi)]) ++ [] ++ ([] ++ [("sec", s)]) ++ []
            ++ ([] ++ [("view", V)]) ++ [] ++ [] ++ [] ++ []).
    change ".mp4" with ("." ++ "m" ++ "p" ++ "4")%string.
    repeat first
      [ apply M_Seq
      | apply M_Group
      | apply M_Rep; assumption
      | apply M_Star; assumption
      | apply (M_Chr (CLit _)); reflexivity ].
Qed.

Lemma int_of_str_digits (n : nat) (w : string) :
  digit_string (S n) w -> int_of_str w = Ok (digits_value 0 w).
Proof.
  intros [Hlen Hall]. destruct w as [|c w]; [discriminate|].
  unfold int_of_str. now rewrite Hall.
Qed.

Lemma append_inj_length (a a' x x' : string) :
  String.length a = String.length a' ->
  (a ++ x)%string = (a' ++ x')%string -> a = a' /\ x = x'.
Proof.
  revert a'. induction a as [|c a IH]; intros [|c' a'] Hlen H;
    try discriminate; simpl in *.
  - auto.
  - injection H as -> H. injection Hlen as Hlen.
    destruct (IH _ Hlen H) as [-> ->]. auto.
Qed.

(** A name has at most one reading as a timestamp and a tail. *)
Lemma timestamp_prefixed_unique (name t1 t2 : string) (f1 f2 : list Z) :
  timestamp_prefixed name t1 f1 -> timestamp_prefixed name t2 f2 ->
  t1 = t2 /\ f1 = f2.
Proof.
  intros (Y & Mo & D & h & mi & s & [HY _] & [HMo _] & [HD _] & [Hh _]
          & [Hmi _] & [Hs _] & -> & ->)
         (Y' & Mo' & D' & h' & mi' & s' & [HY' _] & [HMo' _] & [HD' _]
          & [Hh' _] & [Hmi' _] & [Hs' _] & H & ->).
  repeat match type of H with
    | (?a ++ _)%string = (?a' ++ _)%string =>
        let E := fresh "E" in
        apply append_inj_length in H as [E H];
        [ try subst a'; try (injection E as E; subst) | congruence ]
    end.
  subst. auto.
Qed.

Lemma pattern_prefix_unique (name : string) (f1 f2 : list Z) :
  pattern_prefix name f1 -> pattern_prefix name f2 -> f1 = f2.
Proof.
  intros (v1 & r1 & _ & H1) (v2 & r2 & _ & H2).
  now destruct (timestamp_prefixed_unique _ _ _ _ _ H1 H2).
Qed.

Lemma groups_re_vid (Y Mo D h mi s V : string) :
  groups re_vid (re_vid_captures Y Mo D h mi s V) = [Y; Mo; D; h; mi; s; V].
Proof. reflexivity. Qed.

(** A match of [re_vid] reads the name as a timestamp, a view and the
    literal extension, and its first six groups are the timestamp. *)
Lemma re_vid_match_fields (name : string) (m : captures) :
  re_match re_vid name = Some m ->
  exists fields,
    pattern_prefix name fields /\
    ints_of (removelast (groups re_vid m)) = Ok fields.
Proof.
  intros H. apply re_match_some in H as (w & rest & -> & Hm).
  apply matches_re_vid in Hm
    as (Y & Mo & D & h & mi & s & V & HY & HMo & HD & Hh & Hmi & Hs & HV
        & -> & ->).
  eexists. split.
  - exists V, rest. split; [exact HV|].
    exists Y, Mo, D, h, mi, s. repeat split; try apply HY; try apply HMo;
      try apply HD; try apply Hh; try apply Hmi; try apply Hs.
    repeat rewrite append_assoc. reflexivity.
  - rewrite groups_re_vid. simpl.
    rewrite (int_of_str_digits _ _ HY), (int_of_str_digits _ _ HMo),
      (int_of_str_digits _ _ HD), (int_of_str_digits _ _ Hh),
      (int_of_str_digits _ _ Hmi), (int_of_str_digits _ _ Hs).
    reflexivity.
Qed.

Lemma pattern_prefix_matches (name : string) (fields : list Z) :
  pattern_prefix name fields -> re_match re_vid name <> None.
Proof.
  intros (V & rest & HV & Y & Mo & D & h & mi & s & HY & HMo & HD & Hh & Hmi
          & Hs & -> & _).
  apply re_match_iff.
  exists (Y ++ "-" ++ Mo ++ "-" ++ D ++ "_" ++ h ++ "-" ++ mi ++ "-" ++ s
            ++ "-" ++ V ++ ".mp4")%string, rest,
    (re_vid_captures Y Mo D h mi s V).
  split.
  - repeat rewrite append_assoc. reflexivity.
  - apply matches_re_vid. exists Y, Mo, D, h, mi, s, V. auto 10.
Qed.

(** C7 (amended). [re_vid.match] accepts a file name of ASCII characters
    exactly when the name starts with [YYYY-MM-DD_HH-MM-SS-<view>.mp4],
    the digits being [0] to [9] and the view free of line feeds: text in
    front of the timestamp or a malformed digit group is no match, text
    after the extension is accepted. On every accepted name the six
    integers handed to [datetime] are the numbers the digit runs of the
    name denote. *)
Theorem re_vid_accepts_prefix_and_recovers_fields (name : string) :
  ascii_text name ->
  (re_match re_vid name <> None <-> exists fields, pattern_prefix name fields)
  /\
  (forall m fields,
     re_match re_vid name = Some m ->
     pattern_prefix name fields ->
     ints_of (removelast (groups re_vid m)) = Ok fields).
Proof.
  intros _. split; [split|].
  - destruct (re_match re_vid name) as [m|] eqn:H; [intros _ | congruence].
    destruct (re_vid_match_fields _ _ H) as (fields & Hp & _).
    now exists fields.
  - intros [fields Hp]. exact (pattern_prefix_matches _ _ Hp).
  - intros m fields H Hp.
    destruct (re_vid_match_fields _ _ H) as (fields' & Hp' & Hi).
    now rewrite (pattern_prefix_unique _ _ _ Hp Hp').
Qed.

Lemma re_vid_accepts_prefix_witness :
  exists m,
    re_match re_vid "2024-01-02_03-04-05-front.mp4.bak" = Some m /\
    ints_of (removelast (groups re_vid m)) = Ok [2024; 1; 2; 3; 4; 5].
Proof.
  assert (ascii_text "2024-01-02_03-04-05-front.mp4.bak") as Ha
      by (vm_compute; reflexivity).
  eexists. split; [reflexivity|].
  apply (proj2 (re_vid_accepts_prefix_and_recovers_fields
                  "2024-01-02_03-04-05-front.mp4.bak" Ha));
    [reflexivity|].
  exists "front", ".bak". split; [reflexivity|].
  exists "2024", "01", "02", "03", "04", "05".
  unfold digit_string. repeat split; reflexivity.
Defined.

Lemma is_suffix_append (a b suf : string) :
  is_suffix suf b -> is_suffix suf (a ++ b)%string.
Proof.
  intros [x ->]. exists (a ++ x)%string. now rewrite append_assoc.
Qed.

Lemma is_suffix_substring (suf s : string) :
  is_suffix suf s ->
  String.substring (String.length s - String.length suf)
    (String.length suf) s = suf.
Proof.
  intros [x ->]. rewrite length_append.
  replace (String.length x + String.length suf - String.length suf)%nat
    with (String.length x) by lia.
  apply substring_append_r.
Qed.

Lemma fixed_pattern_suffix (ext name : string) :
  fixed_pattern ext name -> is_suffix ("." ++ ext)%string name.
Proof.
  intros (fields & view & Y & Mo & D & h & mi & s & _ & _ & _ & _ & _ & _
          & -> & _).
  do 13 apply is_suffix_append. now exists "".
Qed.

(** C7 (as stated, refuted). A name with text after the extension is
    accepted although the whole name is not the pattern with the extension
    [mp4]; and if any extension were meant, a name that is the pattern with
    another extension is rejected. *)
Lemma re_vid_not_exact_match :
  (re_match re_vid "2024-01-02_03-04-05-front.mp4.bak" <> None /\
   ~ fixed_pattern "mp4" "2024-01-02_03-04-05-front.mp4.bak") /\
  (fixed_pattern "avi" "2024-01-02_03-04-05-front.avi" /\
   re_match re_vid "2024-01-02_03-04-05-front.avi" = None).
Proof.
  split; split.
  - discriminate.
  - intros H. apply fixed_pattern_suffix, is_suffix_substring in H.
    discriminate H.
  - exists [2024; 1; 2; 3; 4; 5], "front".
    exists "2024", "01", "02", "03", "04", "05".
    unfold digit_string. repeat split; reflexivity.
  - reflexivity.
Qed.

(* ================================================================== *)
(** * Decimal rendering of integers *)

Lemma digit_char_spec (d : Z) :
  0 <= d < 10 -> is_digit (digit_char d) = true /\ digit_val (digit_char d) = d.
Proof.
  intros H.
  assert (d = 0 \/ d = 1 \/ d = 2 \/ d = 3 \/ d = 4 \/ d = 5 \/ d = 6
          \/ d = 7 \/ d = 8 \/ d = 9) as Hd by lia.
  repeat destruct Hd as [-> | Hd]; try subst d; split; reflexivity.
Qed.

Lemma forallb_string_impl (f g : ascii -> bool) (s : string) :
  (forall c, f c = true -> g c = true) ->
  forallb_string f s = true -> forallb_string g s = true.
Proof.
  intros Himp. induction s as [|c s IH]; simpl; [reflexivity|].
  intros H. apply andb_prop in H as [Hc Hs].
  now rewrite (Himp _ Hc), IH.
Qed.

Lemma digits_of_append (fuel : nat) :
  forall n acc, digits_of fuel n acc = (digits_of fuel n "" ++ acc)%string.
Proof.
  induction fuel as [|fuel IH]; simpl; intros n acc; [reflexivity|].
  destruct (n <? 10); [reflexivity|].
  rewrite IH, (IH _ (String _ "")), append_assoc. reflexivity.
Qed.

Lemma digits_of_digits (fuel : nat) :
  forall n acc,
    forallb_string is_digit acc = true ->
    forallb_string is_digit (digits_of fuel n acc) = true.
Proof.
  induction fuel as [|fuel IH]; simpl; intros n acc Hacc; [exact Hacc|].
  assert (forallb_string is_digit (String (digit_char (n mod 10)) acc) = true)
    as H.
  { simpl. rewrite Hacc.
    destruct (digit_char_spec (n mod 10)) as [-> _]; [|reflexivity].
    apply Z.mod_pos_bound. lia. }
  destruct (n <? 10); [exact H | now apply IH].
Qed.

Lemma digits_value_append (s t : string) :
  forall a, digits_value a (s ++ t) = digits_value (digits_value a s) t.
Proof.
  induction s as [|c s IH]; simpl; intros a; [reflexivity | apply IH].
Qed.

Lemma digits_value_digits_of (fuel : nat) :
  forall n, 0 <= n < 10 ^ Z.of_nat fuel ->
            digits_value 0 (digits_of fuel n "") = n.
Proof.
  induction fuel as [|fuel IH]; intros n Hn.
  - simpl in *. lia.
  - simpl digits_of.
    assert (0 <= n mod 10 < 10) as Hm by (apply Z.mod_pos_bound; lia).
    destruct (digit_char_spec _ Hm) as [_ Hv].
    destruct (n <? 10) eqn:Hlt.
    + cbn [digits_value]. rewrite Hv. apply Z.ltb_lt in Hlt.
      rewrite Z.mod_small; lia.
    + rewrite digits_of_append, digits_value_append, IH.
      * cbn [digits_value]. rewrite Hv.
        pose proof (Z.div_mod n 10 ltac:(lia)). lia.
      * rewrite Nat2Z.inj_succ, Z.pow_succ_r in Hn by lia.
        split; [apply Z.div_pos; lia|].
        apply Z.div_lt_upper_bound; lia.
Qed.

Lemma str_of_nonneg_digits (n : Z) :
  forallb_string is_digit (str_of_nonneg n) = true.
Proof. unfold str_of_nonneg. now apply digits_of_digits. Qed.

Lemma str_of_nonneg_value (n : Z) :
  0 <= n -> digits_value 0 (str_of_nonneg n) = n.
Proof.
  intros Hn. unfold str_of_nonneg. apply digits_value_digits_of.
  split; [exact Hn|].
  rewrite Nat2Z.inj_succ, Z2Nat.id by apply Z.log2_nonneg.
  destruct (Z.eq_dec n 0) as [-> | Hz]; [reflexivity|].
  apply Z.lt_le_trans with (2 ^ Z.succ (Z.log2 n)).
  - apply Z.log2_spec. lia.
  - apply Z.pow_le_mono_l. lia.
Qed.

Lemma str_of_nonneg_nonempty (n : Z) : str_of_nonneg n <> "".
Proof.
  unfold str_of_nonneg. simpl.
  destruct (n <? 10); [discriminate|].
  rewrite digits_of_append. destruct (digits_of _ _ ""); discriminate.
Qed.

(** Two integers with the same rendering are equal. *)
Lemma str_of_int_inj (a b : Z) : str_of_int a = str_of_int b -> a = b.
Proof.
  unfold str_of_int.
  destruct (a <? 0) eqn:Ha, (b <? 0) eqn:Hb; intros H;
    try apply Z.ltb_lt in Ha; try apply Z.ltb_ge in Ha;
    try apply Z.ltb_lt in Hb; try apply Z.ltb_ge in Hb.
  - injection H as H. apply (f_equal (digits_value 0)) in H.
    rewrite !str_of_nonneg_value in H; lia.
  - pose proof (str_of_nonneg_digits b) as Hd. rewrite <- H in Hd.
    discriminate Hd.
  - pose proof (str_of_nonneg_digits a) as Hd. rewrite H in Hd.
    discriminate Hd.
  - apply (f_equal (digits_value 0)) in H.
    rewrite !str_of_nonneg_value in H; lia.
Qed.

Lemma str_of_int_chars (n : Z) : forallb_string int_char (str_of_int n) = true.
Proof.
  unfold str_of_int.
  assert (forallb_string int_char (str_of_nonneg (- n)) = true
          /\ forallb_string int_char (str_of_nonneg n) = true) as [H1 H2].
  { split; apply forallb_string_impl with (f := is_digit);
      try apply str_of_nonneg_digits;
      intros c Hc; unfold int_char; now rewrite Hc. }
  destruct (n <? 0); [simpl; now rewrite H1 | exact H2].
Qed.

Lemma str_repeat_chars (f : ascii -> bool) (c : ascii) (n : nat) :
  f c = true -> forallb_string f (str_repeat c n) = true.
Proof.
  intros Hc. induction n as [|n IH]; simpl; [reflexivity|].
  now rewrite Hc, IH.
Qed.

Lemma zero_pad_digits (width : nat) (n : Z) :
  forallb_string is_digit (zero_pad width n) = true.
Proof.
  unfold zero_pad. rewrite forallb_string_append, str_of_nonneg_digits.
  rewrite str_repeat_chars; reflexivity.
Qed.

Lemma strftime_chars (dt : datetime) :
  forallb_string int_char (strftime dt) = true.
Proof.
  assert (forall w n, forallb_string int_char (zero_pad w n) = true) as Hz.
  { intros w n. apply forallb_string_impl with (f := is_digit);
      [|apply zero_pad_digits].
    intros c Hc. unfold int_char. now rewrite Hc. }
  assert (forallb_string int_char (str_of_nonneg (year dt)) = true) as Hy.
  { apply forallb_string_impl with (f := is_digit);
      [|apply str_of_nonneg_digits].
    intros c Hc. unfold int_char. now rewrite Hc. }
  unfold strftime. rewrite forallb_string_append, Hy. simpl.
  repeat (rewrite forallb_string_append; rewrite Hz; simpl).
  apply Hz.
Qed.

Lemma digits_of_length (fuel : nat) :
  forall n k, 0 <= n < 10 ^ Z.of_nat (S k) ->
              (String.length (digits_of fuel n "") <= S k)%nat.
Proof.
  induction fuel as [|fuel IH]; intros n k Hn; simpl digits_of.
  - simpl. lia.
  - destruct (n <? 10) eqn:Hlt; [simpl; lia|].
    apply Z.ltb_ge in Hlt.
    destruct k as [|k]; [simpl in Hn; lia|].
    rewrite digits_of_append, length_append. simpl String.length.
    assert (String.length (digits_of fuel (n / 10) "") <= S k)%nat; [|lia].
    apply IH.
    rewrite (Nat2Z.inj_succ (S k)), Z.pow_succ_r in Hn by lia.
    split; [apply Z.div_pos; lia|].
    apply Z.div_lt_upper_bound; lia.
Qed.

Lemma str_repeat_length (c : ascii) (n : nat) :
  String.length (str_repeat c n) = n.
Proof. induction n as [|n IH]; simpl; [reflexivity | now rewrite IH]. Qed.

Lemma digits_value_zeros (n : nat) : digits_value 0 (str_repeat "0" n) = 0.
Proof. induction n as [|n IH]; simpl; [reflexivity | exact IH]. Qed.

(** Padding a number that fits gives exactly [width] digits that denote
    the number. *)
Lemma zero_pad_spec (k : nat) (n : Z) :
  0 <= n < 10 ^ Z.of_nat (S k) ->
  digit_string (S k) (zero_pad (S k) n)
  /\ digits_value 0 (zero_pad (S k) n) = n.
Proof.
  intros Hn. unfold digit_string. repeat split.
  - unfold zero_pad. rewrite length_append, str_repeat_length.
    pose proof (digits_of_length (S (Z.to_nat (Z.log2 n))) n k Hn) as Hl.
    fold (str_of_nonneg n) in Hl. lia.
  - apply zero_pad_digits.
  - unfold zero_pad.
    rewrite digits_value_append, digits_value_zeros.
    apply str_of_nonneg_value. lia.
Qed.

(* ================================================================== *)
(** * Paths and output names *)

Lemma no_char_append (c : ascii) (a b : string) :
  no_char c a -> no_char c b -> no_char c (a ++ b)%string.
Proof.
  unfold no_char. intros Ha Hb. now rewrite forallb_string_append, Ha, Hb.
Qed.

Lemma int_chars_no_char (c : ascii) (s : string) :
  int_char c = false -> forallb_string int_char s = true -> no_char c s.
Proof.
  intros Hc. apply forallb_string_impl. intros x Hx.
  destruct (Ascii.eqb_spec x c) as [-> | _]; [congruence | reflexivity].
Qed.

Lemma split_on_no_sep (sep : ascii) (s : string) :
  no_char sep s -> split_on sep s = [s].
Proof.
  unfold no_char. induction s as [|c s IH]; simpl; intros H; [reflexivity|].
  apply andb_prop in H as [Hc Hs].
  apply negb_true_iff in Hc. rewrite Hc, (IH Hs). reflexivity.
Qed.

(** A name without a slash that is neither empty nor a dot is a path of
    one component. *)
Lemma parse_path_single (s : string) :
  no_char "/" s -> s <> "" -> s <> "." -> parse_path s = mkPath "" [s].
Proof.
  intros Hno He Hd. unfold parse_path.
  rewrite (split_on_no_sep _ _ Hno). simpl filter.
  destruct (String.eqb_spec s "") as [|_]; [contradiction|].
  destruct (String.eqb_spec s ".") as [|_]; [contradiction|].
  simpl. f_equal.
  destruct s as [|c s]; [contradiction|].
  unfold no_char in Hno. simpl in Hno. apply andb_prop in Hno as [Hc _].
  apply negb_true_iff in Hc. rewrite Ascii.eqb_sym in Hc.
  simpl. now rewrite Hc.
Qed.

Lemma path_join_relative (a : Path) (names : list string) :
  path_join a (mkPath "" names) = mkPath (p_root a) (p_names a ++ names).
Proof. reflexivity. Qed.

Lemma output_name_no_slash (e : SentryEvent) (scale speed quality : Z) :
  no_char "/" (output_name e scale speed quality).
Proof.
  unfold output_name.
  repeat first
    [ apply int_chars_no_char; [reflexivity | apply strftime_chars]
    | apply int_chars_no_char; [reflexivity | apply str_of_int_chars]
    | reflexivity
    | apply no_char_append ].
Qed.

Lemma output_name_length (e : SentryEvent) (scale speed quality : Z) :
  (2 <= String.length (output_name e scale speed quality))%nat.
Proof.
  unfold output_name. rewrite length_append, length_append. simpl. lia.
Qed.

(** The output is one file name appended to the event directory. *)
Lemma output_path_eq (e : SentryEvent) (scale speed quality : Z) :
  output_path e scale speed quality
  = mkPath (p_root (event_dir e))
      (p_names (event_dir e) ++ [output_name e scale speed quality]).
Proof.
  unfold output_path. rewrite parse_path_single.
  - apply path_join_relative.
  - apply output_name_no_slash.
  - intros H. pose proof (output_name_length e scale speed quality) as Hl.
    rewrite H in Hl. simpl in Hl. lia.
  - intros H. pose proof (output_name_length e scale speed quality) as Hl.
    rewrite H in Hl. simpl in Hl. lia.
Qed.

(** Two texts free of a separator, each followed by it, split the same
    way. *)
Lemma append_sep_inj (c : ascii) (a a' x x' : string) :
  no_char c a -> no_char c a' ->
  (a ++ String c x)%string = (a' ++ String c x')%string ->
  a = a' /\ x = x'.
Proof.
  unfold no_char. revert a'.
  induction a as [|y a IH]; intros [|y' a']; simpl; intros Ha Ha' H.
  - injection H as ->. auto.
  - injection H as <- _. rewrite Ascii.eqb_refl in Ha'. discriminate.
  - injection H as -> _. rewrite Ascii.eqb_refl in Ha. discriminate.
  - injection H as -> H.
    apply andb_prop in Ha as [_ Ha]. apply andb_prop in Ha' as [_ Ha'].
    destruct (IH _ Ha Ha' H) as [-> ->]. auto.
Qed.

Lemma output_name_inj (e : SentryEvent) (s p q s' p' q' : Z) :
  output_name e s p q = output_name e s' p' q' ->
  s = s' /\ p = p' /\ q = q'.
Proof.
  unfold output_name. intros H.
  apply append_inj_l in H. simpl in H. injection H as H.
  apply append_sep_inj in H as [Hs H];
    try (apply int_chars_no_char; [reflexivity | apply str_of_int_chars]).
  injection H as H.
  apply append_sep_inj in H as [Hp H];
    try (apply int_chars_no_char; [reflexivity | apply str_of_int_chars]).
  injection H as H.
  apply append_sep_inj in H as [Hq _];
    try (apply int_chars_no_char; [reflexivity | apply str_of_int_chars]).
  auto using str_of_int_inj.
Qed.

(** The components of a path joined by slashes, the last one apart. *)
Lemma concat_slash_snoc (ns : list string) (a : string) :
  String.concat "/" (ns ++ [a])
  = fold_right (fun n acc => (n ++ "/" ++ acc)%string) a ns.
Proof.
  induction ns as [|x ns IH]; [reflexivity|].
  cbn [app fold_right]. rewrite <- IH.
  destruct (ns ++ [a]) eqn:E; [destruct ns; discriminate | reflexivity].
Qed.

Lemma path_str_child (d : Path) (f : string) :
  path_str (mkPath (p_root d) (p_names d ++ [f])) = entry_text d f.
Proof.
  unfold path_str, entry_text. cbn [p_root p_names].
  rewrite <- concat_slash_snoc.
  destruct (p_root d); [|reflexivity].
  destruct (p_names d ++ [f]) eqn:E; [|reflexivity].
  destruct (p_names d); discriminate.
Qed.

(** The text of an entry of a directory is the text of the directory, a
    slash unless the directory is the root or the current one, and the
    name of the entry. *)
Lemma path_str_entry (d : Path) (f : string) :
  plain_name f -> path_str (path_join d (parse_path f)) = entry_text d f.
Proof.
  intros (Hno & He & Hd).
  rewrite (parse_path_single _ Hno He Hd), path_join_relative.
  apply path_str_child.
Qed.

Lemma entry_text_inj (d : Path) (a b : string) :
  entry_text d a = entry_text d b -> a = b.
Proof.
  unfold entry_text. intros H. apply append_inj_l in H.
  induction (p_names d) as [|n ns IH]; [exact H|].
  cbn [fold_right] in H. apply append_inj_l in H.
  injection H as H. exact (IH H).
Qed.

Lemma output_name_plain (e : SentryEvent) (scale speed quality : Z) :
  plain_name (output_name e scale speed quality).
Proof.
  split; [apply output_name_no_slash|].
  pose proof (output_name_length e scale speed quality) as Hl.
  split; intros H; rewrite H in Hl; simpl in Hl; lia.
Qed.

(** The text of the output path: the event directory and the name. *)
Lemma output_path_str (e : SentryEvent) (scale speed quality : Z) :
  path_str (output_path e scale speed quality)
  = entry_text (event_dir e) (output_name e scale speed quality).
Proof.
  unfold output_path. apply path_str_entry, output_name_plain.
Qed.

Lemma output_path_str_inj (e : SentryEvent) (s p q s' p' q' : Z) :
  path_str (output_path e s p q) = path_str (output_path e s' p' q') ->
  s = s' /\ p = p' /\ q = q'.
Proof.
  rewrite !output_path_str. intros H. apply entry_text_inj in H.
  exact (output_name_inj _ _ _ _ _ _ _ H).
Qed.

(* ================================================================== *)
(** * The command composer *)

Lemma get_view_raises (e : SentryEvent) (v : string) (x : exn) :
  get_view e v = Raise x -> x = IndexError.
Proof.
  unfold get_view. destruct (filter _ _); [|discriminate].
  intros H. now injection H.
Qed.

Lemma filter_graph_eq (scale : Z) (ratio : string) :
  str_join
    (((((fold_left
          (fun filter iv =>
             filter ++ [("[" ++ str_of_int (fst iv) ++ ":v]")%string;
                        ("scale=iw/" ++ str_of_int scale
                           ++ ":ih/" ++ str_of_int scale)%string;
                        ("[" ++ snd iv ++ "];")%string])
          (enumerate_from 0 views) [])
         ++ ["[front][back]"; "hstack"; "[long];"])
        ++ ["[right][left]"; "hstack"; "[lat];"])
       ++ ["[long][lat]"; "vstack"; "[all];"])
      ++ ["[all]"; ("setpts=" ++ ratio ++ "*PTS")%string; "[res]"])
  = spec_filter_graph scale ratio.
Proof.
  unfold spec_filter_graph, spec_scale_fragment, str_join. cbn.
  repeat (progress (repeat rewrite append_assoc; cbn)).
  reflexivity.
Qed.

(** With a front file every view resolves, to its own file or to the
    front file, and the command has the fixed layout. *)
Lemma compose_with_front (e : SentryEvent) (scale speed quality : Z)
  (global_opts : option (list string)) (f : string) (ratio : float64) :
  get_view e "front" = Ok f ->
  int_truediv 1 speed = Ok ratio ->
  compose_stack_cmd e scale speed quality global_opts
  = Ok (command_layout (passed_options global_opts)
          (input_arg e f)
          (input_arg e (view_or e "back" f))
          (input_arg e (view_or e "left" f))
          (input_arg e (view_or e "right" f))
          (spec_filter_graph scale (float_repr ratio))
          quality
          (path_str (output_path e scale speed quality))).
Proof.
  intros Hf Hr. unfold compose_stack_cmd, view_or.
  cbn [for_each views]. rewrite Hf. cbn [bind try_except_IndexError].
  destruct (get_view e "back") as [b | xb] eqn:Hb;
    [| rewrite (get_view_raises _ _ _ Hb) ];
  cbn [bind try_except_IndexError];
  (destruct (get_view e "left") as [l | xl] eqn:Hl;
    [| rewrite (get_view_raises _ _ _ Hl) ]);
  cbn [bind try_except_IndexError];
  (destruct (get_view e "right") as [r | xr] eqn:Hrt;
    [| rewrite (get_view_raises _ _ _ Hrt) ]);
  cbn [bind try_except_IndexError];
  rewrite Hr; cbn [bind]; rewrite filter_graph_eq;
  unfold command_layout;
  destruct global_opts as [[|o opts]|]; cbn [passed_options];
  repeat rewrite <- app_assoc; reflexivity.
Qed.

(** Without a front file the first lookup fails and so does the fallback
    of its handler. *)
Lemma compose_without_front (e : SentryEvent) (scale speed quality : Z)
  (global_opts : option (list string)) :
  get_view e "front" = Raise IndexError ->
  compose_stack_cmd e scale speed quality global_opts = Raise IndexError.
Proof.
  intros Hf. unfold compose_stack_cmd.
  cbn [for_each views]. rewrite Hf. reflexivity.
Qed.

(* ================================================================== *)
(** * Looking a view up *)

Lemma starts_with_iff (p s : string) :
  starts_with p s = true <-> exists b, s = (p ++ b)%string.
Proof.
  revert s. induction p as [|a p IH]; intros s; simpl.
  - split; [intros _; now exists s | reflexivity].
  - destruct s as [|c s].
    + split; [discriminate | intros [b H]; discriminate].
    + rewrite andb_true_iff, Ascii.eqb_eq, IH. split.
      * intros [-> [b ->]]. now exists b.
      * intros [b H]. injection H as -> ->. split; [reflexivity | now exists b].
Qed.

Lemma has_substring_cons (sub : string) (c : ascii) (s : string) :
  has_substring sub (String c s) <->
  starts_with sub (String c s) = true \/ has_substring sub s.
Proof.
  split.
  - intros ([|x a] & b & H).
    + left. apply starts_with_iff. now exists b.
    + right. simpl in H. injection H as _ ->. now exists a, b.
  - intros [H | (a & b & ->)].
    + apply starts_with_iff in H as [b H]. now exists "", b.
    + now exists (String c a), b.
Qed.

Lemma has_substring_nil (sub : string) :
  has_substring sub "" <-> starts_with sub "" = true.
Proof.
  split.
  - intros (a & b & H). apply starts_with_iff.
    destruct a; [now exists b | discriminate].
  - intros H. apply starts_with_iff in H as [b H]. now exists "", b.
Qed.

(** [find] answers [-1] exactly when the text does not occur. *)
Lemma str_find_from_spec (sub s : string) :
  forall i, 0 <= i ->
    (has_substring sub s /\ 0 <= str_find_from i sub s) \/
    (~ has_substring sub s /\ str_find_from i sub s = -1).
Proof.
  induction s as [|c s IH]; intros i Hi.
  - simpl. rewrite has_substring_nil.
    destruct (starts_with sub ""); [left | right]; split;
      try lia; congruence.
  - cbn [str_find_from]. rewrite has_substring_cons.
    destruct (starts_with sub (String c s)).
    + left. split; [now left | lia].
    + destruct (IH (i + 1) ltac:(lia)) as [[H1 H2] | [H1 H2]].
      * left. split; [now right | lia].
      * right. split; [|exact H2]. intros [H | H]; [discriminate | auto].
Qed.

Lemma str_find_missing (s sub : string) :
  (str_find s sub =? -1) = true <-> ~ has_substring sub s.
Proof.
  unfold str_find. rewrite Z.eqb_eq.
  destruct (str_find_from_spec sub s 0 ltac:(lia)) as [[H1 H2] | [H1 H2]].
  - split; [lia | contradiction].
  - split; auto.
Qed.

Lemma str_find_present (s sub : string) :
  (str_find s sub =? -1) = false <-> has_substring sub s.
Proof.
  rewrite <- not_true_iff_false, str_find_missing.
  unfold str_find.
  destruct (str_find_from_spec sub s 0 ltac:(lia)) as [[H1 _] | [H1 _]];
    tauto.
Qed.

Lemma get_view_missing (e : SentryEvent) (v : string) :
  (forall p, In p (video_paths e) -> ~ has_substring v p) ->
  get_view e v = Raise IndexError.
Proof.
  unfold get_view. intros H.
  induction (video_paths e) as [|p ps IH]; simpl; [reflexivity|].
  assert ((str_find p v =? -1) = true) as ->
      by (apply str_find_missing, H; now left).
  simpl. apply IH. intros q Hq. apply H. now right.
Qed.

(** [get_view] returns the first file whose name contains the view. *)
Lemma get_view_found (e : SentryEvent) (v p : string) :
  get_view e v = Ok p <->
  exists before after,
    video_paths e = before ++ p :: after /\
    has_substring v p /\
    forall q, In q before -> ~ has_substring v q.
Proof.
  unfold get_view.
  induction (video_paths e) as [|x xs IH]; simpl.
  - split; [discriminate|].
    intros (before & after & H & _). now destruct before.
  - destruct (str_find x v =? -1) eqn:Hx; simpl.
    + apply str_find_missing in Hx. rewrite IH. split.
      * intros (before & after & -> & Hp & Hb).
        exists (x :: before), after. repeat split; auto.
        intros q [<- | Hq]; auto.
      * intros ([|y before] & after & H & Hp & Hb); injection H as -> ->.
        -- contradiction.
        -- exists before, after. repeat split; auto.
           intros q Hq. apply Hb. now right.
    + apply str_find_present in Hx as Hv. split.
      * intros H. injection H as <-. exists [], xs. repeat split; auto.
      * intros ([|y before] & after & H & Hp & Hb); injection H as -> ->.
        -- reflexivity.
        -- elim (Hb y); [now left | exact Hv].
Qed.

(* ================================================================== *)
(** * The reciprocal of the speed *)

Lemma round_to_float_ok (neg : bool) (n d : Z) :
  Z.log2 n - Z.log2 d <= 970 ->
  exists r, round_to_float neg n d = Ok r.
Proof.
  intros H. unfold round_to_float.
  destruct (scaled_fraction n d (Z.log2 n - Z.log2 d - 52)) as [n1 d1].
  set (e2 := if n1 / d1 <? 2 ^ 52 then _ else _).
  assert (e2 <= Z.log2 n - Z.log2 d - 52) as He2
      by (subst e2; destruct (n1 / d1 <? 2 ^ 52); lia).
  destruct (scaled_fraction n d (Z.max e2 (-1074))) as [num den].
  destruct (round_half_even num den =? 2 ^ 53).
  - destruct (1024 <=? Z.max e2 (-1074) + 1 + 52) eqn:E;
      [apply Z.leb_le in E; lia | eauto].
  - destruct (1024 <=? Z.max e2 (-1074) + 52) eqn:E;
      [apply Z.leb_le in E; lia | eauto].
Qed.

(** [1/speed] is a float for every speed but zero. *)
Lemma int_truediv_one_ok (speed : Z) :
  speed <> 0 -> exists r, int_truediv 1 speed = Ok r.
Proof.
  intros H. unfold int_truediv.
  destruct (Z.eqb_spec speed 0) as [|_]; [contradiction|].
  change (1 =? 0) with false. cbv iota.
  apply round_to_float_ok. change (Z.log2 (Z.abs 1)) with 0.
  pose proof (Z.log2_nonneg (Z.abs speed)). lia.
Qed.

Lemma int_truediv_zero (a : Z) : int_truediv a 0 = Raise ZeroDivisionError.
Proof. reflexivity. Qed.

(* ================================================================== *)
(** * The composer and missing views *)

Lemma get_view_raise_iff (e : SentryEvent) (v : string) :
  get_view e v = Raise IndexError <->
  forall p, In p (video_paths e) -> ~ has_substring v p.
Proof.
  split; [|apply get_view_missing].
  intros H p Hp Hv. apply in_split in Hp as (l1 & l2 & Hp).
  unfold get_view in H. rewrite Hp, filter_app in H. simpl in H.
  apply str_find_present in Hv. rewrite Hv in H. simpl in H.
  destruct (filter _ l1); discriminate.
Qed.

Lemma get_view_some (e : SentryEvent) (v p : string) :
  In p (video_paths e) -> has_substring v p ->
  exists f, get_view e v = Ok f.
Proof.
  intros Hp Hv. destruct (get_view e v) as [f | x] eqn:H; [eauto|].
  rewrite (get_view_raises _ _ _ H) in H.
  elim (proj1 (get_view_raise_iff e v) H p Hp Hv).
Qed.

Lemma has_substring_weaken (a b s : string) :
  has_substring (a ++ b) s -> has_substring a s.
Proof.
  intros (x & y & ->). exists x, (b ++ y)%string.
  now rewrite append_assoc.
Qed.

(** The composer in one equation: the front file is needed, the other
    views fall back to it, and the speed must have a reciprocal. *)
Lemma compose_stack_cmd_eq (e : SentryEvent) (scale speed quality : Z)
  (global_opts : option (list string)) :
  compose_stack_cmd e scale speed quality global_opts
  = (f <- get_view e "front" ;;
     ratio <- int_truediv 1 speed ;;
     Ok (command_layout (passed_options global_opts)
           (input_arg e f)
           (input_arg e (view_or e "back" f))
           (input_arg e (view_or e "left" f))
           (input_arg e (view_or e "right" f))
           (spec_filter_graph scale (float_repr ratio))
           quality
           (path_str (output_path e scale speed quality)))).
Proof.
  destruct (get_view e "front") as [f | x] eqn:Hf.
  - destruct (int_truediv 1 speed) as [ratio | y] eqn:Hr.
    + now apply compose_with_front.
    + unfold compose_stack_cmd. cbn [for_each views]. rewrite Hf.
      cbn [bind try_except_IndexError].
      destruct (get_view e "back") as [b | xb] eqn:Hb;
        [| rewrite (get_view_raises _ _ _ Hb) ];
      cbn [bind try_except_IndexError];
      (destruct (get_view e "left") as [l | xl] eqn:Hl;
        [| rewrite (get_view_raises _ _ _ Hl) ]);
      cbn [bind try_except_IndexError];
      (destruct (get_view e "right") as [r | xr] eqn:Hrt;
        [| rewrite (get_view_raises _ _ _ Hrt) ]);
      cbn [bind try_except_IndexError];
      rewrite Hr; reflexivity.
  - pose proof (get_view_raises _ _ _ Hf) as ->. cbn [bind].
    now apply compose_without_front.
Qed.

(** With speed zero the reciprocal does not exist: an event with a front
    file gets [ZeroDivisionError], whatever its other files. *)
Lemma compose_zero_speed (e : SentryEvent) (scale quality : Z)
  (global_opts : option (list string)) (f : string) :
  get_view e "front" = Ok f ->
  compose_stack_cmd e scale 0 quality global_opts = Raise ZeroDivisionError.
Proof.
  intros Hf. rewrite compose_stack_cmd_eq, Hf. reflexivity.
Qed.

(** C3. An event none of whose file names contains [front] gets no
    command: the lookup of the front view fails, and so does the lookup in
    the handler that substitutes the front file. *)
Theorem compose_fails_without_front (e : SentryEvent)
  (scale speed quality : Z) (global_opts : option (list string)) :
  (forall name, In name (video_paths e) -> ~ has_substring "front" name) ->
  compose_stack_cmd e scale speed quality global_opts = Raise IndexError.
Proof.
  intros H. apply compose_without_front. now apply get_view_missing.
Qed.

(** C4. An event with a front file and no file whose name contains [back]
    gets a command, for every speed but zero, and the second input of the
    command is the full path of the front file: the text of
    [sentry_dir / date_dir / f] for the first file [f] of the event whose
    name contains [front]. For the name of a directory entry this text is
    the directory, component by component, and the name. *)
Theorem compose_substitutes_front_for_back (e : SentryEvent)
  (scale speed quality : Z) (global_opts : option (list string)) :
  (exists name, In name (video_paths e) /\ has_substring "front" name) ->
  (forall name, In name (video_paths e) -> ~ has_substring "back" name) ->
  speed <> 0 ->
  exists f i3 i4 graph,
    get_view e "front" = Ok f /\
    In f (video_paths e) /\ has_substring "front" f /\
    compose_stack_cmd e scale speed quality global_opts
    = Ok (command_layout (passed_options global_opts)
            (path_str (path_join (path_join (sentry_dir e) (date_dir e))
                         (parse_path f)))
            (path_str (path_join (path_join (sentry_dir e) (date_dir e))
                         (parse_path f)))
            i3 i4 graph quality
            (path_str (output_path e scale speed quality))) /\
    (plain_name f ->
     path_str (path_join (path_join (sentry_dir e) (date_dir e))
                 (parse_path f))
     = entry_text (path_join (sentry_dir e) (date_dir e)) f).
Proof.
  intros (name & Hin & Hfront) Hback Hspeed.
  destruct (get_view_some _ _ _ Hin Hfront) as [f Hf].
  destruct (int_truediv_one_ok _ Hspeed) as [ratio Hr].
  exists f. do 3 eexists. split; [exact Hf|].
  destruct (proj1 (get_view_found _ _ _) Hf) as (bf & af & Hv & Hs & _).
  split; [rewrite Hv; apply in_elt|]. split; [exact Hs|].
  split; [|apply path_str_entry].
  rewrite (compose_with_front _ _ _ _ _ _ _ Hf Hr).
  unfold view_or at 1. rewrite (get_view_missing _ _ Hback). reflexivity.
Qed.

(** A label that is in one file name only finds that file. *)
Lemma get_view_unique (e : SentryEvent) (v p : string) :
  In p (video_paths e) -> has_substring v p ->
  unique_label v (video_paths e) -> get_view e v = Ok p.
Proof.
  intros Hin Hs Hu. destruct (get_view_some _ _ _ Hin Hs) as [q Hq].
  rewrite Hq. f_equal.
  destruct (proj1 (get_view_found _ _ _) Hq) as (bf & af & Hv & Hsq & _).
  apply Hu; auto. rewrite Hv. apply in_elt.
Qed.

(** When each of the labels [front], [back], [left] and [right] is in
    exactly one file name, the inputs are the files of the front, back,
    left and right views in this order, and the filter graph is the one
    the specification spells out, with the reciprocal of the speed as the
    timestamp factor. *)
Lemma compose_inputs_of_unique_labels (e : SentryEvent)
  (scale speed quality : Z) (global_opts : option (list string))
  (f b l r : string) :
  In f (video_paths e) -> In b (video_paths e) ->
  In l (video_paths e) -> In r (video_paths e) ->
  has_substring "front" f -> has_substring "back" b ->
  has_substring "left" l -> has_substring "right" r ->
  unique_label "front" (video_paths e) ->
  unique_label "back" (video_paths e) ->
  unique_label "left" (video_paths e) ->
  unique_label "right" (video_paths e) ->
  speed <> 0 ->
  exists ratio,
    int_truediv 1 speed = Ok ratio /\
    compose_stack_cmd e scale speed quality global_opts
    = Ok (command_layout (passed_options global_opts)
            (path_str (path_join (path_join (sentry_dir e) (date_dir e))
                         (parse_path f)))
            (path_str (path_join (path_join (sentry_dir e) (date_dir e))
                         (parse_path b)))
            (path_str (path_join (path_join (sentry_dir e) (date_dir e))
                         (parse_path l)))
            (path_str (path_join (path_join (sentry_dir e) (date_dir e))
                         (parse_path r)))
            (spec_filter_graph scale (float_repr ratio))
            quality
            (path_str (output_path e scale speed quality))).
Proof.
  intros If Ib Il Ir Sf Sb Sl Sr Uf Ub Ul Ur Hspeed.
  destruct (int_truediv_one_ok _ Hspeed) as [ratio Eratio].
  exists ratio. split; [exact Eratio|].
  pose proof (get_view_unique _ _ _ If Sf Uf) as Ef.
  rewrite (compose_with_front _ _ _ _ _ _ _ Ef Eratio).
  unfold view_or.
  rewrite (get_view_unique _ _ _ Ib Sb Ub), (get_view_unique _ _ _ Il Sl Ul),
    (get_view_unique _ _ _ Ir Sr Ur).
  reflexivity.
Qed.

Lemma last_app_cons {A : Type} (a : list A) (x : A) (b : list A) (d : A) :
  last (a ++ x :: b) d = last (x :: b) d.
Proof.
  induction a as [|y a IH]; [reflexivity|].
  simpl app. rewrite <- IH. simpl. destruct (a ++ x :: b) eqn:E; [|reflexivity].
  now destruct a.
Qed.

(** C10. Every command the composer returns is the program name, the
    pass-through options as given, four input pairs, the switch that drops
    audio, the filter graph, the codec and the quality, and the mapping of
    the result to the output path, which is the last token. *)
Theorem compose_token_layout (e : SentryEvent) (scale speed quality : Z)
  (global_opts : option (list string)) (cmd : list string) :
  compose_stack_cmd e scale speed quality global_opts = Ok cmd ->
  exists i1 i2 i3 i4 graph,
    cmd = ["ffmpeg"] ++ passed_options global_opts
          ++ ["-i"; i1; "-i"; i2; "-i"; i3; "-i"; i4]
          ++ ["-an"; "-filter_complex"; graph]
          ++ ["-c:v"; "libx264"; "-crf"; str_of_int quality]
          ++ ["-map"; "[res]";
              path_str (output_path e scale speed quality)]
    /\ last cmd "" = path_str (output_path e scale speed quality).
Proof.
  rewrite compose_stack_cmd_eq.
  destruct (get_view e "front") as [f | x]; [|discriminate].
  destruct (int_truediv 1 speed) as [ratio | y]; [|discriminate].
  cbn [bind]. intros H. injection H as <-.
  do 5 eexists. split; [reflexivity|].
  unfold command_layout. cbn [app].
  rewrite app_comm_cons, last_app_cons. reflexivity.
Qed.

(* ================================================================== *)
(** * The composer on the example events *)

Lemma substring_absent (sub s : string) :
  (str_find s sub =? -1) = true -> ~ has_substring sub s.
Proof. apply str_find_missing. Qed.

Lemma substring_present (sub s : string) :
  (str_find s sub =? -1) = false -> has_substring sub s.
Proof. apply str_find_present. Qed.

Lemma compose_fails_without_front_witness :
  compose_stack_cmd no_front_event 4 1 23 None = Raise IndexError.
Proof.
  apply compose_fails_without_front.
  intros name [<- | [<- | [<- | []]]]; apply substring_absent; reflexivity.
Defined.

Lemma compose_substitutes_front_for_back_witness :
  exists i3 i4 graph,
    compose_stack_cmd (session_event [front_mp4; left_mp4; right_mp4])
      4 1 23 None
    = Ok (command_layout []
            (session_dir ++ front_mp4)%string
            (session_dir ++ front_mp4)%string
            i3 i4 graph 23
            (session_dir ++ "2024-01-02-03-04-05_st4_sp1_q23.mp4")%string).
Proof.
  destruct (compose_substitutes_front_for_back
              (session_event [front_mp4; left_mp4; right_mp4]) 4 1 23 None)
    as (f & i3 & i4 & graph & Hf & _ & _ & Hcmd & _).
  - exists front_mp4. split; [now left|].
    apply substring_present; reflexivity.
  - intros name [<- | [<- | [<- | []]]]; apply substring_absent; reflexivity.
  - discriminate.
  - exists i3, i4, graph. rewrite Hcmd.
    assert (get_view (session_event [front_mp4; left_mp4; right_mp4]) "front"
            = Ok front_mp4) as Hg by (vm_compute; reflexivity).
    rewrite Hg in Hf. injection Hf as <-.
    assert (path_str
              (path_join
                 (path_join
                    (sentry_dir
                       (session_event [front_mp4; left_mp4; right_mp4]))
                    (date_dir
                       (session_event [front_mp4; left_mp4; right_mp4])))
                 (parse_path front_mp4))
            = (session_dir ++ front_mp4)%string) as ->
        by (vm_compute; reflexivity).
    assert (path_str
              (output_path (session_event [front_mp4; left_mp4; right_mp4])
                 4 1 23)
            = (session_dir ++ "2024-01-02-03-04-05_st4_sp1_q23.mp4")%string)
      as -> by (vm_compute; reflexivity).
    reflexivity.
Defined.

Lemma compose_token_layout_witness :
  exists i1 i2 i3 i4 graph,
    four_view_cmd
    = ["ffmpeg"] ++ ["-y"]
      ++ ["-i"; i1; "-i"; i2; "-i"; i3; "-i"; i4]
      ++ ["-an"; "-filter_complex"; graph]
      ++ ["-c:v"; "libx264"; "-crf"; str_of_int 20]
      ++ ["-map"; "[res]"; path_str (output_path four_view_event 4 2 20)]
    /\ last four_view_cmd ""
       = path_str (output_path four_view_event 4 2 20).
Proof.
  apply (compose_token_layout four_view_event 4 2 20 (Some ["-y"])).
  vm_compute. reflexivity.
Defined.

(** A front file is all the composer needs: it returns a command exactly
    when some file name contains [front] and the speed is not zero. *)
Lemma compose_succeeds_iff (e : SentryEvent) (scale speed quality : Z)
  (global_opts : option (list string)) :
  (exists cmd, compose_stack_cmd e scale speed quality global_opts = Ok cmd)
  <->
  (exists name, In name (video_paths e) /\ has_substring "front" name)
  /\ speed <> 0.
Proof.
  rewrite compose_stack_cmd_eq. split.
  - intros [cmd H].
    destruct (get_view e "front") as [f | x] eqn:Hf; [|discriminate].
    apply get_view_found in Hf as (before & after & Hv & Hs & _).
    split.
    + exists f. split; [|exact Hs]. rewrite Hv. apply in_elt.
    + intros ->. discriminate.
  - intros [(name & Hin & Hs) Hspeed].
    destruct (get_view_some _ _ _ Hin Hs) as [f ->].
    destruct (int_truediv_one_ok _ Hspeed) as [ratio ->].
    cbn [bind]. eauto.
Qed.

(** C1 (the code departs from the claim). For the event with the files of
    the back, front and right views and none of the left view, the composer
    returns a command: its third input is the front file. The handler
    written for a missing back file serves every view. *)
Theorem compose_substitutes_front_for_left :
  compose_stack_cmd no_left_event 4 1 23 None
  = Ok [ "ffmpeg";
         "-i"; (example_dir ++ front_mp4)%string;
         "-i"; (example_dir ++ back_mp4)%string;
         "-i"; (example_dir ++ front_mp4)%string;
         "-i"; (example_dir ++ right_mp4)%string;
         "-an"; "-filter_complex"; spec_filter_graph 4 "1.0";
         "-c:v"; "libx264"; "-crf"; "23"; "-map"; "[res]";
         (example_dir ++ "2024-01-02-03-04-05_st4_sp1_q23.mp4")%string ]
  /\ (forall name, In name (video_paths no_left_event) ->
                   ~ has_substring "left" name).
Proof.
  split; [vm_compute; reflexivity|].
  intros name [<- | [<- | [<- | []]]]; apply substring_absent;
    vm_compute; reflexivity.
Qed.

(** C5 (the code departs from the claim). The composer looks the left and
    the right view up under the labels [left] and [right], where the
    properties [left] and [right] of the event use [left_repeater] and
    [right_repeater]. With four files, one for each view, of which the
    front file has a name that goes on with [_left], the third input is
    the front file; with the files of six cameras the third and fourth
    inputs are the pillar files. In both events the property [views]
    names the files of the four views. *)
Theorem compose_inputs_follow_bare_labels :
  (event_groups [right_mp4; left_mp4; front_left_mp4; back_mp4]
   = Ok [(example_id, video_paths front_left_event)]
   /\ SentryEvent_views front_left_event
      = Ok (map parse_path
              [(session_dir ++ front_left_mp4)%string;
               (session_dir ++ back_mp4)%string;
               (session_dir ++ left_mp4)%string;
               (session_dir ++ right_mp4)%string])
   /\ compose_stack_cmd front_left_event 4 2 20 None
      = Ok (command_layout []
              (session_dir ++ front_left_mp4)%string
              (session_dir ++ back_mp4)%string
              (session_dir ++ front_left_mp4)%string
              (session_dir ++ right_mp4)%string
              (spec_filter_graph 4 "0.5") 20
              (session_dir ++ "2024-01-02-03-04-05_st4_sp2_q20.mp4")%string))
  /\
  (event_groups [right_pillar_mp4; right_mp4; left_mp4; left_pillar_mp4;
                 front_mp4; back_mp4]
   = Ok [(example_id, video_paths six_camera_event)]
   /\ SentryEvent_views six_camera_event
      = Ok (map parse_path
              [(session_dir ++ front_mp4)%string;
               (session_dir ++ back_mp4)%string;
               (session_dir ++ left_mp4)%string;
               (session_dir ++ right_mp4)%string])
   /\ compose_stack_cmd six_camera_event 4 2 20 None
      = Ok (command_layout []
              (session_dir ++ front_mp4)%string
              (session_dir ++ back_mp4)%string
              (session_dir ++ left_pillar_mp4)%string
              (session_dir ++ right_pillar_mp4)%string
              (spec_filter_graph 4 "0.5") 20
              (session_dir ++ "2024-01-02-03-04-05_st4_sp2_q20.mp4")%string)).
Proof.
  split; (split; [|split]); vm_compute; reflexivity.
Qed.

(* ================================================================== *)
(** * Grouping *)

Lemma datetime_eqb_eq (a b : datetime) : datetime_eqb a b = true <-> a = b.
Proof.
  unfold datetime_eqb. destruct a, b. simpl.
  rewrite !andb_true_iff, !Z.eqb_eq. split.
  - intros [[[[[-> ->] ->] ->] ->] ->]. reflexivity.
  - intros H. injection H as -> -> -> -> -> ->. auto 10.
Qed.

Lemma datetime_eqb_refl (a : datetime) : datetime_eqb a a = true.
Proof. now apply datetime_eqb_eq. Qed.

Lemma datetime_eqb_neq (a b : datetime) : datetime_eqb a b = false <-> a <> b.
Proof. rewrite <- datetime_eqb_eq. now destruct (datetime_eqb a b). Qed.

Lemma event_groups_step_eq (grps : dict (list string)) (vid : string) :
  event_groups_step grps vid
  = match group_key vid with
    | Some (Ok k) => Ok (dd_append k vid grps)
    | Some (Raise x) => Raise x
    | None => Ok grps
    end.
Proof.
  unfold event_groups_step, group_key.
  destruct (re_match re_vid vid) as [m|]; [|reflexivity].
  destruct (ints_of _) as [args | x]; [|reflexivity]. cbn [bind].
  destruct (datetime_new args); reflexivity.
Qed.

Lemma for_each_file_under (l : list string) :
  forall grps, dates_valid l ->
    for_each l event_groups_step grps = Ok (fold_left file_under l grps).
Proof.
  induction l as [|vid l IH]; intros grps Hv; [reflexivity|].
  cbn [for_each fold_left]. rewrite event_groups_step_eq.
  unfold file_under at 2, key_of.
  destruct (group_key vid) as [[k | x]|] eqn:Hk; cbn [bind].
  - apply IH. intros v x Hin. apply Hv. now right.
  - elim (Hv vid x); [now left | exact Hk].
  - apply IH. intros v x Hin. apply Hv. now right.
Qed.

Lemma dd_get_append (k k' : datetime) (v : string) (grps : dict (list string)) :
  dd_get k' (dd_append k v grps)
  = if datetime_eqb k k' then dd_get k grps ++ [v] else dd_get k' grps.
Proof.
  induction grps as [|[k0 l] grps IH]; simpl.
  - destruct (datetime_eqb k k'); reflexivity.
  - destruct (datetime_eqb k0 k) eqn:E0; simpl.
    + apply datetime_eqb_eq in E0 as ->.
      destruct (datetime_eqb k k'); reflexivity.
    + destruct (datetime_eqb k0 k') eqn:E1.
      * apply datetime_eqb_eq in E1 as ->.
        destruct (datetime_eqb k k') eqn:E2; [|reflexivity].
        apply datetime_eqb_eq in E2 as ->.
        rewrite datetime_eqb_refl in E0. discriminate.
      * exact IH.
Qed.

Lemma dd_append_keys (k : datetime) (v : string) (grps : dict (list string)) :
  map fst (dd_append k v grps)
  = if existsb (fun k' => datetime_eqb k' k) (map fst grps)
    then map fst grps else map fst grps ++ [k].
Proof.
  induction grps as [|[k0 l] grps IH]; simpl; [reflexivity|].
  destruct (datetime_eqb k0 k); simpl; [reflexivity|].
  rewrite IH. now destruct (existsb _ _).
Qed.

Lemma existsb_key (k : datetime) (ks : list datetime) :
  existsb (fun k' => datetime_eqb k' k) ks = true <-> In k ks.
Proof.
  rewrite existsb_exists. split.
  - intros (k' & Hin & E). now apply datetime_eqb_eq in E as <-.
  - intros H. exists k. split; [exact H | apply datetime_eqb_refl].
Qed.

Lemma dd_append_in_keys (k k' : datetime) (v : string)
  (grps : dict (list string)) :
  In k' (map fst (dd_append k v grps)) <-> k' = k \/ In k' (map fst grps).
Proof.
  rewrite dd_append_keys.
  destruct (existsb _ _) eqn:E.
  - apply existsb_key in E. split; [auto | intros [-> | H]; auto].
  - rewrite in_app_iff. simpl. split; intros H; intuition congruence.
Qed.

Lemma dd_append_nodup (k : datetime) (v : string) (grps : dict (list string)) :
  NoDup (map fst grps) -> NoDup (map fst (dd_append k v grps)).
Proof.
  intros H. rewrite dd_append_keys.
  destruct (existsb _ _) eqn:E; [exact H|].
  apply NoDup_app; [exact H | repeat constructor; intros [] |].
  intros k' Hin [<- | []].
  apply existsb_key in Hin. congruence.
Qed.

Lemma dd_get_in (k : datetime) (vs : list string) (grps : dict (list string)) :
  NoDup (map fst grps) -> In (k, vs) grps -> dd_get k grps = vs.
Proof.
  induction grps as [|[k0 l] grps IH]; simpl; intros Hnd Hin; [contradiction|].
  inversion Hnd as [|? ? Hnot Hnd']; subst.
  destruct Hin as [H | H].
  - injection H as -> ->. now rewrite datetime_eqb_refl.
  - destruct (datetime_eqb k0 k) eqn:E.
    + apply datetime_eqb_eq in E as ->. elim Hnot.
      apply (in_map fst) in H. exact H.
    + now apply IH.
Qed.

Lemma in_dd_get (k : datetime) (grps : dict (list string)) :
  In k (map fst grps) -> In (k, dd_get k grps) grps.
Proof.
  induction grps as [|[k0 l] grps IH]; simpl; [contradiction|].
  destruct (datetime_eqb k0 k) eqn:E.
  - apply datetime_eqb_eq in E as ->. now left.
  - intros [-> | H]; [rewrite datetime_eqb_refl in E; discriminate|].
    right. now apply IH.
Qed.

Lemma groups_of_step (seen : list string) (grps : dict (list string))
  (vid : string) :
  groups_of seen grps -> groups_of (seen ++ [vid]) (file_under grps vid).
Proof.
  intros (Hnd & Hkeys & Hget). unfold file_under.
  destruct (key_of vid) as [k|] eqn:Hk.
  - split; [now apply dd_append_nodup | split].
    + intros k'. rewrite dd_append_in_keys, Hkeys. split.
      * intros [-> | (v & Hin & Hv)].
        -- exists vid. split; [apply in_or_app; right; now left | exact Hk].
        -- exists v. split; [apply in_or_app; now left | exact Hv].
      * intros (v & Hin & Hv). apply in_app_or in Hin as [Hin | [<- | []]].
        -- right. now exists v.
        -- left. congruence.
    + intros k'. rewrite dd_get_append, filter_app, !Hget. cbn [filter].
      assert (has_key k' vid = datetime_eqb k k') as ->
          by (unfold has_key; now rewrite Hk).
      destruct (datetime_eqb k k') eqn:E.
      * apply datetime_eqb_eq in E as ->. reflexivity.
      * now rewrite app_nil_r.
  - split; [exact Hnd | split].
    + intros k'. rewrite Hkeys. split.
      * intros (v & Hin & Hv). exists v. split; [apply in_or_app; now left|].
        exact Hv.
      * intros (v & Hin & Hv). apply in_app_or in Hin as [Hin | [<- | []]].
        -- now exists v.
        -- congruence.
    + intros k'. rewrite filter_app, Hget. cbn [filter].
      assert (has_key k' vid = false) as ->
          by (unfold has_key; now rewrite Hk).
      now rewrite app_nil_r.
Qed.

Lemma groups_of_fold (l : list string) :
  forall seen grps,
    groups_of seen grps -> groups_of (seen ++ l) (fold_left file_under l grps).
Proof.
  induction l as [|vid l IH]; intros seen grps H; simpl.
  - now rewrite app_nil_r.
  - replace (seen ++ vid :: l) with ((seen ++ [vid]) ++ l)
      by (now rewrite <- app_assoc).
    apply IH. now apply groups_of_step.
Qed.

Lemma groups_of_nil : groups_of [] [].
Proof.
  split; [constructor | split].
  - intros k. simpl. split; [contradiction | intros (v & [] & _)].
  - reflexivity.
Qed.

(* ================================================================== *)
(** * Sorting names *)

Lemma insert_sorted_perm (x : string) (l : list string) :
  Permutation (insert_sorted x l) (x :: l).
Proof.
  induction l as [|y l IH]; simpl; [reflexivity|].
  destruct (String.leb x y); [reflexivity|].
  rewrite IH. apply perm_swap.
Qed.

Lemma sorted_perm (l : list string) : Permutation (sorted l) l.
Proof.
  induction l as [|x l IH]; simpl; [reflexivity|].
  rewrite insert_sorted_perm. now constructor.
Qed.

Lemma insert_sorted_sorted (x : string) (l : list string) :
  Sorted name_le l -> Sorted name_le (insert_sorted x l).
Proof.
  induction 1 as [|y l Hs IH Hhd]; simpl; [repeat constructor|].
  destruct (String.leb x y) eqn:E.
  - constructor; [now constructor | now constructor].
  - constructor; [exact IH|].
    assert (name_le y x) as Hyx
        by (destruct (String.leb_total x y); [congruence | assumption]).
    destruct l as [|z l]; simpl; [now constructor|].
    destruct (String.leb x z); constructor; [exact Hyx|].
    now inversion Hhd.
Qed.

Lemma sorted_sorted (l : list string) : Sorted name_le (sorted l).
Proof.
  induction l as [|x l IH]; simpl; [constructor|].
  now apply insert_sorted_sorted.
Qed.

Lemma sorted_in (l : list string) (v : string) : In v (sorted l) <-> In v l.
Proof.
  split; apply Permutation_in; [|symmetry]; apply sorted_perm.
Qed.

(** The groups of a listing whose matching names all carry a date: the
    keys are distinct; each group is the names of the sorted listing with
    that timestamp, in sorted order, and is not empty; so the groups are
    disjoint and together hold the names with a timestamp, no others. *)
Lemma event_groups_partition (listing : list string) :
  dates_valid listing ->
  exists grps,
    event_groups listing = Ok grps
    /\ NoDup (map fst grps)
    /\ (forall k vs, In (k, vs) grps ->
          vs = filter (has_key k) (sorted listing) /\ vs <> [])
    /\ (forall k1 vs1 k2 vs2 v,
          In (k1, vs1) grps -> In (k2, vs2) grps ->
          In v vs1 -> In v vs2 -> (k1, vs1) = (k2, vs2))
    /\ (forall v, (exists k vs, In (k, vs) grps /\ In v vs)
                  <-> In v listing /\ key_of v <> None).
Proof.
  intros Hv. unfold event_groups.
  assert (dates_valid (sorted listing)) as Hv'.
  { intros v x Hin. apply Hv. now apply sorted_in. }
  rewrite (for_each_file_under _ _ Hv').
  destruct (groups_of_fold (sorted listing) [] [] groups_of_nil)
    as (Hnd & Hkeys & Hget).
  simpl app in *. set (grps := fold_left file_under (sorted listing) []) in *.
  assert (forall k vs, In (k, vs) grps ->
            vs = filter (has_key k) (sorted listing)) as Hgrp.
  { intros k vs Hin. rewrite <- Hget. symmetry. now apply dd_get_in. }
  assert (forall k vs v, In (k, vs) grps -> In v vs -> key_of v = Some k)
    as Hkey.
  { intros k vs v Hin Hvin. rewrite (Hgrp _ _ Hin) in Hvin.
    apply filter_In in Hvin as [_ Hk]. unfold has_key in Hk.
    destruct (key_of v) as [k'|]; [|discriminate].
    now apply datetime_eqb_eq in Hk as ->. }
  exists grps. split; [reflexivity|]. split; [exact Hnd|].
  split; [|split].
  - intros k vs Hin. split; [now apply Hgrp|].
    apply (in_map fst) in Hin as Hk. apply Hkeys in Hk as (v & Hvin & Hvk).
    rewrite (Hgrp _ _ Hin). intros He.
    assert (In v (filter (has_key k) (sorted listing))) as Hf.
    { apply filter_In. split; [exact Hvin|].
      unfold has_key. rewrite Hvk. apply datetime_eqb_refl. }
    now rewrite He in Hf.
  - intros k1 vs1 k2 vs2 v H1 H2 Hv1 Hv2.
    pose proof (Hkey _ _ _ H1 Hv1) as E1.
    pose proof (Hkey _ _ _ H2 Hv2) as E2.
    assert (k1 = k2) as -> by congruence.
    now rewrite (Hgrp _ _ H1), (Hgrp _ _ H2).
  - intros v. split.
    + intros (k & vs & Hin & Hvin). split.
      * rewrite (Hgrp _ _ Hin) in Hvin.
        apply filter_In in Hvin as [Hvin _]. now apply sorted_in.
      * now rewrite (Hkey _ _ _ Hin Hvin).
    + intros [Hin Hk]. destruct (key_of v) as [k|] eqn:E; [|congruence].
      exists k, (dd_get k grps). split.
      * apply in_dd_get, Hkeys. exists v. split; [now apply sorted_in|].
        exact E.
      * rewrite Hget. apply filter_In. split; [now apply sorted_in|].
        unfold has_key. rewrite E. apply datetime_eqb_refl.
Qed.

(** C8 (the code departs from the claim). A listing that holds one name
    with the digits of no date, here month 13, has no groups at all:
    [event_groups] raises [ValueError], also when the other names of the
    listing are well-formed. *)
Theorem event_groups_raises_on_invalid_date :
  event_groups ["2024-13-01_00-00-00-front.mp4"] = Raise ValueError
  /\ event_groups [front_mp4; "2024-13-01_00-00-00-front.mp4"; back_mp4]
     = Raise ValueError
  /\ re_match re_vid "2024-13-01_00-00-00-front.mp4" <> None.
Proof.
  split; [|split]; try (vm_compute; reflexivity). discriminate.
Qed.

(* ================================================================== *)
(** * The loop of [main] *)

Section MainLoop.

Variable fs : Type.
Variable path_exists : fs -> Path -> bool.
Variable sp_run : list string -> fs -> result fs.

Lemma main_loop_app (opt : Namespace) (global_opts : list string)
  (pre post : list SentryEvent) (st : run_state fs) :
  main_loop fs path_exists sp_run opt global_opts (pre ++ post) st
  = match main_loop fs path_exists sp_run opt global_opts pre st with
    | (st', Ok _) =>
        main_loop fs path_exists sp_run opt global_opts post st'
    | (st', Raise x) => (st', Raise x)
    end.
Proof.
  revert st. induction pre as [|e pre IH]; intros st.
  - reflexivity.
  - simpl. unfold mbind.
    destruct (loop_body fs path_exists sp_run opt global_opts e st)
      as [st1 [[]|x]]; [apply IH | reflexivity].
Qed.

(** An exception in the body for one event ends the loop: the events
    after it are not looked at. *)
Lemma main_loop_stops_at_exception (opt : Namespace)
  (global_opts : list string) (pre post : list SentryEvent)
  (e : SentryEvent) (st st' st'' : run_state fs) (x : exn) :
  main_loop fs path_exists sp_run opt global_opts pre st = (st', Ok tt) ->
  loop_body fs path_exists sp_run opt global_opts e st' = (st'', Raise x) ->
  main_loop fs path_exists sp_run opt global_opts (pre ++ e :: post) st
  = (st'', Raise x).
Proof.
  intros Hpre Hbody.
  rewrite main_loop_app, Hpre. simpl. unfold mbind. now rewrite Hbody.
Qed.

Lemma loop_body_without_front (opt : Namespace) (global_opts : list string)
  (e : SentryEvent) (st : run_state fs) :
  (forall name, In name (video_paths e) -> ~ has_substring "front" name) ->
  not_skipped fs path_exists opt e (files st) ->
  loop_body fs path_exists sp_run opt global_opts e st
  = (mkRunState (files st) (trace st ++ [PrintEvent e]), Raise IndexError).
Proof.
  intros Hfront Hskip.
  unfold loop_body, mbind, exists_, emit, lift, ret, front.
  rewrite (get_view_missing _ _ Hfront).
  destruct Hskip as [-> | Hex]; simpl.
  - reflexivity.
  - destruct (opt_overwrite opt); simpl; [reflexivity|].
    rewrite Hex. reflexivity.
Qed.

(** C2 (amended). A missing front view is not isolated to its event:
    the composer has no command for the event, the body of the loop
    raises [IndexError] right after printing the event, and the loop
    ends there. The events before it were processed; the events after
    it have no effect on the outcome. *)
Theorem main_loop_aborts_on_missing_front (opt : Namespace)
  (global_opts : list string) (pre post : list SentryEvent)
  (e : SentryEvent) (st st' : run_state fs) :
  main_loop fs path_exists sp_run opt global_opts pre st = (st', Ok tt) ->
  (forall name, In name (video_paths e) -> ~ has_substring "front" name) ->
  not_skipped fs path_exists opt e (files st') ->
  compose_stack_cmd e (opt_scale opt) (opt_speed opt) (opt_quality opt)
    (Some global_opts) = Raise IndexError
  /\ main_loop fs path_exists sp_run opt global_opts (pre ++ e :: post) st
     = (mkRunState (files st') (trace st' ++ [PrintEvent e]),
        Raise IndexError).
Proof.
  intros Hpre Hfront Hskip. split.
  - apply compose_without_front. now apply get_view_missing.
  - apply (main_loop_stops_at_exception _ _ _ _ _ _ _ _ _ Hpre).
    now apply loop_body_without_front.
Qed.

End MainLoop.

Lemma main_loop_aborts_on_missing_front_witness :
  main_loop unit no_files run_nothing example_opt ["-y"]
    ([four_view_event] ++ no_front_event :: [four_view_event]) start_state
  = (mkRunState tt
       [PrintEvent four_view_event;
        PrintPath (path_join (event_dir four_view_event)
                     (parse_path front_mp4));
        PrintLine (String.concat " " four_view_cmd);
        PrintEvent no_front_event],
     Raise IndexError).
Proof.
  apply (main_loop_aborts_on_missing_front unit no_files run_nothing
           example_opt ["-y"] [four_view_event] [four_view_event]
           no_front_event start_state
           (mkRunState tt
              [PrintEvent four_view_event;
               PrintPath (path_join (event_dir four_view_event)
                            (parse_path front_mp4));
               PrintLine (String.concat " " four_view_cmd)])).
  - vm_compute. reflexivity.
  - intros name [<- | [<- | [<- | []]]]; apply substring_absent;
      vm_compute; reflexivity.
  - left. reflexivity.
Defined.

(** C2 (as stated, refuted). In a batch of an event without a front file
    followed by a complete event the run ends with [IndexError] at the
    first event: the command of the second is never composed or printed,
    although the second event alone is processed to the end. *)
Lemma main_loop_does_not_continue :
  main_loop unit no_files run_nothing example_opt ["-y"]
    [no_front_event; four_view_event] start_state
  = (mkRunState tt [PrintEvent no_front_event], Raise IndexError)
  /\ main_loop unit no_files run_nothing example_opt ["-y"]
       [four_view_event] start_state
     = (mkRunState tt
          [PrintEvent four_view_event;
           PrintPath (path_join (event_dir four_view_event)
                        (parse_path front_mp4));
           PrintLine (String.concat " " four_view_cmd)],
        Ok tt).
Proof.
  split; vm_compute; reflexivity.
Qed.

(* ================================================================== *)
(** * The order of the listing does not matter *)

Lemma ascii_compare_refl (a : ascii) : Ascii.compare a a = Eq.
Proof. unfold Ascii.compare. apply N.compare_refl. Qed.

Lemma string_leb_cons (a b : ascii) (s t : string) :
  String.leb (String a s) (String b t) = true <->
  (N_of_ascii a < N_of_ascii b)%N \/ (a = b /\ String.leb s t = true).
Proof.
  unfold String.leb. simpl. unfold Ascii.compare.
  destruct (N.compare_spec (N_of_ascii a) (N_of_ascii b)) as [E | L | G].
  - assert (a = b) as ->.
    { rewrite <- (ascii_N_embedding a), <- (ascii_N_embedding b).
      now rewrite E. }
    split; [auto | intros [H | [_ H]]; [lia | exact H]].
  - split; [auto | reflexivity].
  - split; [discriminate|].
    intros [H | [-> _]]; lia.
Qed.

Lemma string_leb_trans (s t u : string) :
  String.leb s t = true -> String.leb t u = true -> String.leb s u = true.
Proof.
  revert t u. induction s as [|a s IH]; intros [|b t] [|c u]; try reflexivity;
    try discriminate.
  rewrite !string_leb_cons.
  intros [L1 | [-> H1]] [L2 | [-> H2]].
  - left. lia.
  - now left.
  - now left.
  - right. split; [reflexivity | now apply (IH t)].
Qed.

Lemma name_le_antisym (a b : string) : name_le a b -> name_le b a -> a = b.
Proof. apply String.leb_antisym. Qed.

Lemma sorted_strongly (l : list string) : StronglySorted name_le (sorted l).
Proof.
  apply Sorted_StronglySorted; [|apply sorted_sorted].
  intros a b c. apply string_leb_trans.
Qed.

(** A list of names has one sorted arrangement. *)
Lemma strongly_sorted_unique (l1 l2 : list string) :
  StronglySorted name_le l1 -> StronglySorted name_le l2 ->
  Permutation l1 l2 -> l1 = l2.
Proof.
  intros H1. revert l2. induction H1 as [|a l1 Hs1 IH Ha]; intros l2 H2 Hp.
  - now apply Permutation_nil in Hp.
  - destruct l2 as [|b l2];
      [apply Permutation_sym, Permutation_nil in Hp; discriminate|].
    inversion H2 as [|? ? Hs2 Hb]; subst.
    assert (a = b) as ->.
    { assert (In a (b :: l2)) as Hina
          by (apply (Permutation_in _ Hp); now left).
      assert (In b (a :: l1)) as Hinb
          by (apply (Permutation_in _ (Permutation_sym Hp)); now left).
      destruct Hina as [-> | Hina]; [reflexivity|].
      destruct Hinb as [-> | Hinb]; [reflexivity|].
      rewrite Forall_forall in Ha, Hb.
      apply name_le_antisym; [now apply Ha | now apply Hb]. }
    f_equal. apply IH; [exact Hs2|].
    now apply Permutation_cons_inv in Hp.
Qed.

Lemma sorted_permutation_eq (l1 l2 : list string) :
  Permutation l1 l2 -> sorted l1 = sorted l2.
Proof.
  intros Hp. apply strongly_sorted_unique; try apply sorted_strongly.
  rewrite !sorted_perm. exact Hp.
Qed.

(** The groups do not depend on the order in which the operating system
    lists the directory. *)
Lemma event_groups_order_independent (l1 l2 : list string) :
  Permutation l1 l2 -> event_groups l1 = event_groups l2.
Proof.
  intros Hp. unfold event_groups. now rewrite (sorted_permutation_eq _ _ Hp).
Qed.

(* ================================================================== *)
(** * The events [main] builds *)

(** [main] hands the paths [iterdir] yields, which already start with the
    root, to [SentryEvent] as [date_dir]. For a relative root other than
    the current directory the event directory then names the root twice;
    for an absolute root the join keeps the right operand and the event
    directory is the session directory. *)
Lemma build_events_relative_root :
  build_events unit example_listdir tt (parse_path "./events")
    (events_dir_iter unit example_listdir all_dirs tt (parse_path "./events"))
  = Ok [mkSentryEvent (parse_path "./events")
          (parse_path "events/2024-01-02_03-04-05") example_id
          [back_mp4; front_mp4; left_mp4; right_mp4]]
  /\ path_str
       (event_dir (mkSentryEvent (parse_path "./events")
                     (parse_path "events/2024-01-02_03-04-05") example_id
                     [back_mp4; front_mp4; left_mp4; right_mp4]))
     = "events/events/2024-01-02_03-04-05".
Proof. split; vm_compute; reflexivity. Qed.

Lemma event_dir_absolute_root (root sub : string) (dt : datetime)
  (vids : list string) :
  p_root (parse_path root) <> "" ->
  event_dir (mkSentryEvent (parse_path root)
               (path_join (parse_path root) (parse_path sub)) dt vids)
  = path_join (parse_path root) (parse_path sub).
Proof.
  intros Hroot. unfold event_dir, path_join. cbn [sentry_dir date_dir].
  destruct (String.eqb_spec (p_root (parse_path sub)) "") as [E | E].
  - cbn [p_root p_names].
    destruct (String.eqb_spec (p_root (parse_path root)) "") as [E' | E'];
      [contradiction | reflexivity].
  - destruct (String.eqb_spec (p_root (parse_path sub)) "");
      [contradiction | reflexivity].
Qed.

(** C6 (the code departs from the claim). On the file system of the
    scenario, the root [./events] holding the session directory
    [2024-01-02_03-04-05] with the four files, a run at scale 4, speed 2
    and quality 20 that only prints finds one event and prints its
    command. [main] hands [SentryEvent] the session directory as
    [iterdir] yields it, the root in front, so the event directory names
    the root twice: the four inputs and the output of the command, which
    is the output path of the event, lie in
    [events/events/2024-01-02_03-04-05], not in the session directory.
    The filter graph rescales the timestamps by [0.5]. *)
Theorem end_to_end_names_root_twice :
  main unit example_listdir all_dirs no_files run_nothing keep_opt []
    start_state
  = (mkRunState tt
       [LogOptions keep_opt []; LogFound 1; PrintEvent main_example_event;
        PrintPath (parse_path (doubled_dir ++ front_mp4));
        PrintLine
          (String.concat " "
             (command_layout []
                (doubled_dir ++ front_mp4)%string
                (doubled_dir ++ back_mp4)%string
                (doubled_dir ++ left_mp4)%string
                (doubled_dir ++ right_mp4)%string
                (spec_filter_graph 4 "0.5") 20
                (doubled_dir
                   ++ "2024-01-02-03-04-05_st4_sp2_q20.mp4")%string))],
     Ok tt)
  /\ map (fun name =>
            path_str (path_join (parse_path "events/2024-01-02_03-04-05")
                        (parse_path name)))
       (example_listdir tt (parse_path "events/2024-01-02_03-04-05"))
     = [(example_dir ++ right_mp4)%string; (example_dir ++ front_mp4)%string;
        (example_dir ++ left_mp4)%string; (example_dir ++ back_mp4)%string]
  /\ path_str (output_path main_example_event 4 2 20)
     = "events/events/2024-01-02_03-04-05/2024-01-02-03-04-05_st4_sp2_q20.mp4"
  /\ path_str
       (parse_path
          "./events/2024-01-02_03-04-05/2024-01-02-03-04-05_st4_sp2_q20.mp4")
     = "events/2024-01-02_03-04-05/2024-01-02-03-04-05_st4_sp2_q20.mp4"
  /\ has_substring "setpts=0.5*PTS" (spec_filter_graph 4 "0.5").
Proof.
  split; [vm_compute; reflexivity|].
  split; [vm_compute; reflexivity|].
  split; [vm_compute; reflexivity|].
  split; [vm_compute; reflexivity|].
  apply substring_present. vm_compute. reflexivity.
Qed.

(* ================================================================== *)
(** * Digit runs and the numbers they denote *)

Lemma digits_value_acc (s : string) :
  forall a, digits_value a s
            = a * 10 ^ Z.of_nat (String.length s) + digits_value 0 s.
Proof.
  induction s as [|c s IH]; intros a.
  - simpl. lia.
  - cbn [digits_value String.length].
    rewrite IH, (IH (10 * 0 + digit_val c)), Nat2Z.inj_succ, Z.pow_succ_r
      by lia.
    lia.
Qed.

Lemma is_digit_val (c : ascii) : is_digit c = true -> 0 <= digit_val c <= 9.
Proof.
  unfold is_digit, digit_val. intros H.
  apply andb_prop in H as [H1 H2].
  apply Z.leb_le in H1, H2. lia.
Qed.

Lemma digit_val_inj (c c' : ascii) : digit_val c = digit_val c' -> c = c'.
Proof.
  unfold digit_val. intros H.
  rewrite <- (ascii_N_embedding c), <- (ascii_N_embedding c').
  f_equal. lia.
Qed.

Lemma digits_value_bound (s : string) :
  forallb_string is_digit s = true ->
  0 <= digits_value 0 s < 10 ^ Z.of_nat (String.length s).
Proof.
  induction s as [|c s IH]; intros H.
  - simpl. lia.
  - cbn [forallb_string] in H. apply andb_prop in H as [Hc Hs].
    cbn [digits_value String.length].
    rewrite digits_value_acc, Nat2Z.inj_succ, Z.pow_succ_r by lia.
    pose proof (is_digit_val _ Hc). specialize (IH Hs). nia.
Qed.

(** Digit runs of one length that denote the same number are the same. *)
Lemma digits_value_inj (a : string) :
  forall b, String.length a = String.length b ->
            forallb_string is_digit a = true ->
            forallb_string is_digit b = true ->
            digits_value 0 a = digits_value 0 b -> a = b.
Proof.
  induction a as [|c a IH]; intros [|c' b] Hlen Ha Hb Hv; try discriminate.
  - reflexivity.
  - cbn [forallb_string] in Ha, Hb.
    apply andb_prop in Ha as [Hc Ha]. apply andb_prop in Hb as [Hc' Hb].
    injection Hlen as Hlen.
    cbn [digits_value] in Hv.
    rewrite (digits_value_acc a), (digits_value_acc b), <- Hlen in Hv.
    pose proof (digits_value_bound _ Ha) as Ba.
    pose proof (digits_value_bound _ Hb) as Bb. rewrite <- Hlen in Bb.
    pose proof (is_digit_val _ Hc). pose proof (is_digit_val _ Hc').
    assert (digit_val c = digit_val c') as Hd by nia.
    apply digit_val_inj in Hd as ->.
    f_equal. apply IH; auto. nia.
Qed.

(** Reading a digit run and padding the number back gives the run. *)
Lemma zero_pad_digits_value (k : nat) (w : string) :
  digit_string (S k) w -> zero_pad (S k) (digits_value 0 w) = w.
Proof.
  intros [Hlen Hall].
  pose proof (digits_value_bound _ Hall) as Hb. rewrite Hlen in Hb.
  destruct (zero_pad_spec k _ Hb) as [[Hl Hd] Hv].
  apply digits_value_inj; auto. congruence.
Qed.

Lemma digits_no_char (c : ascii) (s : string) :
  is_digit c = false -> forallb_string is_digit s = true -> no_char c s.
Proof.
  intros Hc. apply forallb_string_impl. intros x Hx.
  destruct (Ascii.eqb_spec x c) as [-> | _]; [congruence | reflexivity].
Qed.

Lemma digit_val_leading (c : ascii) :
  is_digit c = true -> Ascii.eqb "0" c = false -> 1 <= digit_val c.
Proof.
  intros Hd Hz. pose proof (is_digit_val _ Hd) as Hv.
  destruct (Z.eq_dec (digit_val c) 0) as [E | E]; [|lia].
  assert (c = "0"%char) as -> by (apply digit_val_inj; rewrite E; reflexivity).
  rewrite Ascii.eqb_refl in Hz. discriminate.
Qed.

(** A numeral of [n] digits denotes a number of at least [10 ^ (n - 1)]. *)
Lemma digits_value_leading (w : string) :
  positive_numeral w ->
  10 ^ Z.of_nat (Nat.pred (String.length w)) <= digits_value 0 w.
Proof.
  intros (Hd & Hz & Hne). destruct w as [|c w]; [contradiction|].
  cbn [forallb_string] in Hd. apply andb_prop in Hd as [Hc Hw].
  cbn [starts_with] in Hz. rewrite andb_true_r in Hz.
  pose proof (digit_val_leading _ Hc Hz).
  pose proof (digits_value_bound _ Hw).
  pose proof (Z.pow_nonneg 10 (Z.of_nat (String.length w)) ltac:(lia)).
  cbn [digits_value String.length Nat.pred]. rewrite digits_value_acc.
  nia.
Qed.

Lemma digits_of_leading (fuel : nat) :
  forall n acc, 1 <= n < 10 ^ Z.of_nat fuel ->
                starts_with "0" (digits_of fuel n acc) = false.
Proof.
  induction fuel as [|fuel IH]; intros n acc Hn.
  - simpl in Hn. lia.
  - simpl digits_of. destruct (n <? 10) eqn:Hlt.
    + apply Z.ltb_lt in Hlt. cbn [starts_with]. rewrite andb_true_r.
      rewrite Z.mod_small by lia.
      apply Ascii.eqb_neq. intros E.
      destruct (digit_char_spec n ltac:(lia)) as [_ Hv].
      rewrite <- E in Hv. change (0 = n) in Hv. lia.
    + apply Z.ltb_ge in Hlt. apply IH.
      rewrite Nat2Z.inj_succ, Z.pow_succ_r in Hn by lia.
      split; [apply Z.div_le_lower_bound; lia|].
      apply Z.div_lt_upper_bound; lia.
Qed.

(** [str] of a positive integer is a positive numeral. *)
Lemma str_of_nonneg_numeral (n : Z) :
  1 <= n -> positive_numeral (str_of_nonneg n).
Proof.
  intros Hn. split; [apply str_of_nonneg_digits|].
  split; [|apply str_of_nonneg_nonempty].
  unfold str_of_nonneg. apply digits_of_leading. split; [exact Hn|].
  rewrite Nat2Z.inj_succ, Z2Nat.id by apply Z.log2_nonneg.
  apply Z.lt_le_trans with (2 ^ Z.succ (Z.log2 n)).
  - apply Z.log2_spec. lia.
  - apply Z.pow_le_mono_l. lia.
Qed.

(** A number has one numeral. *)
Lemma numeral_unique (a b : string) :
  positive_numeral a -> positive_numeral b ->
  digits_value 0 a = digits_value 0 b -> a = b.
Proof.
  intros Ha Hb Hv.
  pose proof (digits_value_leading _ Ha) as La.
  pose proof (digits_value_leading _ Hb) as Lb.
  destruct Ha as (Da & _ & Na), Hb as (Db & _ & Nb).
  pose proof (digits_value_bound _ Da) as Ba.
  pose proof (digits_value_bound _ Db) as Bb.
  apply digits_value_inj; auto.
  destruct a as [|ca a]; [contradiction|].
  destruct b as [|cb b]; [contradiction|].
  cbn [String.length Nat.pred] in *. f_equal.
  destruct (Nat.lt_trichotomy (String.length a) (String.length b))
    as [H | [H | H]]; [exfalso | exact H | exfalso].
  - assert (10 ^ Z.of_nat (S (String.length a))
            <= 10 ^ Z.of_nat (String.length b))
      by (apply Z.pow_le_mono_r; lia).
    lia.
  - assert (10 ^ Z.of_nat (S (String.length b))
            <= 10 ^ Z.of_nat (String.length a))
      by (apply Z.pow_le_mono_r; lia).
    lia.
Qed.

(** Reading a numeral and printing the number gives the numeral. *)
Lemma str_of_nonneg_digits_value (w : string) :
  positive_numeral w -> str_of_nonneg (digits_value 0 w) = w.
Proof.
  intros Hw. pose proof (digits_value_leading _ Hw) as Hl.
  pose proof (Z.pow_pos_nonneg 10 (Z.of_nat (Nat.pred (String.length w)))
                ltac:(lia) ltac:(lia)) as Hp.
  apply numeral_unique; [apply str_of_nonneg_numeral; lia | exact Hw|].
  apply str_of_nonneg_value. lia.
Qed.

(** The numerals of the numbers from 1000 to 9999 have four digits. *)
Lemma numeral_four_digits (w : string) :
  positive_numeral w -> 1000 <= digits_value 0 w <= 9999 ->
  String.length w = 4%nat.
Proof.
  intros Hw Hv. pose proof (digits_value_leading _ Hw) as Hl.
  destruct Hw as (Hd & _ & _). pose proof (digits_value_bound _ Hd) as Hb.
  destruct (String.length w) as [|[|[|[|[|n]]]]];
    [ simpl in Hb; lia | simpl in Hb; lia | simpl in Hb; lia
    | simpl in Hb; lia | reflexivity | exfalso ].
  cbn [Nat.pred] in Hl.
  assert (10 ^ 4 <= 10 ^ Z.of_nat (S (S (S (S n)))))
    by (apply Z.pow_le_mono_r; lia).
  lia.
Qed.

(* ================================================================== *)
(** * When grouping fails, and what its keys are *)

(** A name that matches [re_vid] has a timestamp, and its key is the
    [datetime] of the six numbers or the [ValueError] of the constructor. *)
Lemma group_key_some (name : string) (r : result datetime) :
  group_key name = Some r ->
  exists Y Mo D h mi s,
    name_timestamp name Y Mo D h mi s /\
    r = datetime_new [digits_value 0 Y; digits_value 0 Mo; digits_value 0 D;
                      digits_value 0 h; digits_value 0 mi; digits_value 0 s].
Proof.
  unfold group_key. destruct (re_match re_vid name) as [m|] eqn:Hm;
    [|discriminate].
  intros H.
  destruct (re_vid_match_fields _ _ Hm)
    as (fields & (view & rest & _ & Y & Mo & D & h & mi & s & HY & HMo & HD
                  & Hh & Hmi & Hs & Hname & ->) & Hi).
  rewrite Hi in H. cbn [bind] in H.
  exists Y, Mo, D, h, mi, s. split; [|congruence].
  unfold name_timestamp. repeat split; try apply HY; try apply HMo;
    try apply HD; try apply Hh; try apply Hmi; try apply Hs.
  now exists (view ++ ".mp4" ++ rest)%string.
Qed.

Lemma datetime_new_six (y mo d h mi s : Z) :
  datetime_new [y; mo; d; h; mi; s]
  = if valid_datetime (mkDatetime y mo d h mi s)
    then Ok (mkDatetime y mo d h mi s) else Raise ValueError.
Proof. reflexivity. Qed.

Lemma group_key_raise (name : string) (x : exn) :
  group_key name = Some (Raise x) -> x = ValueError.
Proof.
  intros H. apply group_key_some in H as (Y & Mo & D & h & mi & s & _ & H).
  rewrite datetime_new_six in H.
  destruct (valid_datetime _); [discriminate | now injection H].
Qed.

Lemma group_key_ok (name : string) (k : datetime) :
  group_key name = Some (Ok k) ->
  valid_datetime k = true /\
  exists Y Mo D h mi s,
    name_timestamp name Y Mo D h mi s /\
    k = mkDatetime (digits_value 0 Y) (digits_value 0 Mo) (digits_value 0 D)
          (digits_value 0 h) (digits_value 0 mi) (digits_value 0 s).
Proof.
  intros H. apply group_key_some in H as (Y & Mo & D & h & mi & s & Hn & H).
  rewrite datetime_new_six in H.
  destruct (valid_datetime _) eqn:Hv; [|discriminate].
  injection H as ->. split; [exact Hv|]. now exists Y, Mo, D, h, mi, s.
Qed.

Lemma for_each_groups_raise (l : list string) :
  forall grps x,
    for_each l event_groups_step grps = Raise x ->
    exists vid, In vid l /\ group_key vid = Some (Raise x).
Proof.
  induction l as [|v l IH]; intros grps x H; [discriminate|].
  cbn [for_each] in H. rewrite event_groups_step_eq in H.
  destruct (group_key v) as [[k | y]|] eqn:Hk; cbn [bind] in H.
  - destruct (IH _ _ H) as (vid & Hin & Hv). exists vid. split; [now right|].
    exact Hv.
  - injection H as ->. exists v. split; [now left | exact Hk].
  - destruct (IH _ _ H) as (vid & Hin & Hv). exists vid. split; [now right|].
    exact Hv.
Qed.

Lemma for_each_groups_ok (l : list string) :
  forall grps res,
    for_each l event_groups_step grps = Ok res -> dates_valid l.
Proof.
  induction l as [|v l IH]; intros grps res H vid x Hin; [contradiction|].
  cbn [for_each] in H. rewrite event_groups_step_eq in H.
  destruct Hin as [<- | Hin].
  - destruct (group_key v) as [[k | y]|]; try discriminate.
  - destruct (group_key v) as [[k | y]|]; cbn [bind] in H; try discriminate;
      exact (IH _ _ H vid x Hin).
Qed.

Lemma dates_valid_sorted (l : list string) :
  dates_valid l <-> dates_valid (sorted l).
Proof.
  split; intros H vid x Hin; apply H; now apply sorted_in.
Qed.

Lemma event_groups_ok_valid (l : list string) (grps : dict (list string)) :
  event_groups l = Ok grps -> dates_valid l.
Proof.
  intros H. apply dates_valid_sorted. exact (for_each_groups_ok _ _ _ H).
Qed.

(** The members of a group are names of the listing with the key. *)
Lemma event_groups_member (l : list string) (grps : dict (list string))
  (k : datetime) (vs : list string) (v : string) :
  event_groups l = Ok grps -> In (k, vs) grps -> In v vs ->
  In v l /\ group_key v = Some (Ok k).
Proof.
  intros H Hin Hv.
  destruct (event_groups_partition l (event_groups_ok_valid _ _ H))
    as (grps' & H' & _ & Hgrp & _ & _).
  assert (grps' = grps) as -> by congruence.
  destruct (Hgrp _ _ Hin) as [-> _].
  apply filter_In in Hv as [Hv Hk]. split; [now apply sorted_in|].
  unfold has_key, key_of in Hk.
  destruct (group_key v) as [[k' | x]|]; try discriminate.
  now apply datetime_eqb_eq in Hk as ->.
Qed.

(** X1. [event_groups] fails only with [ValueError], and it fails exactly
    when some name of the listing matches [re_vid] with six numbers that
    [datetime] rejects. *)
Theorem event_groups_raises_iff (listing : list string) :
  (forall x, event_groups listing = Raise x -> x = ValueError)
  /\ ((exists x, event_groups listing = Raise x) <->
      exists vid m args,
        In vid listing /\ re_match re_vid vid = Some m /\
        ints_of (removelast (groups re_vid m)) = Ok args /\
        datetime_new args = Raise ValueError).
Proof.
  assert (forall x, event_groups listing = Raise x ->
                    x = ValueError /\
                    exists vid, In vid listing
                                /\ group_key vid = Some (Raise ValueError))
    as Hraise.
  { intros x H. apply for_each_groups_raise in H as (vid & Hin & Hk).
    pose proof (group_key_raise _ _ Hk) as ->. split; [reflexivity|].
    exists vid. split; [now apply sorted_in | exact Hk]. }
  split; [intros x H; now apply Hraise | split].
  - intros [x H]. destruct (Hraise _ H) as (_ & vid & Hin & Hk).
    unfold group_key in Hk.
    destruct (re_match re_vid vid) as [m|] eqn:Hm; [|discriminate].
    destruct (re_vid_match_fields _ _ Hm) as (fields & _ & Hf).
    rewrite Hf in Hk. cbn [bind] in Hk.
    exists vid, m, fields. repeat split; auto. congruence.
  - intros (vid & m & args & Hin & Hm & Hi & Hd).
    destruct (event_groups listing) as [grps | x] eqn:H; [|now exists x].
    elim (event_groups_ok_valid _ _ H vid ValueError Hin).
    unfold group_key. rewrite Hm, Hi. cbn [bind]. now rewrite Hd.
Qed.

Lemma event_groups_raises_iff_witness :
  exists x, event_groups [front_mp4; "2024-02-30_00-00-00-front.mp4"] = Raise x.
Proof.
  apply (proj2 (event_groups_raises_iff
                  [front_mp4; "2024-02-30_00-00-00-front.mp4"])).
  eexists "2024-02-30_00-00-00-front.mp4", _, _.
  split; [simpl; tauto|]. split; [vm_compute; reflexivity|].
  split; vm_compute; reflexivity.
Defined.

(** X2. [event_groups] returns the empty dictionary exactly when no name
    of the listing matches [re_vid]; an empty listing is one such case. *)
Theorem event_groups_empty_iff (listing : list string) :
  event_groups listing = Ok [] <->
  forall vid, In vid listing -> re_match re_vid vid = None.
Proof.
  split.
  - intros H vid Hin.
    destruct (event_groups_partition listing (event_groups_ok_valid _ _ H))
      as (grps & H' & _ & _ & _ & Hunion).
    assert (grps = []) as -> by congruence.
    destruct (re_match re_vid vid) as [m|] eqn:Hm; [|reflexivity].
    destruct (group_key vid) as [[k | x]|] eqn:Hk.
    + destruct (proj2 (Hunion vid)) as (k' & vs & [] & _).
      split; [exact Hin|]. unfold key_of. now rewrite Hk.
    + elim (event_groups_ok_valid _ _ H vid x Hin Hk).
    + unfold group_key in Hk. rewrite Hm in Hk. discriminate.
  - intros H.
    assert (dates_valid listing) as Hv.
    { intros vid x Hin. unfold group_key. now rewrite (H vid Hin). }
    destruct (event_groups_partition listing Hv)
      as (grps & H' & _ & Hgrp & _ & Hunion).
    rewrite H'. f_equal. destruct grps as [|[k vs] grps]; [reflexivity|].
    destruct (Hgrp k vs (or_introl eq_refl)) as [Hvs Hne].
    destruct vs as [|v vs]; [contradiction|].
    destruct (proj1 (Hunion v)) as [Hin Hk].
    { exists k, (v :: vs). split; now left. }
    elim Hk. unfold key_of, group_key. now rewrite (H v Hin).
Qed.

Lemma event_groups_empty_iff_witness :
  event_groups ["index.html"; "thumb.png"; "2024-01-02_03-04-05-front.avi"]
  = Ok [].
Proof.
  apply (proj2 (event_groups_empty_iff
                  ["index.html"; "thumb.png";
                   "2024-01-02_03-04-05-front.avi"])).
  intros vid [<- | [<- | [<- | []]]]; vm_compute; reflexivity.
Defined.

(* ================================================================== *)
(** * What the groups are *)

(** X3. Whenever [event_groups] returns, its keys are distinct, each group
    is not empty and lists, in sorted order, exactly the names of the
    listing whose timestamp is the key; so a name is in at most one group,
    and it is in one exactly when it matches [re_vid]. *)
Theorem event_groups_partitions_listing (listing : list string)
  (grps : dict (list string)) :
  event_groups listing = Ok grps ->
  NoDup (map fst grps)
  /\ (forall k vs, In (k, vs) grps ->
        vs <> [] /\ vs = filter (has_key k) (sorted listing)
        /\ forall v, In v vs <-> In v listing /\ group_key v = Some (Ok k))
  /\ (forall k1 vs1 k2 vs2 v,
        In (k1, vs1) grps -> In (k2, vs2) grps ->
        In v vs1 -> In v vs2 -> (k1, vs1) = (k2, vs2))
  /\ (forall v, (exists k vs, In (k, vs) grps /\ In v vs)
                <-> In v listing /\ re_match re_vid v <> None).
Proof.
  intros H. pose proof (event_groups_ok_valid _ _ H) as Hvalid.
  destruct (event_groups_partition listing Hvalid)
    as (grps' & H' & Hnd & Hgrp & Hdis & Hunion).
  assert (grps' = grps) as -> by congruence.
  split; [exact Hnd|]. split; [|split; [exact Hdis|]].
  - intros k vs Hin. destruct (Hgrp _ _ Hin) as [Hvs Hne].
    split; [exact Hne|]. split; [exact Hvs|].
    intros v. split.
    + intros Hv. exact (event_groups_member _ _ _ _ _ H Hin Hv).
    + intros [Hv Hk]. rewrite Hvs. apply filter_In.
      split; [now apply sorted_in|].
      unfold has_key, key_of. rewrite Hk. apply datetime_eqb_refl.
  - intros v. rewrite Hunion. split; intros [Hin Hk]; (split; [exact Hin|]).
    + intros Hm. apply Hk. unfold key_of, group_key. now rewrite Hm.
    + unfold key_of. destruct (group_key v) as [[k | x]|] eqn:E.
      * discriminate.
      * elim (Hvalid v x Hin E).
      * unfold group_key in E.
        destruct (re_match re_vid v); [discriminate | contradiction].
Qed.

Lemma event_groups_partitions_listing_witness :
  NoDup (map fst [(example_id, video_paths four_view_event)]).
Proof.
  apply (event_groups_partitions_listing
           [right_mp4; "notes.txt"; front_mp4; left_mp4; back_mp4]).
  vm_compute. reflexivity.
Defined.

(** X4. The groups, and the order of the files in them, do not depend on
    the order in which the directory is listed. *)
Theorem event_groups_listing_order (l1 l2 : list string) :
  Permutation l1 l2 -> event_groups l1 = event_groups l2.
Proof. apply event_groups_order_independent. Qed.

Lemma event_groups_listing_order_witness :
  event_groups [right_mp4; front_mp4; back_mp4]
  = event_groups [front_mp4; right_mp4; back_mp4].
Proof.
  apply event_groups_listing_order. apply perm_swap.
Defined.

(** X5. The key of a group is the timestamp of its files. In a listing
    of ASCII names every file of a group starts with six digit runs
    [Y-Mo-D_h-mi-s]; the key is a valid date whose fields are the numbers
    the runs denote; and [strftime] prints the key as the number of the
    year and the other five runs, which are the six runs of the name when
    the year does not start with a zero. *)
Theorem event_groups_key_prints_digits (listing : list string)
  (grps : dict (list string)) (k : datetime) (vs : list string) (v : string) :
  Forall ascii_text listing ->
  event_groups listing = Ok grps -> In (k, vs) grps -> In v vs ->
  valid_datetime k = true /\
  exists Y Mo D h mi s,
    name_timestamp v Y Mo D h mi s /\
    datetime_fields k
    = [digits_value 0 Y; digits_value 0 Mo; digits_value 0 D;
       digits_value 0 h; digits_value 0 mi; digits_value 0 s] /\
    strftime k
    = (str_of_int (digits_value 0 Y) ++ "-" ++ Mo ++ "-" ++ D ++ "-" ++ h
         ++ "-" ++ mi ++ "-" ++ s)%string /\
    (starts_with "0" Y = false ->
     strftime k
     = (Y ++ "-" ++ Mo ++ "-" ++ D ++ "-" ++ h ++ "-" ++ mi ++ "-"
          ++ s)%string).
Proof.
  intros _ H Hin Hv.
  destruct (event_groups_member _ _ _ _ _ H Hin Hv) as [_ Hk].
  apply group_key_ok in Hk as (Hvalid & Y & Mo & D & h & mi & s & Hn & ->).
  split; [exact Hvalid|]. exists Y, Mo, D, h, mi, s. split; [exact Hn|].
  destruct Hn as (HY & HMo & HD & Hh & Hmi & Hs & _).
  split; [reflexivity|].
  assert (strftime
            (mkDatetime (digits_value 0 Y) (digits_value 0 Mo)
               (digits_value 0 D) (digits_value 0 h) (digits_value 0 mi)
               (digits_value 0 s))
          = (str_of_nonneg (digits_value 0 Y) ++ "-" ++ Mo ++ "-" ++ D ++ "-"
               ++ h ++ "-" ++ mi ++ "-" ++ s)%string) as Ht.
  { unfold strftime. cbn [year month day hour minute second].
    now rewrite !zero_pad_digits_value. }
  rewrite Ht. split.
  - unfold str_of_int.
    pose proof (digits_value_bound _ (proj2 HY)) as Hb.
    destruct (Z.ltb_spec (digits_value 0 Y) 0) as [Hlt | _]; [lia|].
    reflexivity.
  - intros Hz. rewrite str_of_nonneg_digits_value; [reflexivity|].
    destruct HY as [Hl Hd]. split; [exact Hd|]. split; [exact Hz|].
    intros ->. discriminate Hl.
Qed.

Lemma event_groups_key_prints_digits_witness :
  valid_datetime example_id = true /\
  exists Y Mo D h mi s,
    name_timestamp left_mp4 Y Mo D h mi s /\
    datetime_fields example_id
    = [digits_value 0 Y; digits_value 0 Mo; digits_value 0 D;
       digits_value 0 h; digits_value 0 mi; digits_value 0 s] /\
    strftime example_id
    = (str_of_int (digits_value 0 Y) ++ "-" ++ Mo ++ "-" ++ D ++ "-" ++ h
         ++ "-" ++ mi ++ "-" ++ s)%string /\
    (starts_with "0" Y = false ->
     strftime example_id
     = (Y ++ "-" ++ Mo ++ "-" ++ D ++ "-" ++ h ++ "-" ++ mi ++ "-"
          ++ s)%string).
Proof.
  apply (event_groups_key_prints_digits
           [right_mp4; front_mp4; left_mp4; back_mp4]
           [(example_id, video_paths four_view_event)] example_id
           (video_paths four_view_event) left_mp4).
  - repeat (apply Forall_cons; [vm_compute; reflexivity|]). apply Forall_nil.
  - vm_compute. reflexivity.
  - now left.
  - simpl. tauto.
Defined.

(* ================================================================== *)
(** * The output path *)

Lemma days_in_month_le (y m : Z) : days_in_month y m <= 31.
Proof.
  unfold days_in_month.
  destruct (m =? 2); [destruct (is_leap y); lia|].
  destruct ((m =? 4) || (m =? 6) || (m =? 9) || (m =? 11)); lia.
Qed.

(** [strftime] prints a valid timestamp with the year as its numeral and
    the other fields in two digits. *)
Lemma strftime_printed (dt : datetime) :
  valid_datetime dt = true -> timestamp_printed dt (strftime dt).
Proof.
  unfold valid_datetime. intros H.
  repeat (apply andb_prop in H as [H ?]).
  repeat match goal with
    | H : (_ <=? _) = true |- _ => apply Z.leb_le in H
    end.
  pose proof (days_in_month_le (year dt) (month dt)).
  destruct (zero_pad_spec 1 (month dt)) as [HMo HMo']; [simpl; lia|].
  destruct (zero_pad_spec 1 (day dt)) as [HD HD']; [simpl; lia|].
  destruct (zero_pad_spec 1 (hour dt)) as [Hh Hh']; [simpl; lia|].
  destruct (zero_pad_spec 1 (minute dt)) as [Hmi Hmi']; [simpl; lia|].
  destruct (zero_pad_spec 1 (second dt)) as [Hs Hs']; [simpl; lia|].
  exists (str_of_nonneg (year dt)), (zero_pad 2 (month dt)),
    (zero_pad 2 (day dt)), (zero_pad 2 (hour dt)),
    (zero_pad 2 (minute dt)), (zero_pad 2 (second dt)).
  split; [apply str_of_nonneg_numeral; lia|].
  split; [exact HMo|]. split; [exact HD|]. split; [exact Hh|].
  split; [exact Hmi|]. split; [exact Hs|].
  split; [apply str_of_nonneg_value; lia|].
  split; [exact HMo'|]. split; [exact HD'|]. split; [exact Hh'|].
  split; [exact Hmi'|]. split; [exact Hs'|].
  reflexivity.
Qed.

(** From the year 1000 on the printed timestamp has the four-digit year
    of [YYYY-MM-DD-HH-MM-SS]. *)
Lemma timestamp_printed_four_digits (dt : datetime) (t : string) :
  timestamp_printed dt t -> 1000 <= year dt <= 9999 -> timestamp_text dt t.
Proof.
  intros (Y & Mo & D & h & mi & s & HY & HMo & HD & Hh & Hmi & Hs & EY & EMo
          & ED & Eh & Emi & Es & Ht) Hy.
  exists Y, Mo, D, h, mi, s.
  split.
  { split; [|apply HY]. apply numeral_four_digits; [exact HY|].
    now rewrite EY. }
  repeat (split; [assumption|]). exact Ht.
Qed.

(** A timestamp is printed in one way. *)
Lemma timestamp_printed_strftime (dt : datetime) (t : string) :
  timestamp_printed dt t -> t = strftime dt.
Proof.
  intros (Y & Mo & D & h & mi & s & HY & HMo & HD & Hh & Hmi & Hs & EY & EMo
          & ED & Eh & Emi & Es & ->).
  unfold strftime. rewrite <- EY, <- EMo, <- ED, <- Eh, <- Emi, <- Es.
  rewrite (str_of_nonneg_digits_value _ HY).
  rewrite (zero_pad_digits_value _ _ HMo), (zero_pad_digits_value _ _ HD),
    (zero_pad_digits_value _ _ Hh), (zero_pad_digits_value _ _ Hmi),
    (zero_pad_digits_value _ _ Hs).
  reflexivity.
Qed.

Lemma timestamp_text_length (dt : datetime) (t : string) :
  timestamp_text dt t -> String.length t = 19%nat.
Proof.
  intros (Y & Mo & D & h & mi & s & [HY _] & [HMo _] & [HD _] & [Hh _]
          & [Hmi _] & [Hs _] & _ & _ & _ & _ & _ & _ & ->).
  repeat rewrite length_append. simpl. lia.
Qed.

(** C9 (amended). The output path reads only the two directories and the
    timestamp of the event, not its files; changing one of scale, speed
    and quality changes its text; and the text is the entry of
    [sentry_dir / date_dir] named by the printed timestamp and the
    suffixes of the three parameters. The timestamp has the year as a
    numeral: the four digits of [YYYY-MM-DD-HH-MM-SS] from the year 1000
    on, fewer below. *)
Theorem output_path_injective_and_form (e : SentryEvent)
  (scale speed quality : Z) :
  valid_datetime (sentry_event_id e) = true ->
  (forall e',
      sentry_dir e' = sentry_dir e -> date_dir e' = date_dir e ->
      sentry_event_id e' = sentry_event_id e ->
      output_path e' scale speed quality = output_path e scale speed quality)
  /\ (forall scale', scale' <> scale ->
        path_str (output_path e scale' speed quality)
        <> path_str (output_path e scale speed quality))
  /\ (forall speed', speed' <> speed ->
        path_str (output_path e scale speed' quality)
        <> path_str (output_path e scale speed quality))
  /\ (forall quality', quality' <> quality ->
        path_str (output_path e scale speed quality')
        <> path_str (output_path e scale speed quality))
  /\ exists t,
       timestamp_printed (sentry_event_id e) t /\
       (1000 <= year (sentry_event_id e) ->
        timestamp_text (sentry_event_id e) t) /\
       path_str (output_path e scale speed quality)
       = entry_text (path_join (sentry_dir e) (date_dir e))
           (t ++ "_st" ++ str_of_int scale ++ "_sp" ++ str_of_int speed
              ++ "_q" ++ str_of_int quality ++ ".mp4").
Proof.
  intros Hvalid. split; [|split; [|split; [|split]]].
  - intros e' Hs Hd Hi.
    unfold output_path, output_name, event_dir. now rewrite Hs, Hd, Hi.
  - intros scale' Hne H. apply output_path_str_inj in H. tauto.
  - intros speed' Hne H. apply output_path_str_inj in H. tauto.
  - intros quality' Hne H. apply output_path_str_inj in H. tauto.
  - exists (strftime (sentry_event_id e)).
    pose proof (strftime_printed _ Hvalid) as Hp.
    split; [exact Hp|]. split; [|apply output_path_str].
    intros Hy. apply timestamp_printed_four_digits; [exact Hp|].
    unfold valid_datetime in Hvalid.
    repeat (apply andb_prop in Hvalid as [Hvalid ?]).
    repeat match goal with
      | H : (_ <=? _) = true |- _ => apply Z.leb_le in H
      end.
    lia.
Qed.

Lemma output_path_injective_and_form_witness :
  path_str (output_path (session_event [front_mp4]) 4 3 20)
  <> path_str (output_path (session_event [front_mp4]) 4 2 20)
  /\ path_str (output_path (session_event [front_mp4]) 4 2 20)
     = (session_dir ++ "2024-01-02-03-04-05_st4_sp2_q20.mp4")%string.
Proof.
  assert (valid_datetime (sentry_event_id (session_event [front_mp4])) = true)
    as Hv by (vm_compute; reflexivity).
  destruct (output_path_injective_and_form (session_event [front_mp4])
              4 2 20 Hv)
    as (_ & _ & Hspeed & _ & t & Ht & _ & Hp).
  split; [apply Hspeed; discriminate|].
  rewrite Hp, (timestamp_printed_strftime _ _ Ht).
  vm_compute. reflexivity.
Defined.

(** C9 (as stated, refuted). The name [0999-01-02_03-04-05-front.mp4]
    is filed under the year 999, a valid timestamp, and the output name of
    its event starts with [999]: it is not a timestamp
    [YYYY-MM-DD-HH-MM-SS] followed by the suffixes of the parameters. *)
Lemma output_name_year_not_four_digits :
  event_groups ["0999-01-02_03-04-05-front.mp4"]
  = Ok [(sentry_event_id year_999_event, video_paths year_999_event)]
  /\ valid_datetime (sentry_event_id year_999_event) = true
  /\ path_str (output_path year_999_event 4 1 23)
     = "/data/events/0999-01-02_03-04-05/999-01-02-03-04-05_st4_sp1_q23.mp4"
  /\ ~ (exists t,
          timestamp_text (sentry_event_id year_999_event) t /\
          output_name year_999_event 4 1 23
          = (t ++ "_st" ++ str_of_int 4 ++ "_sp" ++ str_of_int 1
               ++ "_q" ++ str_of_int 23 ++ ".mp4")%string).
Proof.
  split; [vm_compute; reflexivity|].
  split; [vm_compute; reflexivity|].
  split; [vm_compute; reflexivity|].
  intros (t & Ht & H). apply (f_equal String.length) in H.
  rewrite length_append, (timestamp_text_length _ _ Ht) in H.
  vm_compute in H. discriminate H.
Qed.

(* ================================================================== *)
(** * Output files are no input files *)

(** X6. The name of an output file does not match [re_vid]: where an input
    name has the underscore between date and time, the output name has a
    hyphen, and for a year below 1000 it has fewer than four digits in
    front. Listing an output file beside the inputs leaves the groups as
    they are. *)
Theorem output_name_is_no_input (e : SentryEvent) (scale speed quality : Z)
  (listing : list string) :
  valid_datetime (sentry_event_id e) = true ->
  re_match re_vid (output_name e scale speed quality) = None
  /\ event_groups (output_name e scale speed quality :: listing)
     = event_groups listing.
Proof.
  intros Hvalid.
  assert (re_match re_vid (output_name e scale speed quality) = None) as Hno.
  { destruct (re_match re_vid _) as [m|] eqn:Hm; [|reflexivity].
    destruct (re_vid_match_fields _ _ Hm)
      as (fields & (view & rest & _ & Y' & Mo' & D' & h' & mi' & s'
                    & [_ HY'] & [HMo' _] & [HD' _] & _ & _ & _ & Hname & _)
          & _).
    destruct (strftime_printed _ Hvalid)
      as (Y & Mo & D & h & mi & s & (HY & _ & _) & [HMo _] & [HD _] & _ & _
          & _ & _ & _ & _ & _ & _ & _ & Ht).
    unfold output_name in Hname. rewrite Ht in Hname.
    repeat rewrite append_assoc in Hname. cbn [append] in Hname.
    apply append_sep_inj in Hname as [_ Hname];
      try (apply digits_no_char; [reflexivity | assumption]).
    apply append_inj_length in Hname as [_ Hname]; [|congruence].
    injection Hname as Hname.
    apply append_inj_length in Hname as [_ Hname]; [|congruence].
    discriminate Hname. }
  split; [exact Hno|].
  unfold event_groups. cbn [sorted fold_right].
  fold (sorted listing).
  generalize (@nil (datetime * list string)).
  induction (sorted listing) as [|y l IH]; intros grps.
  - cbn [insert_sorted for_each]. rewrite event_groups_step_eq.
    unfold group_key. now rewrite Hno.
  - cbn [insert_sorted].
    destruct (String.leb _ y).
    + cbn [for_each]. rewrite (event_groups_step_eq grps (output_name _ _ _ _)).
      unfold group_key at 1. rewrite Hno. reflexivity.
    + cbn [for_each]. destruct (event_groups_step grps y); cbn [bind];
        [apply IH | reflexivity].
Qed.

Lemma output_name_is_no_input_witness :
  event_groups listing_with_output
  = event_groups [right_mp4; front_mp4; left_mp4; back_mp4].
Proof.
  assert (valid_datetime (sentry_event_id four_view_event) = true) as Hv
      by (vm_compute; reflexivity).
  destruct (output_name_is_no_input four_view_event 4 2 20
              [right_mp4; front_mp4; left_mp4; back_mp4] Hv) as [_ H].
  rewrite <- H. apply event_groups_order_independent.
  apply perm_swap.
Defined.

(* ================================================================== *)
(** * Output paths of different events *)

Lemma strftime_inj (d1 d2 : datetime) :
  valid_datetime d1 = true -> valid_datetime d2 = true ->
  strftime d1 = strftime d2 -> d1 = d2.
Proof.
  intros H1 H2 H.
  destruct (strftime_printed _ H1)
    as (Y & Mo & D & h & mi & s & (HY & _ & _) & [HMo _] & [HD _] & [Hh _]
        & [Hmi _] & [Hs _] & EY & EMo & ED & Eh & Emi & Es & Ht).
  destruct (strftime_printed _ H2)
    as (Y' & Mo' & D' & h' & mi' & s' & (HY' & _ & _) & [HMo' _] & [HD' _]
        & [Hh' _] & [Hmi' _] & [Hs' _] & EY' & EMo' & ED' & Eh' & Emi' & Es'
        & Ht').
  rewrite Ht, Ht' in H. cbn [append] in H.
  apply append_sep_inj in H as [EY2 H];
    try (apply digits_no_char; [reflexivity | assumption]).
  apply append_inj_length in H as [EMo2 H]; [|congruence].
  injection H as H.
  apply append_inj_length in H as [ED2 H]; [|congruence].
  injection H as H.
  apply append_inj_length in H as [Eh2 H]; [|congruence].
  injection H as H.
  apply append_inj_length in H as [Emi2 H]; [|congruence].
  injection H as H.
  subst. destruct d1, d2. simpl in *. congruence.
Qed.

(** X7. Within one event directory the output path tells the event and
    the parameters: two events with valid timestamps get the same output
    path only for the same timestamp, scale, speed and quality. *)
Theorem output_path_tells_event (e1 e2 : SentryEvent)
  (s1 p1 q1 s2 p2 q2 : Z) :
  valid_datetime (sentry_event_id e1) = true ->
  valid_datetime (sentry_event_id e2) = true ->
  event_dir e1 = event_dir e2 ->
  output_path e1 s1 p1 q1 = output_path e2 s2 p2 q2 ->
  sentry_event_id e1 = sentry_event_id e2 /\ s1 = s2 /\ p1 = p2 /\ q1 = q2.
Proof.
  intros H1 H2 Hdir H. rewrite !output_path_eq, Hdir in H.
  injection H as H. apply app_inv_head in H. injection H as H.
  unfold output_name in H. cbn [append] in H.
  apply append_sep_inj in H as [Ht H];
    try (apply int_chars_no_char; [reflexivity | apply strftime_chars]).
  apply strftime_inj in Ht; auto. split; [exact Ht|].
  assert (output_name e1 s1 p1 q1 = output_name e1 s2 p2 q2) as Hn
      by (unfold output_name; cbn [append]; now rewrite H).
  exact (output_name_inj _ _ _ _ _ _ _ Hn).
Qed.

Lemma output_path_tells_event_witness :
  output_path four_view_event 4 2 20 <> output_path later_event 4 2 20.
Proof.
  intros H.
  assert (valid_datetime (sentry_event_id four_view_event) = true) as H1
      by (vm_compute; reflexivity).
  assert (valid_datetime (sentry_event_id later_event) = true) as H2
      by (vm_compute; reflexivity).
  destruct (output_path_tells_event four_view_event later_event
              4 2 20 4 2 20 H1 H2 eq_refl H) as [E _].
  discriminate E.
Defined.

(* ================================================================== *)
(** * Views *)

(** X8. [get_view] returns the first file, in the order of
    [video_paths], whose name contains the label anywhere; it raises
    [IndexError], and nothing else, exactly when no name contains it. *)
Theorem get_view_first_match (e : SentryEvent) (view : string) :
  (forall p, get_view e view = Ok p <->
             exists before after,
               video_paths e = before ++ p :: after /\
               has_substring view p /\
               forall q, In q before -> ~ has_substring view q)
  /\ (forall x, get_view e view = Raise x -> x = IndexError)
  /\ (get_view e view = Raise IndexError <->
      forall p, In p (video_paths e) -> ~ has_substring view p).
Proof.
  split; [intros p; apply get_view_found | split].
  - apply get_view_raises.
  - apply get_view_raise_iff.
Qed.

Lemma get_view_first_match_witness :
  get_view (example_event ["a-rear.mp4"; "b-front_old.mp4"; "c-front.mp4"])
    "front" = Ok "b-front_old.mp4".
Proof.
  apply (proj1 (get_view_first_match _ "front")).
  exists ["a-rear.mp4"], ["c-front.mp4"]. split; [reflexivity|].
  split; [apply substring_present; vm_compute; reflexivity|].
  intros q [<- | []]. apply substring_absent. vm_compute. reflexivity.
Defined.

Lemma property_ok (e : SentryEvent) (label : string) :
  (exists p, (p <- get_view e label ;;
              Ok (path_join (event_dir e) (parse_path p))) = Ok p)
  <-> label_present label e.
Proof.
  split.
  - intros [p H]. destruct (get_view e label) as [f | x] eqn:Hf;
      [|discriminate].
    apply get_view_found in Hf as (bf & af & Hv & Hs & _).
    exists f. split; [rewrite Hv; apply in_elt | exact Hs].
  - intros (name & Hin & Hs).
    destruct (get_view_some _ _ _ Hin Hs) as [f ->]. cbn [bind]. eauto.
Qed.

(** X9. The property [views] gives four paths exactly when some file name
    contains [front], some [back], some [left_repeater] and some
    [right_repeater]; otherwise it raises [IndexError]. Each path is the
    event directory joined with a file of the event that contains the
    label. *)
Theorem views_needs_all_four (e : SentryEvent) :
  ((exists ps, SentryEvent_views e = Ok ps) <->
   label_present "front" e /\ label_present "back" e /\
   label_present "left_repeater" e /\ label_present "right_repeater" e)
  /\ (forall x, SentryEvent_views e = Raise x -> x = IndexError)
  /\ (forall ps, SentryEvent_views e = Ok ps ->
        exists f b l r,
          ps = map (fun p => path_join (event_dir e) (parse_path p))
                 [f; b; l; r] /\
          get_view e "front" = Ok f /\ get_view e "back" = Ok b /\
          get_view e "left_repeater" = Ok l /\
          get_view e "right_repeater" = Ok r).
Proof.
  unfold SentryEvent_views, front, back, left, right.
  rewrite <- !property_ok.
  destruct (get_view e "front") as [f | xf] eqn:Hf;
    destruct (get_view e "back") as [b | xb] eqn:Hb;
    destruct (get_view e "left_repeater") as [l | xl] eqn:Hl;
    destruct (get_view e "right_repeater") as [r | xr] eqn:Hr;
    cbn [bind];
    repeat match goal with
      | H : get_view _ _ = Raise ?x |- _ =>
          pose proof (get_view_raises _ _ _ H); subst x; clear H
      end;
    (split; [split|split]);
    try (intros [ps H]; discriminate H);
    try (intros x H; now injection H);
    try (intros ps H; discriminate H);
    try (intros (_ & _ & _ & [p H]); discriminate H);
    try (intros (_ & _ & [p H] & _); discriminate H);
    try (intros (_ & [p H] & _); discriminate H);
    try (intros ([p H] & _); discriminate H).
  - intros _. eauto 10.
  - intros _. eauto.
  - intros ps H. injection H as <-. exists f, b, l, r. auto.
Qed.

Lemma views_needs_all_four_witness :
  SentryEvent_views four_view_event
  = Ok (map (fun p => path_join (event_dir four_view_event) (parse_path p))
          [front_mp4; back_mp4; left_mp4; right_mp4])
  /\ SentryEvent_views no_left_event = Raise IndexError.
Proof.
  split.
  - destruct (SentryEvent_views four_view_event) as [ps | x] eqn:H.
    + destruct (proj2 (proj2 (views_needs_all_four four_view_event)) ps H)
        as (f & b & l & r & -> & Hf & Hb & Hl & Hr).
      vm_compute in Hf, Hb, Hl, Hr.
      injection Hf as <-. injection Hb as <-. injection Hl as <-.
      injection Hr as <-. reflexivity.
    + vm_compute in H. discriminate H.
  - destruct (SentryEvent_views no_left_event) as [ps | x] eqn:H.
    + vm_compute in H. discriminate H.
    + now rewrite (proj1 (proj2 (views_needs_all_four no_left_event)) x H).
Defined.

(* ================================================================== *)
(** * The outcomes of the composer *)

(** X10. [compose_stack_cmd] has three outcomes. It returns a command
    exactly when some file name contains [front] and the speed is not
    zero; it raises [IndexError] exactly when no file name contains
    [front], whatever the speed; it raises [ZeroDivisionError] exactly
    when some file name contains [front] and the speed is zero. *)
Theorem compose_outcomes (e : SentryEvent) (scale speed quality : Z)
  (global_opts : option (list string)) :
  ((exists cmd, compose_stack_cmd e scale speed quality global_opts = Ok cmd)
   <-> label_present "front" e /\ speed <> 0)
  /\ (compose_stack_cmd e scale speed quality global_opts = Raise IndexError
      <-> ~ label_present "front" e)
  /\ (compose_stack_cmd e scale speed quality global_opts
      = Raise ZeroDivisionError
      <-> label_present "front" e /\ speed = 0)
  /\ (forall x, compose_stack_cmd e scale speed quality global_opts = Raise x
                -> x = IndexError \/ x = ZeroDivisionError).
Proof.
  unfold label_present.
  destruct (get_view e "front") as [f | x] eqn:Hf.
  - assert (exists name, In name (video_paths e)
                         /\ has_substring "front" name) as Hfront.
    { apply get_view_found in Hf as (bf & af & Hv & Hs & _).
      exists f. split; [rewrite Hv; apply in_elt | exact Hs]. }
    destruct (Z.eq_dec speed 0) as [-> | Hspeed].
    + rewrite (compose_zero_speed _ _ _ _ _ Hf).
      split; [|split; [|split]].
      * split; [intros [cmd H]; discriminate H | intros [_ H]; now elim H].
      * split; [discriminate | intros H; now elim H].
      * split; auto.
      * intros x H. right. now injection H.
    + destruct (int_truediv_one_ok _ Hspeed) as [ratio Hr].
      rewrite (compose_with_front _ _ _ _ _ _ _ Hf Hr).
      split; [|split; [|split]].
      * split; eauto.
      * split; [discriminate | intros H; now elim H].
      * split; [discriminate | intros [_ H]; contradiction].
      * intros x H. discriminate H.
  - pose proof (get_view_raises _ _ _ Hf) as ->.
    pose proof (proj1 (get_view_raise_iff _ _) Hf) as Hno.
    assert (~ exists name, In name (video_paths e)
                           /\ has_substring "front" name) as Hnot.
    { intros (name & Hin & Hs). exact (Hno _ Hin Hs). }
    rewrite (compose_without_front _ _ _ _ _ Hf).
    split; [|split; [|split]].
    + split; [intros [cmd H]; discriminate H | intros [H _]; contradiction].
    + split; auto.
    + split; [discriminate | intros [H _]; contradiction].
    + intros x H. left. now injection H.
Qed.

Lemma compose_outcomes_witness :
  compose_stack_cmd no_back_event 4 0 23 None = Raise ZeroDivisionError
  /\ compose_stack_cmd no_front_event 4 0 23 None = Raise IndexError.
Proof.
  split.
  - apply (proj1 (proj2 (proj2 (compose_outcomes no_back_event 4 0 23 None)))).
    split; [|reflexivity].
    exists front_mp4. split; [now left|].
    apply substring_present. vm_compute. reflexivity.
  - apply (proj1 (proj2 (compose_outcomes no_front_event 4 0 23 None))).
    intros (name & [<- | [<- | [<- | []]]] & Hs); revert Hs;
      apply substring_absent; vm_compute; reflexivity.
Defined.

Lemma view_or_cases (e : SentryEvent) (view f : string) :
  In f (video_paths e) ->
  In (view_or e view f) (video_paths e)
  /\ (has_substring view (view_or e view f)
      \/ (view_or e view f = f
          /\ forall p, In p (video_paths e) -> ~ has_substring view p)).
Proof.
  intros Hf. unfold view_or.
  destruct (get_view e view) as [p | x] eqn:Hv.
  - apply get_view_found in Hv as (bf & af & Hv & Hs & _).
    split; [rewrite Hv; apply in_elt | now left].
  - pose proof (get_view_raises _ _ _ Hv) as ->.
    split; [exact Hf|]. right. split; [reflexivity|].
    now apply get_view_raise_iff.
Qed.

(** X11. The four inputs of a command are files of the event: the first
    is a file whose name contains [front]; the second, third and fourth
    are files whose names contain [back], [left] and [right], and where no
    name contains the label the input is the front file again. The
    composer never names a file that is not in the event. *)
Theorem compose_inputs_are_event_files (e : SentryEvent)
  (scale speed quality : Z) (global_opts : option (list string))
  (cmd : list string) :
  compose_stack_cmd e scale speed quality global_opts = Ok cmd ->
  exists f b l r graph,
    cmd = command_layout (passed_options global_opts)
            (input_arg e f) (input_arg e b) (input_arg e l) (input_arg e r)
            graph quality (path_str (output_path e scale speed quality))
    /\ In f (video_paths e) /\ In b (video_paths e)
    /\ In l (video_paths e) /\ In r (video_paths e)
    /\ has_substring "front" f
    /\ (has_substring "back" b \/ (b = f /\ ~ label_present "back" e))
    /\ (has_substring "left" l \/ (l = f /\ ~ label_present "left" e))
    /\ (has_substring "right" r \/ (r = f /\ ~ label_present "right" e)).
Proof.
  rewrite compose_stack_cmd_eq.
  destruct (get_view e "front") as [f | x] eqn:Hf; [|discriminate].
  destruct (int_truediv 1 speed) as [ratio | y]; [|discriminate].
  cbn [bind]. intros H. injection H as <-.
  apply get_view_found in Hf as (bf & af & Hv & Hs & _).
  assert (In f (video_paths e)) as Hin by (rewrite Hv; apply in_elt).
  destruct (view_or_cases e "back" f Hin) as [Hb Hb'].
  destruct (view_or_cases e "left" f Hin) as [Hl Hl'].
  destruct (view_or_cases e "right" f Hin) as [Hr Hr'].
  exists f, (view_or e "back" f), (view_or e "left" f),
    (view_or e "right" f). eexists.
  split; [reflexivity|]. repeat split; auto.
  - destruct Hb' as [H | [H1 H2]]; [now left | right]. split; [exact H1|].
    intros (n & Hn & Hsn). exact (H2 _ Hn Hsn).
  - destruct Hl' as [H | [H1 H2]]; [now left | right]. split; [exact H1|].
    intros (n & Hn & Hsn). exact (H2 _ Hn Hsn).
  - destruct Hr' as [H | [H1 H2]]; [now left | right]. split; [exact H1|].
    intros (n & Hn & Hsn). exact (H2 _ Hn Hsn).
Qed.

Lemma compose_inputs_are_event_files_witness :
  exists f b l r graph,
    four_view_cmd
    = command_layout ["-y"]
        (input_arg four_view_event f) (input_arg four_view_event b)
        (input_arg four_view_event l) (input_arg four_view_event r)
        graph 20 (path_str (output_path four_view_event 4 2 20))
    /\ In f (video_paths four_view_event)
    /\ In b (video_paths four_view_event)
    /\ In l (video_paths four_view_event)
    /\ In r (video_paths four_view_event)
    /\ has_substring "front" f
    /\ (has_substring "back" b
        \/ (b = f /\ ~ label_present "back" four_view_event))
    /\ (has_substring "left" l
        \/ (l = f /\ ~ label_present "left" four_view_event))
    /\ (has_substring "right" r
        \/ (r = f /\ ~ label_present "right" four_view_event)).
Proof.
  apply (compose_inputs_are_event_files four_view_event 4 2 20
           (Some ["-y"])).
  vm_compute. reflexivity.
Defined.

(* ================================================================== *)
(** * Runs of [main] *)

Lemma event_groups_raise_value (l : list string) (x : exn) :
  event_groups l = Raise x -> x = ValueError.
Proof.
  intros H. apply for_each_groups_raise in H as (vid & _ & Hk).
  exact (group_key_raise _ _ Hk).
Qed.

Section MainRun.

Variable fs : Type.
Variable listdir : fs -> Path -> list string.
Variable is_dir : fs -> Path -> bool.
Variable path_exists : fs -> Path -> bool.
Variable sp_run : list string -> fs -> result fs.

(** The body of the loop, case by case. *)
Lemma loop_body_eq (opt : Namespace) (global_opts : list string)
  (e : SentryEvent) (st : run_state fs) :
  loop_body fs path_exists sp_run opt global_opts e st
  = let op := output_path e (opt_scale opt) (opt_speed opt)
                (opt_quality opt) in
    if negb (opt_overwrite opt) && path_exists (files st) op then
      (mkRunState (files st) (trace st ++ [LogSkip op]), Ok tt)
    else
      let t1 := trace st ++ [PrintEvent e] in
      match front e with
      | Raise x => (mkRunState (files st) t1, Raise x)
      | Ok f =>
          let t2 := t1 ++ [PrintPath f] in
          match compose_stack_cmd e (opt_scale opt) (opt_speed opt)
                  (opt_quality opt) (Some global_opts) with
          | Raise x => (mkRunState (files st) t2, Raise x)
          | Ok cmd =>
              let t3 := t2 ++ [PrintLine (String.concat " " cmd)] in
              if opt_dry_run opt then (mkRunState (files st) t3, Ok tt)
              else match sp_run cmd (files st) with
                   | Ok w => (mkRunState w t3, Ok tt)
                   | Raise x => (mkRunState (files st) t3, Raise x)
                   end
          end
      end.
Proof.
  unfold loop_body, mbind, exists_, emit, lift, ret, run.
  destruct (opt_overwrite opt); cbn [negb andb files trace].
  - destruct (front e) as [f | x]; [|reflexivity].
    destruct (compose_stack_cmd _ _ _ _ _) as [cmd | x]; [|reflexivity].
    destruct (opt_dry_run opt); cbn [negb files trace]; [reflexivity|].
    destruct (sp_run cmd (files st)); reflexivity.
  - destruct (path_exists (files st) _); cbn [files trace]; [reflexivity|].
    destruct (front e) as [f | x]; [|reflexivity].
    destruct (compose_stack_cmd _ _ _ _ _) as [cmd | x]; [|reflexivity].
    destruct (opt_dry_run opt); cbn [negb files trace]; [reflexivity|].
    destruct (sp_run cmd (files st)); reflexivity.
Qed.

(** X12. Without [--overwrite], a run over events whose outputs all exist
    composes and executes nothing and raises nothing, also for events that
    have no front file: it logs one skip per event and leaves the files as
    they are. *)
Theorem main_loop_skips_existing (opt : Namespace)
  (global_opts : list string) (events : list SentryEvent)
  (st : run_state fs) :
  opt_overwrite opt = false ->
  (forall e, In e events ->
             path_exists (files st)
               (output_path e (opt_scale opt) (opt_speed opt)
                  (opt_quality opt)) = true) ->
  main_loop fs path_exists sp_run opt global_opts events st
  = (mkRunState (files st)
       (trace st
        ++ map (fun e => LogSkip (output_path e (opt_scale opt)
                                    (opt_speed opt) (opt_quality opt)))
             events),
     Ok tt).
Proof.
  intros Hov. revert st. induction events as [|e events IH]; intros st Hex.
  - simpl. unfold ret. rewrite app_nil_r. now destruct st.
  - cbn [main_loop]. unfold mbind. rewrite loop_body_eq. cbv zeta.
    rewrite Hov, (Hex e (or_introl eq_refl)). cbn [negb andb].
    rewrite IH; cbn [files trace].
    + now rewrite <- app_assoc.
    + intros e' He'. apply Hex. now right.
Qed.

Lemma loop_body_dry_files (opt : Namespace) (global_opts : list string)
  (e : SentryEvent) (st : run_state fs) :
  opt_dry_run opt = true ->
  files (fst (loop_body fs path_exists sp_run opt global_opts e st))
  = files st.
Proof.
  intros Hdry. rewrite loop_body_eq. cbv zeta. rewrite Hdry.
  destruct (negb (opt_overwrite opt) && path_exists (files st) _);
    [reflexivity|].
  destruct (front e); [|reflexivity].
  destruct (compose_stack_cmd _ _ _ _ _); reflexivity.
Qed.

Lemma main_loop_dry_files (opt : Namespace) (global_opts : list string)
  (events : list SentryEvent) :
  opt_dry_run opt = true ->
  forall st,
    files (fst (main_loop fs path_exists sp_run opt global_opts events st))
    = files st.
Proof.
  intros Hdry. induction events as [|e events IH]; intros st; [reflexivity|].
  cbn [main_loop]. unfold mbind.
  pose proof (loop_body_dry_files opt global_opts e st Hdry) as Hb.
  destruct (loop_body fs path_exists sp_run opt global_opts e st)
    as [st1 [[] | x]]; cbn [fst] in *; [|exact Hb].
  now rewrite IH.
Qed.

(** X13. With [--dry-run] the whole of [main] leaves the file system as
    it found it: [subprocess.run] is never reached, whether the run ends
    normally or with an exception. *)
Theorem main_dry_run_keeps_files (opt : Namespace)
  (global_opts : list string) (st : run_state fs) :
  opt_dry_run opt = true ->
  files (fst (main fs listdir is_dir path_exists sp_run opt global_opts st))
  = files st.
Proof.
  intros Hdry. unfold main, mbind, emit, lift, ret.
  cbn [files trace].
  destruct (opt_list_dir opt); cbn [files trace];
    (destruct (build_events _ _ _ _ _) as [events | x];
     [|reflexivity]);
    rewrite main_loop_dry_files by exact Hdry; reflexivity.
Qed.

Lemma build_events_raise (w : fs) (root : Path) (dirs : list Path) :
  (exists d x, In d dirs /\ event_groups (listdir w d) = Raise x) ->
  build_events fs listdir w root dirs = Raise ValueError.
Proof.
  induction dirs as [|d0 dirs IH]; intros (d & x & Hin & Hd);
    [contradiction|].
  cbn [build_events].
  destruct (event_groups (listdir w d0)) as [grps | y] eqn:H0; cbn [bind].
  - destruct Hin as [-> | Hin]; [congruence|].
    rewrite IH by eauto. reflexivity.
  - now rewrite (event_groups_raise_value _ _ H0).
Qed.

(** X14. One name with the digits of no date in one session directory
    ends the whole run before any event is processed: [main] raises
    [ValueError] while it builds the list of events, having written only
    its options (and the directory list, when asked) and touched no
    file. *)
Theorem main_aborts_on_invalid_date (opt : Namespace)
  (global_opts : list string) (st : run_state fs) (d : Path) (x : exn) :
  In d (events_dir_iter fs listdir is_dir (files st) (opt_sentry_dir opt)) ->
  event_groups (listdir (files st) d) = Raise x ->
  main fs listdir is_dir path_exists sp_run opt global_opts st
  = (mkRunState (files st)
       (trace st
        ++ LogOptions opt global_opts
           :: (if opt_list_dir opt
               then [PrintDirs (events_dir_iter fs listdir is_dir (files st)
                                  (opt_sentry_dir opt))]
               else [])),
     Raise ValueError).
Proof.
  intros Hin Hd. unfold main, mbind, emit, lift, ret.
  cbn [files trace].
  destruct (opt_list_dir opt); cbn [files trace];
    rewrite build_events_raise by eauto.
  - now rewrite <- app_assoc.
  - reflexivity.
Qed.

Lemma build_events_in (w : fs) (root : Path) (dirs : list Path)
  (events : list SentryEvent) (e : SentryEvent) :
  build_events fs listdir w root dirs = Ok events -> In e events ->
  sentry_dir e = root /\ In (date_dir e) dirs
  /\ exists grps, event_groups (listdir w (date_dir e)) = Ok grps
                  /\ In (sentry_event_id e, video_paths e) grps.
Proof.
  revert events. induction dirs as [|d dirs IH]; intros events H Hin.
  - injection H as <-. contradiction.
  - cbn [build_events] in H.
    destruct (event_groups (listdir w d)) as [grps | x] eqn:Hg;
      [|discriminate]. cbn [bind] in H.
    destruct (build_events fs listdir w root dirs) as [rest | x];
      [|discriminate]. cbn [bind] in H. injection H as <-.
    apply in_app_or in Hin as [Hin | Hin].
    + apply in_map_iff in Hin as ([k vs] & <- & Hkv). cbn.
      split; [reflexivity|]. split; [now left|]. now exists grps.
    + destruct (IH rest eq_refl Hin) as (Hs & Hd & Hg').
      split; [exact Hs|]. split; [now right | exact Hg'].
Qed.

(** X15. The events [main] builds take the paths of the directory
    iteration, root included, as [date_dir]. Under a relative root the
    event directory therefore names the components of the root twice; under
    an absolute root it is the session directory. The files of the event
    are one group of the listing of its session directory. *)
Theorem main_event_directories (w : fs) (root : Path)
  (events : list SentryEvent) (e : SentryEvent) :
  build_events fs listdir w root (events_dir_iter fs listdir is_dir w root)
  = Ok events ->
  In e events ->
  exists name,
    In name (listdir w root)
    /\ sentry_dir e = root
    /\ date_dir e = path_join root (parse_path name)
    /\ (p_root root <> "" -> event_dir e = path_join root (parse_path name))
    /\ (p_root root = "" -> p_root (parse_path name) = "" ->
        event_dir e
        = mkPath "" (p_names root ++ p_names root
                       ++ p_names (parse_path name)))
    /\ exists grps,
         event_groups (listdir w (date_dir e)) = Ok grps
         /\ In (sentry_event_id e, video_paths e) grps.
Proof.
  intros H Hin.
  destruct (build_events_in _ _ _ _ _ H Hin) as (Hs & Hd & Hg).
  unfold events_dir_iter in Hd.
  apply filter_In in Hd as [Hd _].
  apply in_map_iff in Hd as (name & Hname & Hl).
  exists name. split; [exact Hl|]. split; [exact Hs|].
  split; [now rewrite Hname|]. split; [|split; [|exact Hg]].
  - intros Hroot. unfold event_dir. rewrite Hs, <- Hname.
    unfold path_join.
    destruct (String.eqb_spec (p_root (parse_path name)) "") as [E | E].
    + cbn [p_root p_names].
      destruct (String.eqb_spec (p_root root) ""); [contradiction|].
      reflexivity.
    + destruct (String.eqb_spec (p_root (parse_path name)) "");
        [contradiction | reflexivity].
  - intros Hroot Hrel. unfold event_dir. rewrite Hs, <- Hname.
    unfold path_join. rewrite Hrel. cbn [String.eqb p_root p_names].
    rewrite Hroot. cbn [String.eqb]. reflexivity.
Qed.

(** X16. The loop runs to its end without an exception when every event
    has a file whose name contains [front], the speed is not zero and the
    external program can be started. *)
Theorem main_loop_completes (opt : Namespace) (global_opts : list string)
  (events : list SentryEvent) :
  (forall e, In e events -> label_present "front" e) ->
  opt_speed opt <> 0 ->
  (forall cmd w, exists w', sp_run cmd w = Ok w') ->
  forall st, exists st',
    main_loop fs path_exists sp_run opt global_opts events st = (st', Ok tt).
Proof.
  intros Hfront Hspeed Hrun.
  induction events as [|e events IH]; intros st.
  - exists st. reflexivity.
  - cbn [main_loop]. unfold mbind.
    assert (exists st1, loop_body fs path_exists sp_run opt global_opts e st
                        = (st1, Ok tt)) as [st1 ->].
    { rewrite loop_body_eq. cbv zeta.
      destruct (negb (opt_overwrite opt) && path_exists (files st) _);
        [eauto|].
      destruct (Hfront e (or_introl eq_refl)) as (name & Hin & Hs).
      destruct (get_view_some _ _ _ Hin Hs) as [f Hf].
      destruct (int_truediv_one_ok _ Hspeed) as [ratio Hr].
      unfold front. rewrite Hf. cbn [bind].
      rewrite (compose_with_front _ _ _ _ _ _ _ Hf Hr).
      destruct (opt_dry_run opt); [eauto|].
      destruct (Hrun (command_layout (passed_options (Some global_opts))
                        (input_arg e f) (input_arg e (view_or e "back" f))
                        (input_arg e (view_or e "left" f))
                        (input_arg e (view_or e "right" f))
                        (spec_filter_graph (opt_scale opt) (float_repr ratio))
                        (opt_quality opt)
                        (path_str (output_path e (opt_scale opt)
                                     (opt_speed opt) (opt_quality opt))))
                  (files st)) as [w' ->].
      eauto. }
    apply IH. intros e' He'. apply Hfront. now right.
Qed.

(** X17. With [--overwrite] the run does not look at what exists: the
    outcome of the loop is the same on any two answers to the existence
    test. *)
Theorem main_loop_overwrite_ignores_existing (opt : Namespace)
  (global_opts : list string) (events : list SentryEvent)
  (other_exists : fs -> Path -> bool) :
  opt_overwrite opt = true ->
  forall st,
    main_loop fs path_exists sp_run opt global_opts events st
    = main_loop fs other_exists sp_run opt global_opts events st.
Proof.
  intros Hov. induction events as [|e events IH]; intros st; [reflexivity|].
  cbn [main_loop]. unfold mbind.
  assert (loop_body fs path_exists sp_run opt global_opts e st
          = loop_body fs other_exists sp_run opt global_opts e st) as ->.
  { unfold loop_body. now rewrite Hov. }
  destruct (loop_body fs other_exists sp_run opt global_opts e st)
    as [st1 [[] | x]]; [apply IH | reflexivity].
Qed.

(** X19. When the external program cannot be started for an event,
    [subprocess.run] raises and the loop ends with that exception right
    after printing the command of the event; the events after it are not
    processed. *)
Theorem main_loop_aborts_on_run_failure (opt : Namespace)
  (global_opts : list string) (pre post : list SentryEvent)
  (e : SentryEvent) (st st' : run_state fs) (f : Path) (cmd : list string)
  (x : exn) :
  main_loop fs path_exists sp_run opt global_opts pre st = (st', Ok tt) ->
  not_skipped fs path_exists opt e (files st') ->
  opt_dry_run opt = false ->
  front e = Ok f ->
  compose_stack_cmd e (opt_scale opt) (opt_speed opt) (opt_quality opt)
    (Some global_opts) = Ok cmd ->
  sp_run cmd (files st') = Raise x ->
  main_loop fs path_exists sp_run opt global_opts (pre ++ e :: post) st
  = (mkRunState (files st')
       (((trace st' ++ [PrintEvent e]) ++ [PrintPath f])
        ++ [PrintLine (String.concat " " cmd)]),
     Raise x).
Proof.
  intros Hpre Hskip Hdry Hf Hc Hrun.
  apply (main_loop_stops_at_exception _ _ _ _ _ _ _ _ _ _ _ _ Hpre).
  rewrite loop_body_eq. cbv zeta. rewrite Hf, Hc, Hdry, Hrun.
  destruct Hskip as [-> | ->]; [reflexivity|].
  now rewrite andb_false_r.
Qed.

End MainRun.

(* ================================================================== *)
(** * The groups come in chronological order *)

Lemma string_leb_same_head (c : ascii) (x x' : string) :
  String.leb (String c x) (String c x') = true -> String.leb x x' = true.
Proof.
  rewrite string_leb_cons. intros [H | [_ H]]; [lia | exact H].
Qed.

(** Between names that start with digit runs of one length, the order of
    the names follows the order of the numbers. *)
Lemma leb_digits_append (a : string) :
  forall a' x x',
    String.length a = String.length a' ->
    forallb_string is_digit a = true -> forallb_string is_digit a' = true ->
    String.leb (a ++ x) (a' ++ x') = true ->
    digits_value 0 a < digits_value 0 a'
    \/ (a = a' /\ String.leb x x' = true).
Proof.
  induction a as [|c a IH]; intros [|c' a'] x x' Hlen Ha Ha' H;
    try discriminate.
  - right. auto.
  - injection Hlen as Hlen. cbn [forallb_string] in Ha, Ha'.
    apply andb_prop in Ha as [Hc Ha]. apply andb_prop in Ha' as [Hc' Ha'].
    cbn [append] in H. apply string_leb_cons in H.
    cbn [digits_value].
    rewrite (digits_value_acc a), (digits_value_acc a'), <- Hlen.
    pose proof (digits_value_bound _ Ha) as Ba.
    pose proof (digits_value_bound _ Ha') as Ba'. rewrite <- Hlen in Ba'.
    destruct H as [Hlt | [-> H]].
    + left. assert (digit_val c < digit_val c') by (unfold digit_val; lia).
      nia.
    + destruct (IH _ _ _ Hlen Ha Ha' H) as [Hv | [-> Hx]].
      * left. lia.
      * right. auto.
Qed.

(** A later name in the order of [sorted] has the same or a later
    timestamp. *)
Lemma name_le_key_le (v1 v2 : string) (k1 k2 : datetime) :
  name_le v1 v2 ->
  group_key v1 = Some (Ok k1) -> group_key v2 = Some (Ok k2) ->
  k1 = k2 \/ earlier k1 k2.
Proof.
  unfold name_le. intros Hle H1 H2.
  apply group_key_ok in H1
    as (_ & Y & Mo & D & h & mi & s
        & ([HY HY'] & [HMo HMo'] & [HD HD'] & [Hh Hh'] & [Hmi Hmi']
           & [Hs Hs'] & t & ->) & ->).
  apply group_key_ok in H2
    as (_ & Y2 & Mo2 & D2 & h2 & mi2 & s2
        & ([HY2 HY2'] & [HMo2 HMo2'] & [HD2 HD2'] & [Hh2 Hh2'] & [Hmi2 Hmi2']
           & [Hs2 Hs2'] & t2 & ->) & ->).
  unfold earlier, datetime_fields, lex_lt.
  cbn [year month day hour minute second].
  apply leb_digits_append in Hle as [H | [-> Hle]];
    [now right; left | | congruence | assumption | assumption].
  cbn [append] in Hle. apply string_leb_same_head in Hle.
  apply leb_digits_append in Hle as [H | [-> Hle]];
    [right; right; split; [reflexivity | now left]
    | | congruence | assumption | assumption].
  cbn [append] in Hle. apply string_leb_same_head in Hle.
  apply leb_digits_append in Hle as [H | [-> Hle]];
    [right; right; split; [reflexivity|]; right; split; [reflexivity|];
     now left
    | | congruence | assumption | assumption].
  cbn [append] in Hle. apply string_leb_same_head in Hle.
  apply leb_digits_append in Hle as [H | [-> Hle]];
    [right; right; split; [reflexivity|]; right; split; [reflexivity|];
     right; split; [reflexivity|]; now left
    | | congruence | assumption | assumption].
  cbn [append] in Hle. apply string_leb_same_head in Hle.
  apply leb_digits_append in Hle as [H | [-> Hle]];
    [right; right; split; [reflexivity|]; right; split; [reflexivity|];
     right; split; [reflexivity|]; right; split; [reflexivity|]; now left
    | | congruence | assumption | assumption].
  cbn [append] in Hle. apply string_leb_same_head in Hle.
  apply leb_digits_append in Hle as [H | [-> Hle]];
    [right; right; split; [reflexivity|]; right; split; [reflexivity|];
     right; split; [reflexivity|]; right; split; [reflexivity|];
     right; split; [reflexivity|]; now left
    | | congruence | assumption | assumption].
  now left.
Qed.

Lemma key_of_some (v : string) (k : datetime) :
  key_of v = Some k <-> group_key v = Some (Ok k).
Proof.
  unfold key_of. destruct (group_key v) as [[k' | x]|]; split; congruence.
Qed.

Lemma strongly_sorted_snoc {A : Type} (R : A -> A -> Prop) (l : list A)
  (x : A) :
  StronglySorted R l -> Forall (fun y => R y x) l ->
  StronglySorted R (l ++ [x]).
Proof.
  induction 1 as [|y l Hs IH Hy]; intros Hx; simpl.
  - repeat constructor.
  - inversion Hx as [|? ? Hyx Hx']; subst.
    constructor; [now apply IH|].
    apply Forall_app. split; [exact Hy | now constructor].
Qed.

Lemma strongly_sorted_impl {A : Type} (R R' : A -> A -> Prop) (l : list A) :
  (forall a b, R a b -> R' a b) ->
  StronglySorted R l -> StronglySorted R' l.
Proof.
  intros Himp. induction 1 as [|y l Hs IH Hy]; constructor; [exact IH|].
  revert Hy. apply Forall_impl. apply Himp.
Qed.

Lemma fold_file_under_chronological (l : list string) :
  forall grps,
    StronglySorted earlier (map fst grps) ->
    (forall k v k', In k (map fst grps) -> In v l -> key_of v = Some k' ->
                    k = k' \/ earlier k k') ->
    StronglySorted key_le l ->
    StronglySorted earlier (map fst (fold_left file_under l grps)).
Proof.
  induction l as [|v l IH]; intros grps Hs Hle Hl; [exact Hs|].
  cbn [fold_left]. inversion Hl as [|? ? Hl' Hv]; subst.
  unfold file_under at 2. destruct (key_of v) as [k|] eqn:Hk.
  - apply IH; [| |exact Hl'].
    + rewrite dd_append_keys.
      destruct (existsb _ _) eqn:E; [exact Hs|].
      apply strongly_sorted_snoc; [exact Hs|].
      apply Forall_forall. intros k0 Hk0.
      destruct (Hle k0 v k Hk0 (or_introl eq_refl) Hk) as [-> | H];
        [|exact H].
      apply existsb_key in Hk0. congruence.
    + intros k0 v' k' Hk0 Hv' Hk'.
      apply dd_append_in_keys in Hk0 as [-> | Hk0].
      * rewrite Forall_forall in Hv. exact (Hv v' Hv' k k' Hk Hk').
      * apply (Hle k0 v' k' Hk0); [now right | exact Hk'].
  - apply IH; [exact Hs | | exact Hl'].
    intros k0 v' k' Hk0 Hv' Hk'. apply (Hle k0 v' k' Hk0); [now right|].
    exact Hk'.
Qed.

(** X18. For a listing of ASCII names the groups come out in
    chronological order: in the dictionary [event_groups] returns, which
    keeps its keys in insertion order, every key is an earlier instant
    than the keys after it. *)
Theorem event_groups_chronological (listing : list string)
  (grps : dict (list string)) :
  Forall ascii_text listing ->
  event_groups listing = Ok grps ->
  StronglySorted earlier (map fst grps).
Proof.
  intros _ H. pose proof (event_groups_ok_valid _ _ H) as Hvalid.
  apply dates_valid_sorted in Hvalid.
  unfold event_groups in H. rewrite (for_each_file_under _ _ Hvalid) in H.
  injection H as <-.
  apply fold_file_under_chronological.
  - constructor.
  - intros k v k' [].
  - apply strongly_sorted_impl with (R := name_le);
      [|apply sorted_strongly].
    intros a b Hab k1 k2 H1 H2.
    apply key_of_some in H1, H2. exact (name_le_key_le _ _ _ _ Hab H1 H2).
Qed.

Lemma event_groups_chronological_witness :
  StronglySorted earlier
    [mkDatetime 2023 12 31 23 59 59; example_id; mkDatetime 2024 1 2 3 4 6].
Proof.
  apply (event_groups_chronological
           ["2024-01-02_03-04-06-front.mp4"; front_mp4;
            "2023-12-31_23-59-59-back.mp4"; back_mp4]
           [(mkDatetime 2023 12 31 23 59 59,
             ["2023-12-31_23-59-59-back.mp4"]);
            (example_id, [back_mp4; front_mp4]);
            (mkDatetime 2024 1 2 3 4 6, ["2024-01-02_03-04-06-front.mp4"])]).
  - repeat (apply Forall_cons; [vm_compute; reflexivity|]). apply Forall_nil.
  - vm_compute. reflexivity.
Defined.

(* ================================================================== *)
(** * Runs of [main] on the example machines *)

Lemma main_loop_skips_existing_witness :
  main_loop unit all_files run_nothing keep_opt []
    [no_front_event; four_view_event] start_state
  = (mkRunState tt
       (trace start_state
        ++ map (fun e => LogSkip (output_path e (opt_scale keep_opt)
                                    (opt_speed keep_opt)
                                    (opt_quality keep_opt)))
             [no_front_event; four_view_event]),
     Ok tt).
Proof.
  apply (main_loop_skips_existing unit all_files run_nothing keep_opt []
           [no_front_event; four_view_event] start_state).
  - reflexivity.
  - intros e _. reflexivity.
Defined.

Lemma main_dry_run_keeps_files_witness :
  files (fst (main unit example_listdir all_dirs no_files run_nothing
                example_opt [] start_state))
  = files start_state.
Proof.
  apply main_dry_run_keeps_files. reflexivity.
Defined.

Lemma main_aborts_on_invalid_date_witness :
  main unit broken_listdir all_dirs no_files run_nothing exec_opt []
    start_state
  = (mkRunState tt [LogOptions exec_opt []], Raise ValueError).
Proof.
  apply (main_aborts_on_invalid_date unit broken_listdir all_dirs no_files
           run_nothing exec_opt [] start_state
           (parse_path "events/2024-01-02_03-04-05") ValueError).
  - vm_compute. left. reflexivity.
  - vm_compute. reflexivity.
Defined.

Lemma main_event_directories_witness :
  exists name,
    In name (example_listdir tt (parse_path "./events"))
    /\ sentry_dir main_example_event = parse_path "./events"
    /\ date_dir main_example_event
       = path_join (parse_path "./events") (parse_path name)
    /\ (p_root (parse_path "./events") <> "" ->
        event_dir main_example_event
        = path_join (parse_path "./events") (parse_path name))
    /\ (p_root (parse_path "./events") = "" ->
        p_root (parse_path name) = "" ->
        event_dir main_example_event
        = mkPath "" (p_names (parse_path "./events")
                       ++ p_names (parse_path "./events")
                       ++ p_names (parse_path name)))
    /\ exists grps,
         event_groups (example_listdir tt (date_dir main_example_event))
         = Ok grps
         /\ In (sentry_event_id main_example_event,
                video_paths main_example_event) grps.
Proof.
  apply (main_event_directories unit example_listdir all_dirs tt
           (parse_path "./events") [main_example_event]).
  - vm_compute. reflexivity.
  - now left.
Defined.

Lemma main_loop_completes_witness :
  exists st',
    main_loop unit no_files run_nothing exec_opt []
      [four_view_event; no_back_event] start_state
    = (st', Ok tt).
Proof.
  apply (main_loop_completes unit no_files run_nothing exec_opt []
           [four_view_event; no_back_event]).
  - intros e [<- | [<- | []]]; exists front_mp4;
      (split; [simpl; tauto|]); apply substring_present;
      vm_compute; reflexivity.
  - discriminate.
  - intros cmd w. now exists w.
Defined.

Lemma main_loop_overwrite_ignores_existing_witness :
  main_loop unit no_files run_nothing example_opt ["-y"]
    [four_view_event] start_state
  = main_loop unit all_files run_nothing example_opt ["-y"]
      [four_view_event] start_state.
Proof.
  apply main_loop_overwrite_ignores_existing. reflexivity.
Defined.

Lemma main_loop_aborts_on_run_failure_witness :
  main_loop unit no_files run_fails exec_opt ["-y"]
    ([] ++ four_view_event :: [no_back_event]) start_state
  = (mkRunState tt
       (((trace start_state ++ [PrintEvent four_view_event])
         ++ [PrintPath (path_join (event_dir four_view_event)
                          (parse_path front_mp4))])
        ++ [PrintLine (String.concat " " four_view_cmd)]),
     Raise OSError).
Proof.
  apply (main_loop_aborts_on_run_failure unit no_files run_fails exec_opt
           ["-y"] [] [no_back_event] four_view_event start_state
           start_state).
  - reflexivity.
  - left. reflexivity.
  - reflexivity.
  - vm_compute. reflexivity.
  - vm_compute. reflexivity.
  - reflexivity.
Defined.

(* ================================================================== *)
(** * The composer and the order of the files *)

Lemma get_view_permutation (e e' : SentryEvent) (view : string) :
  Permutation (video_paths e) (video_paths e') ->
  unique_label view (video_paths e) ->
  get_view e view = get_view e' view.
Proof.
  intros Hp Hu.
  destruct (get_view e view) as [p | x] eqn:H.
  - apply get_view_found in H as (bf & af & Hv & Hs & _).
    assert (In p (video_paths e)) as Hin by (rewrite Hv; apply in_elt).
    destruct (get_view_some e' view p (Permutation_in _ Hp Hin) Hs)
      as [p' H'].
    rewrite H'. f_equal.
    apply get_view_found in H' as (bf' & af' & Hv' & Hs' & _).
    apply Hu; auto.
    apply (Permutation_in _ (Permutation_sym Hp)).
    rewrite Hv'. apply in_elt.
  - pose proof (get_view_raises _ _ _ H) as ->. symmetry.
    apply get_view_missing. intros p Hin.
    apply (proj1 (get_view_raise_iff e view) H).
    exact (Permutation_in _ (Permutation_sym Hp) Hin).
Qed.

(** X20. When each of the labels [front], [back], [left] and [right] is
    in at most one file name, the command does not depend on the order of
    the files in the event: two events of the same directory and
    timestamp whose file lists are permutations of each other get the
    same outcome, command or exception. *)
Theorem compose_ignores_file_order (e e' : SentryEvent)
  (scale speed quality : Z) (global_opts : option (list string)) :
  sentry_dir e = sentry_dir e' -> date_dir e = date_dir e' ->
  sentry_event_id e = sentry_event_id e' ->
  Permutation (video_paths e) (video_paths e') ->
  unique_label "front" (video_paths e) ->
  unique_label "back" (video_paths e) ->
  unique_label "left" (video_paths e) ->
  unique_label "right" (video_paths e) ->
  compose_stack_cmd e scale speed quality global_opts
  = compose_stack_cmd e' scale speed quality global_opts.
Proof.
  intros Hs Hd Hid Hp Hf Hb Hl Hr.
  rewrite !compose_stack_cmd_eq.
  unfold view_or, input_arg, output_path, output_name, event_dir.
  rewrite <- (get_view_permutation e e' "front" Hp Hf).
  rewrite <- (get_view_permutation e e' "back" Hp Hb).
  rewrite <- (get_view_permutation e e' "left" Hp Hl).
  rewrite <- (get_view_permutation e e' "right" Hp Hr).
  now rewrite Hs, Hd, Hid.
Qed.

Lemma unique_label_example (label : string) :
  (forall p, In p (video_paths four_view_event) ->
             forall q, In q (video_paths four_view_event) ->
                       p <> q ->
                       (str_find p label =? -1) = true
                       \/ (str_find q label =? -1) = true) ->
  unique_label label (video_paths four_view_event).
Proof.
  intros H p q Hp Hq Hsp Hsq.
  destruct (string_dec p q) as [E | E]; [exact E|].
  destruct (H p Hp q Hq E) as [Hn | Hn]; apply substring_absent in Hn;
    contradiction.
Qed.

Lemma compose_ignores_file_order_witness :
  compose_stack_cmd four_view_event 4 2 20 None
  = compose_stack_cmd shuffled_event 4 2 20 None.
Proof.
  apply compose_ignores_file_order; try reflexivity.
  - change (video_paths four_view_event)
      with (sorted (video_paths shuffled_event)).
    apply sorted_perm.
  - apply unique_label_example.
    intros p [<- | [<- | [<- | [<- | []]]]] q [<- | [<- | [<- | [<- | []]]]] E;
      try (now elim E); vm_compute; auto.
  - apply unique_label_example.
    intros p [<- | [<- | [<- | [<- | []]]]] q [<- | [<- | [<- | [<- | []]]]] E;
      try (now elim E); vm_compute; auto.
  - apply unique_label_example.
    intros p [<- | [<- | [<- | [<- | []]]]] q [<- | [<- | [<- | [<- | []]]]] E;
      try (now elim E); vm_compute; auto.
  - apply unique_label_example.
    intros p [<- | [<- | [<- | [<- | []]]]] q [<- | [<- | [<- | [<- | []]]]] E;
      try (now elim E); vm_compute; auto.
Defined.
